(** * Entity resolution by name-similarity clustering

    A shallow embedding of [archive/people_resolution.py]: the name
    normalizers, the similarity-matrix builder, the hierarchical clusterer,
    the representative selector and the attribute-conflict validator,
    followed by the properties proved about them. *)

From Stdlib Require Import ZArith NArith QArith Lia Lqa Ascii String.
From stdpp Require Import base decidable option list strings gmap sorting.

(** ** Python values *)

(** A Python [str] is a sequence of Unicode code points. *)
Abbreviation str := (list N).

(** Reading of an ASCII literal of the source as a [str]. *)
Fixpoint u (s : string) : str :=
  match s with
  | EmptyString => []
  | String a s' => N_of_ascii a :: u s'
  end.

(** The cells of a data frame and the items of a name list: a null
    ([None] / [NaN]), an integer, a string or a list of strings. *)
Inductive pyval :=
  | PNone
  | PInt (z : Z)
  | PStr (s : str)
  | PList (l : list str).

#[export] Instance pyval_eq_dec : EqDecision pyval.
Proof. solve_decision. Defined.

(** The exceptions the modelled code can raise. *)
Inductive exn :=
  | AttributeError   (* [.lower()] on something that is not a [str] *)
  | AssertionError   (* a failed [assert] *)
  | TypeError        (* unhashable or non-iterable value *)
  | ValueError       (* rejected by a library check *)
  | KeyError         (* a column the frame does not have *)
  | Unmodelled.      (* a cell type the model does not follow pandas on *)

Inductive result (A : Type) :=
  | Ok (a : A)
  | Raise (e : exn).
Arguments Ok {A} a.
Arguments Raise {A} e.

(** Sequencing: an exception ends the computation. Written [x ← r; k]. *)
#[export] Instance result_ret : MRet result := fun A a => Ok a.
#[export] Instance result_bind : MBind result := fun A B k r =>
  match r with
  | Ok a => k a
  | Raise e => Raise e
  end.

(** ** Name normalizer *)

Module Normalizer.
Local Open Scope N_scope.

(** Code points for which [str.isspace] holds; the class [\s] of a [str]
    pattern, [str.split()] and [str.strip()] all use this set. *)
Definition is_space (c : N) : bool :=
  ((9 <=? c) && (c <=? 13)) || ((28 <=? c) && (c <=? 32))
  || (c =? 133) || (c =? 160) || (c =? 5760)
  || ((8192 <=? c) && (c <=? 8202))
  || (c =? 8232) || (c =? 8233) || (c =? 8239) || (c =? 8287) || (c =? 12288).

(** The class [[a-z0-9]]. *)
Definition is_az09 (c : N) : bool :=
  ((97 <=? c) && (c <=? 122)) || ((48 <=? c) && (c <=? 57)).

Definition SPACE : N := 32.

(** [re.sub(r"[^a-z0-9\s]", "", name)] *)
Definition sub_non_alnum (name : str) : str :=
  List.filter (fun c => is_az09 c || is_space c) name.

(** [re.sub(r"\s+", " ", name)]: every maximal run of whitespace becomes one
    space. [in_run] tells that the previous character was whitespace. *)
Fixpoint sub_ws_runs_from (in_run : bool) (name : str) : str :=
  match name with
  | [] => []
  | c :: rest =>
      if is_space c
      then (if in_run then sub_ws_runs_from true rest
            else SPACE :: sub_ws_runs_from true rest)
      else c :: sub_ws_runs_from false rest
  end.

Definition sub_ws_runs (name : str) : str := sub_ws_runs_from false name.

Fixpoint lstrip (s : str) : str :=
  match s with
  | [] => []
  | c :: rest => if is_space c then lstrip rest else s
  end.

Fixpoint rstrip (s : str) : str :=
  match s with
  | [] => []
  | c :: rest =>
      match rstrip rest with
      | [] => if is_space c then [] else [c]
      | kept => c :: kept
      end
  end.

(** [str.strip()] *)
Definition strip (s : str) : str := rstrip (lstrip s).

(** [str.split()] with no argument: the maximal runs of non-whitespace. *)
Fixpoint split (s : str) : list str :=
  match s with
  | [] => []
  | c :: rest =>
      if is_space c then split rest
      else match rest with
           | [] => [[c]]
           | c' :: _ =>
               if is_space c' then [c] :: split rest
               else match split rest with
                    | t :: ts => (c :: t) :: ts
                    | [] => [[c]]
                    end
           end
  end.

(** [sep.join(tokens)] *)
Fixpoint join (sep : str) (tokens : list str) : str :=
  match tokens with
  | [] => []
  | t :: ts =>
      match ts with
      | [] => t
      | _ :: _ => t ++ sep ++ join sep ts
      end
  end.

(** [DUTCH_PARTICLES], a set literal of the source. *)
Definition DUTCH_PARTICLES : list str :=
  [u "van"; u "de"; u "den"; u "der"; u "ten"; u "ter"; u "van de"; u "van den"].

Section WithUnicodeTables.

(** [str.lower] and [unicodedata.normalize("NFKD", _)] are driven by the
    Unicode character database of the interpreter. *)
Variable lower : str -> str.
Variable nfkd : str -> str.

Definition normalize_name (name : str) : str :=
  let name := lower name in
  let name := nfkd name in
  let name := sub_non_alnum name in
  let name := strip (sub_ws_runs name) in
  name.

Definition normalize_dutch_name (name : str) : str :=
  let normalized := normalize_name name in
  let tokens :=
    List.filter (fun t => negb (bool_decide (t ∈ DUTCH_PARTICLES))) (split normalized) in
  join (u " ") tokens.

End WithUnicodeTables.

(** The two tables on ASCII text: [lower] maps [A-Z] to [a-z] and NFKD
    changes nothing. They serve to run the normalizers on ASCII names. *)
Definition ascii_lower (s : str) : str :=
  map (fun c => if (65 <=? c) && (c <=? 90) then c + 32 else c) s.

Definition ascii_nfkd (s : str) : str := s.

(** *** Notions used to state the properties of the normalizers *)

(** A string in normal form: whitespace is the ASCII space only, and no
    space follows whitespace ([after_ws] tells what precedes the string). *)
Fixpoint tidy (after_ws : bool) (s : str) : bool :=
  match s with
  | [] => true
  | c :: rest =>
      if is_space c then negb after_ws && (c =? SPACE) && tidy true rest
      else tidy false rest
  end.

Definition plain (c : N) : bool := is_az09 c || (c =? SPACE).

(** [lstrip] leaves a string that does not start with whitespace alone. *)
Definition starts_clean (s : str) : Prop :=
  match s with [] => True | c :: _ => is_space c = false end.

(** A token: non-empty and free of whitespace. *)
Definition token (t : str) : Prop := t <> [] /\ Forall (fun c => is_space c = false) t.

(** [needle] occurs as a run of consecutive tokens of [tokens]. *)
Definition occurs_in (needle tokens : list str) : Prop :=
  exists before after, tokens = before ++ needle ++ after.

End Normalizer.

(** ** Similarity matrix builder *)

Module Similarity.
Import Normalizer.

(** A numpy matrix of floats, as the list of its rows. Scores and
    distances are taken as exact rationals. *)
Abbreviation matrix := (list (list Q)).

(** [np.zeros((n, m))] *)
Definition zeros (n m : nat) : matrix := replicate n (replicate m 0%Q).

(** [mat[i, j]] *)
Definition getcell (mat : matrix) (i j : nat) : option Q :=
  row ← mat !! i; row !! j.

(** [mat[i, j] = v], for [i] and [j] within the shape *)
Definition setcell (i j : nat) (v : Q) (mat : matrix) : matrix :=
  alter (fun row => <[j := v]> row) i mat.

(** Computations of the builder: they may raise, and they record the
    arguments of every call to the scorer, in order. *)
Definition M (A : Type) : Type := list (str * str) -> list (str * str) * result A.

#[export] Instance M_ret : MRet M := fun A a calls => (calls, Ok a).
#[export] Instance M_bind : MBind M := fun A B k m calls =>
  match m calls with
  | (calls', Ok a) => k a calls'
  | (calls', Raise e) => (calls', Raise e)
  end.

(** [for x in xs: s = body(x, s)] *)
Fixpoint for_each {S : Type} (xs : list nat) (body : nat -> S -> M S) (s : S) : M S :=
  match xs with
  | [] => mret s
  | x :: rest => s' ← body x s; for_each rest body s'
  end.

(** [range(a, b)] *)
Definition range (a b : nat) : list nat := seq a (b - a).

Section WithScorer.

Variable lower : str -> str.
Variable nfkd : str -> str.

(** [rapidfuzz.fuzz.partial_ratio], an external scorer. *)
Variable partial_ratio : str -> str -> Q.

(** [normalize_dutch_name(names[i])] on an item of any type: its first
    statement, [name.lower()], raises unless the item is a [str]. *)
Definition normalize_dutch_name_at (names : list pyval) (i : nat) : M str :=
  fun calls =>
    match names !! i with
    | Some (PStr s) => (calls, Ok (normalize_dutch_name lower nfkd s))
    | _ => (calls, Raise AttributeError)
    end.

Definition call_partial_ratio (a b : str) : M Q :=
  fun calls => (calls ++ [(a, b)], Ok (partial_ratio a b)).

(** The body of the inner loop: one pair [(i, j)]. *)
Definition score_pair (names : list pyval) (i j : nat) (sim_matrix : matrix) : M matrix :=
  a ← normalize_dutch_name_at names i;
  b ← normalize_dutch_name_at names j;
  score ← call_partial_ratio a b;
  mret (setcell j i score (setcell i j score sim_matrix)).

Definition compute_similarity_matrix (names : list pyval) : M matrix :=
  let n := length names in
  let sim_matrix := zeros n n in
  for_each (range 0 n) (fun i sim_matrix =>
    for_each (range (i + 1) n) (fun j sim_matrix =>
      a ← normalize_dutch_name_at names i;
      b ← normalize_dutch_name_at names j;
      score ← call_partial_ratio a b;
      mret (setcell j i score (setcell i j score sim_matrix)))
    sim_matrix)
  sim_matrix.

End WithScorer.

(** A scorer to run examples with: 100 on equal strings, 0 otherwise. *)
Definition exact_ratio (a b : str) : Q :=
  if bool_decide (a = b) then 100%Q else 0%Q.

(** *** Notions used to state the properties of the builder *)

(** The shape [(n, n)]. *)
Definition square (n : nat) (mat : matrix) : Prop :=
  length mat = n /\ Forall (fun row => length row = n) mat.

(** What the builder maintains: symmetric, entries in [0,100], zero diagonal. *)
Definition sim_invariant (n : nat) (mat : matrix) : Prop :=
  square n mat
  /\ (forall i j, getcell mat i j = getcell mat j i)
  /\ (forall i j x, getcell mat i j = Some x -> (0 <= x)%Q /\ (x <= 100)%Q)
  /\ (forall i x, getcell mat i i = Some x -> x = 0%Q).

(** The scorer calls made before the first item that is not a string is
    reached: the first name against each later one. *)
Definition calls_before (normalize : str -> str) (strings : list str) : list (str * str) :=
  match strings with
  | [] => []
  | first :: others => (fun other => (normalize first, normalize other)) <$> others
  end.

Definition is_string (v : pyval) : bool :=
  match v with PStr _ => true | _ => false end.

(** Every name against every later name, in order. *)
Fixpoint expected_calls (normalize : str -> str) (names : list str) : list (str * str) :=
  match names with
  | [] => []
  | a :: rest => ((fun b => (normalize a, normalize b)) <$> rest) ++ expected_calls normalize rest
  end.

(** The scorer calls of row [i]: the name against the later ones. *)
Definition calls_of_row (normalize : str -> str) (names : list str) (i : nat)
    : list (str * str) :=
  match names !! i with
  | Some a => (fun b => (normalize a, normalize b)) <$> drop (S i) names
  | None => []
  end.

(** The matrix once rows [< i] and the first [c] pairs of row [i] are done. *)
Definition filled_upto (score : str -> str -> Q) (normalize : str -> str)
    (names : list str) (i c : nat) (mat : matrix) : Prop :=
  square (length names) mat
  /\ forall a b x y, names !! a = Some x -> names !! b = Some y ->
       getcell mat a b
       = Some (if decide (a <> b /\ (Nat.min a b < i
                                      \/ (Nat.min a b = i /\ Nat.max a b < i + 1 + c)))
               then (if a <? b then score (normalize x) (normalize y)
                     else score (normalize y) (normalize x))
               else 0%Q).

End Similarity.

(** ** Hierarchical clusterer *)

Module Clusterer.
Import Similarity.

(** The merge tree that [scipy.cluster.hierarchy.linkage] returns: leaves
    are observation indices, and every merge records its distance. *)
Inductive dendrogram :=
  | Leaf (i : nat)
  | Node (height : Q) (left right : dendrogram).

Fixpoint leaves (d : dendrogram) : list nat :=
  match d with
  | Leaf i => [i]
  | Node _ l r => leaves l ++ leaves r
  end.

(** [1 - (sim_matrix / 100.0)], in exact rationals: the rounding of the
    floating-point division and subtraction is not modelled. *)
Definition to_distance (sim_matrix : matrix) : matrix :=
  map (map (fun s => 1 - s / 100)%Q) sim_matrix.

(** [np.fill_diagonal(mat, v)] *)
Definition fill_diagonal (v : Q) (mat : matrix) : matrix :=
  imap (fun i row => <[i := v]> row) mat.

(** The check [squareform] runs on a square matrix: symmetric, with a zero
    diagonal. *)
Definition is_valid_dm (mat : matrix) : bool :=
  let d := length mat in
  forallb (fun i =>
    forallb (fun j =>
      match getcell mat i j, getcell mat j i with
      | Some x, Some y => Qeq_bool x y
      | _, _ => false
      end) (seq 0 d)) (seq 0 d)
  && forallb (fun i =>
       match getcell mat i i with
       | Some x => Qeq_bool x 0
       | None => false
       end) (seq 0 d).

(** [scipy.spatial.distance.squareform] on a matrix: the entries above the
    diagonal, row by row; no entry at all when there are fewer than two rows. *)
Definition squareform (mat : matrix) : result (list Q) :=
  let d := length mat in
  if negb (forallb (fun row => length row =? d) mat) then Raise ValueError
  else if negb (is_valid_dm mat) then Raise ValueError
  else if d <=? 1 then Ok []
  else Ok (concat (imap (fun i row => drop (S i) row) mat)).

(** *** Cutting the tree: [fcluster(Z, t, criterion="distance")] *)

Definition Qmax_with (x : Q) (o : option Q) : Q :=
  match o with
  | Some y => if Qle_bool x y then y else x
  | None => x
  end.

(** The largest merge distance inside a cluster; a leaf has none. *)
Fixpoint max_dist (d : dendrogram) : option Q :=
  match d with
  | Leaf _ => None
  | Node h l r => Some (Qmax_with (Qmax_with h (max_dist l)) (max_dist r))
  end.

(** The tree has at least one merge and uses every observation once. *)
Definition is_valid_linkage (d : dendrogram) : bool :=
  match d with
  | Leaf _ => false
  | Node _ _ _ =>
      bool_decide (NoDup (leaves d))
      && forallb (fun i => i <? length (leaves d)) (leaves d)
  end.

(** Labelling of one leaf: the running cluster number when the leaf lies
    in a cluster already opened, a fresh number otherwise. *)
Definition label_leaf (in_cluster : bool) (i : nat) (st : nat * list nat) : nat * list nat :=
  let n_cluster := if in_cluster then st.1 else S st.1 in
  (n_cluster, <[i := n_cluster]> st.2).

(** The traversal from the root: the first node on the way down whose
    largest merge distance is within the cutoff opens a cluster for all
    its leaves. At a node the sub-trees are visited first, left then
    right, and the leaf children are labelled afterwards. The state is the
    cluster counter and the label array [T]. *)
Fixpoint cluster_monocrit (cutoff : Q) (in_cluster : bool) (d : dendrogram)
    (st : nat * list nat) : nat * list nat :=
  match d with
  | Leaf _ => st
  | Node h l r =>
      let found :=
        negb in_cluster && Qle_bool (Qmax_with (Qmax_with h (max_dist l)) (max_dist r)) cutoff in
      let inside := in_cluster || found in
      let st := (if found then S st.1 else st.1, st.2) in
      let st := match l with
                | Node _ _ _ => cluster_monocrit cutoff inside l st
                | Leaf _ => st
                end in
      let st := match r with
                | Node _ _ _ => cluster_monocrit cutoff inside r st
                | Leaf _ => st
                end in
      let st := match l with
                | Leaf i => label_leaf inside i st
                | Node _ _ _ => st
                end in
      let st := match r with
                | Leaf i => label_leaf inside i st
                | Node _ _ _ => st
                end in
      st
  end.

Definition fcluster (Z : dendrogram) (t : Q) : result (list nat) :=
  if is_valid_linkage Z
  then
    let n := length (leaves Z) in
    Ok (cluster_monocrit t false Z (0, replicate n 0)).2
  else Raise ValueError.

Section WithLinkage.

(** [scipy.cluster.hierarchy.linkage(_, method="average")], an external
    routine, from the condensed distances to the merge tree. *)
Variable linkage : list Q -> result dendrogram.

Definition hierarchical_clustering (sim_matrix : matrix) (distance_threshold : Q)
    : result (list nat * dendrogram) :=
  let dist_matrix := to_distance sim_matrix in
  let dist_matrix := fill_diagonal 0 dist_matrix in
  condensed_dist ← squareform dist_matrix;
  linkage_matrix ← linkage condensed_dist;
  cluster_ids ← fcluster linkage_matrix distance_threshold;
  Ok (cluster_ids, linkage_matrix).

End WithLinkage.

(** *** Average linkage

    A direct rendering of what the library routine is documented to do:
    it rejects an empty condensed list and a list whose length is not a
    number of pairs, and otherwise merges, n-1 times, the two clusters at
    the least average pairwise distance (the first such pair when several
    are at the same distance; the library may pick another one). It is
    used to run the clusterer on inputs without such ties; the properties of
    the clusterer below hold for every [linkage]. *)

(** The number of observations [n] with [n * (n - 1) / 2 = len]. *)
Definition num_obs_y (len : nat) : option nat :=
  List.find (fun n => n * (n - 1) / 2 =? len) (seq 2 (S len)).

(** Distance of observations [i] and [j] in the condensed list [y]. *)
Definition pdist (y : list Q) (n i j : nat) : Q :=
  if i =? j then 0%Q
  else
    let a := Nat.min i j in
    let b := Nat.max i j in
    nth (a * n - a * (a + 1) / 2 + (b - a - 1)) y 0%Q.

Definition Qsum (l : list Q) : Q := foldr Qplus 0%Q l.

Definition average_dist (y : list Q) (n : nat) (A B : list nat) : Q :=
  Qred (Qsum (a ← A; b ← B; [pdist y n a b])
        / inject_Z (Z.of_nat (length A * length B))).

(** The pair of positions [(p, q)], [p < q], at the least distance. *)
Definition closest_pair (y : list Q) (n : nat) (active : list (dendrogram * list nat))
    : option (nat * nat * Q) :=
  let k := length active in
  foldl (fun best pq =>
           match active !! pq.1, active !! pq.2 with
           | Some A, Some B =>
               let h := average_dist y n A.2 B.2 in
               match best with
               | Some (_, _, h') => if Qle_bool h' h then best else Some (pq.1, pq.2, h)
               | None => Some (pq.1, pq.2, h)
               end
           | _, _ => best
           end)
        None
        (p ← seq 0 k; q ← seq (S p) (k - S p); [(p, q)]).

Fixpoint merge_all (y : list Q) (n : nat) (steps : nat)
    (active : list (dendrogram * list nat)) : list (dendrogram * list nat) :=
  match steps with
  | O => active
  | S steps' =>
      match closest_pair y n active with
      | Some (p, q, h) =>
          match active !! p, active !! q with
          | Some A, Some B =>
              merge_all y n steps'
                (delete p (delete q active) ++ [(Node h A.1 B.1, A.2 ++ B.2)])
          | _, _ => active
          end
      | None => active
      end
  end.

Definition linkage_average (y : list Q) : result dendrogram :=
  match y with
  | [] => Raise ValueError
  | _ :: _ =>
      match num_obs_y (length y) with
      | None => Raise ValueError
      | Some n =>
          match merge_all y n (n - 1) ((fun i => (Leaf i, [i])) <$> seq 0 n) with
          | [(Z, _)] => Ok Z
          | _ => Raise ValueError
          end
      end
  end.

(** Similarities of three names, the first two close to each other. *)
Definition example_sim : matrix :=
  [[0; 90; 20]; [90; 0; 30]; [20; 30; 0]]%Q.

(** Its merge tree under average linkage. *)
Definition example_tree : dendrogram :=
  Node (3 # 4) (Leaf 2) (Node (1 # 10) (Leaf 0) (Leaf 1)).

(** *** Notions used to state the properties of the clusterer *)

(** The flat clusters of a cut, read off the tree: two leaves lie in one
    cluster when some node above both has all its merges within the cutoff. *)
Fixpoint same_cluster (cutoff : Q) (d : dendrogram) (i j : nat) : Prop :=
  match d with
  | Leaf k => i = k /\ j = k
  | Node h l r =>
      if Qle_bool (Qmax_with (Qmax_with h (max_dist l)) (max_dist r)) cutoff
      then i ∈ leaves d /\ j ∈ leaves d
      else same_cluster cutoff l i j \/ same_cluster cutoff r i j
  end.

(** One child of a node, whichever its kind. *)
Definition process (cutoff : Q) (inside : bool) (d : dendrogram) (st : nat * list nat)
    : nat * list nat :=
  match d with
  | Leaf i => label_leaf inside i st
  | Node _ _ _ => cluster_monocrit cutoff inside d st
  end.

(** All of [L] carries the label [x]; the rest of the array is untouched. *)
Definition painted (L : list nat) (x : nat) (T T' : list nat) : Prop :=
  length T' = length T
  /\ forall k, T' !! k = if decide (k ∈ L) then Some x else T !! k.

(** The leaves of [d] carry fresh labels that tell its clusters apart. *)
Definition labelled (cutoff : Q) (d : dendrogram) (nc : nat) (T : list nat)
    (nc' : nat) (T' : list nat) : Prop :=
  length T' = length T
  /\ nc <= nc'
  /\ (forall k, k ∉ leaves d -> T' !! k = T !! k)
  /\ (forall k, k ∈ leaves d -> exists x, T' !! k = Some x /\ nc < x <= nc')
  /\ (forall i j, i ∈ leaves d -> j ∈ leaves d ->
        (T' !! i = T' !! j <-> same_cluster cutoff d i j)).

Definition distance_of (s : Q) : Q := (1 - s / 100)%Q.

(** The merge distances of a tree. *)
Fixpoint heights (d : dendrogram) : list Q :=
  match d with
  | Leaf _ => []
  | Node h l r => h :: heights l ++ heights r
  end.

End Clusterer.

(** ** Data frames, representatives and attribute conflicts *)

Module Frame.

(** An entity record: attribute name to value. *)
Abbreviation record := (gmap string pyval).

(** A data frame with the default index: the records in input order, and
    the column labels in order. *)
Record DataFrame := {
  columns : list string;
  rows : list record
}.

(** The cell of a record under a column; an absent attribute is a null. *)
Definition cell (r : record) (col : string) : pyval := default PNone (r !! col).

(** [df[col]]: the column as the list of its cells. *)
Definition getcol (df : DataFrame) (col : string) : result (list pyval) :=
  if bool_decide (col ∈ columns df) then Ok ((fun r => cell r col) <$> rows df)
  else Raise KeyError.

(** Keys of [groupby]: the cluster column holds the integers written from
    the clusterer's output; rows with a null key are dropped; a list is
    unhashable; grouping by strings is not modelled. *)
Definition group_key (v : pyval) : result (option Z) :=
  match v with
  | PInt z => Ok (Some z)
  | PNone => Ok None
  | PList _ => Raise TypeError
  | PStr _ => Raise Unmodelled
  end.

(** [mapM] over a list, stopping at the first exception. *)
Fixpoint traverse {A B : Type} (f : A -> result B) (l : list A) : result (list B) :=
  match l with
  | [] => Ok []
  | x :: rest => y ← f x; ys ← traverse f rest; Ok (y :: ys)
  end.

(** Insertion into a strictly ascending list of keys. *)
Fixpoint insert_key (k : Z) (keys : list Z) : list Z :=
  match keys with
  | [] => [k]
  | x :: rest =>
      if (k <? x)%Z then k :: keys
      else if (k =? x)%Z then keys
      else x :: insert_key k rest
  end.

(** The distinct keys in ascending order ([groupby] sorts its groups). *)
Definition sorted_keys (keys : list (option Z)) : list Z :=
  foldr (fun k acc => match k with Some z => insert_key z acc | None => acc end) [] keys.

(** A group: the rows of one key with their index labels, in input order. *)
Abbreviation group := (list (nat * record)).

Definition rows_of_key (keys : list (option Z)) (rs : list record) (k : Z) : group :=
  omap (fun '(i, key, r) => if bool_decide (key = Some k) then Some (i, r) else None)
       (zip (zip (seq 0 (length rs)) keys) rs).

(** [df.groupby(cluster_col)], as the list it iterates over. *)
Definition groupby (df : DataFrame) (cluster_col : string) : result (list (Z * group)) :=
  cells ← getcol df cluster_col;
  keys ← traverse group_key cells;
  Ok ((fun k => (k, rows_of_key keys (rows df) k)) <$> sorted_keys keys).

(** *** Representative selector *)

(** [astype(int)] on one cell of the cluster column. *)
Definition astype_int (v : pyval) : result Z :=
  match v with
  | PInt z => Ok z
  | PNone => Raise ValueError
  | PList _ => Raise TypeError
  | PStr _ => Raise Unmodelled
  end.

(** [.str.len()] on one cell: the number of code points of a string, NaN
    for a null. *)
Definition str_len (v : pyval) : result (option nat) :=
  match v with
  | PStr s => Ok (Some (length s))
  | PNone => Ok None
  | PInt _ | PList _ => Raise Unmodelled
  end.

(** [idxmax()]: the index label of the first occurrence of the maximum,
    NaN being skipped; [best] is the candidate so far. *)
Fixpoint idxmax_from (best : option (nat * nat)) (lens : list (nat * option nat))
    : option (nat * nat) :=
  match lens with
  | [] => best
  | (i, None) :: rest => idxmax_from best rest
  | (i, Some n) :: rest =>
      match best with
      | Some (_, m) => if m <? n then idxmax_from (Some (i, n)) rest else idxmax_from best rest
      | None => idxmax_from (Some (i, n)) rest
      end
  end.

Definition idxmax (lens : list (nat * option nat)) : result nat :=
  match idxmax_from None lens with
  | Some (i, _) => Ok i
  | None => Raise ValueError
  end.

(** [series.loc[label]] on a group *)
Definition loc (g : group) (col : string) (label : nat) : result pyval :=
  match List.find (fun ir => ir.1 =? label) g with
  | Some (_, r) => Ok (cell r col)
  | None => Raise KeyError
  end.

(** The representative of one group: the longest value of [col_name]. *)
Definition representative (g : group) (col_name : string) : result pyval :=
  lens ← traverse (fun ir => n ← str_len (cell ir.2 col_name); Ok (ir.1, n)) g;
  label ← idxmax lens;
  loc g col_name label.

(** The loop over the groups, filling the dict [cluster_reps]. *)
Fixpoint representatives (groups : list (Z * group)) (col_name : string)
    (cluster_reps : gmap Z pyval) : result (gmap Z pyval) :=
  match groups with
  | [] => Ok cluster_reps
  | (cid, g) :: rest =>
      rep ← representative g col_name;
      representatives rest col_name (<[cid := rep]> cluster_reps)
  end.

(** [df[col] = values]: a new column goes last. *)
Definition setcol (df : DataFrame) (col : string) (values : list pyval) : DataFrame :=
  {| columns := if bool_decide (col ∈ columns df) then columns df else columns df ++ [col];
     rows := zip_with (fun r v => <[col := v]> r) (rows df) values |}.

(** [find_representative], up to the lines it prints. The loop reads
    [group[col_name]] for every group; the lookup is made once, before the
    loop, which differs from the code only on a frame without rows. *)
Definition find_representative (df : DataFrame) (col_name cluster_col : string)
    : result DataFrame :=
  cells ← getcol df cluster_col;
  ids ← traverse astype_int cells;
  let df := setcol df cluster_col (PInt <$> ids) in
  _ ← getcol df col_name;
  groups ← groupby df cluster_col;
  cluster_reps ← representatives groups col_name ∅;
  Ok (setcol df "cluster_rep"
          ((fun cid => default PNone (cluster_reps !! cid)) <$> ids)).

(** *** Attribute conflict validator *)

Inductive payload :=
  | Scalars (values : list pyval)       (* [list(unique_values)] *)
  | Sets (lists : list (gset str)).     (* one entry per record, up to the order in it *)

Record conflict := {
  cluster_id : Z;
  attribute : string;
  conflicting_values : payload
}.

(** The argument [filter_cols]: a list, a single label or the default. *)
Inductive filter_arg :=
  | FilterList (cols : list string)
  | FilterOne (col : string)
  | FilterNone.

(** [if not isinstance(filter_cols, list): filter_cols = [filter_cols]];
    the wrapped [None] equals no column label. *)
Definition as_list (filter_cols : filter_arg) : list string :=
  match filter_cols with
  | FilterList cols => cols
  | FilterOne col => [col]
  | FilterNone => []
  end.

(** [.dropna()] *)
Definition dropna (values : list pyval) : list pyval :=
  List.filter (fun v => negb (bool_decide (v = PNone))) values.

(** [set(val)]: the items of a list, the characters of a string. *)
Definition set_of (v : pyval) : result (gset str) :=
  match v with
  | PList l => Ok (list_to_set l)
  | PStr s => Ok (list_to_set ((fun c => [c]) <$> s))
  | PInt _ | PNone => Raise TypeError
  end.

(** The intersection of all the sets of [lists]; the empty set when
    [lists] is empty. *)
Definition intersection_all (lists : list (gset str)) : gset str :=
  match lists with
  | [] => ∅
  | first :: others => foldl (∩) first others
  end.

Fixpoint distinct (values : list pyval) : list pyval :=
  match values with
  | [] => []
  | v :: rest => v :: List.filter (fun w => negb (bool_decide (w = v))) (distinct rest)
  end.

(** [.unique()]: the distinct values in order of first appearance; a list
    is unhashable. *)
Definition unique (values : list pyval) : result (list pyval) :=
  if existsb (fun v => match v with PList _ => true | _ => false end) values
  then Raise TypeError
  else Ok (distinct values).

(** The body of the inner loop, for one group and one column. *)
Definition check_column (cid : Z) (g : group) (list_columns filter_cols : list string)
    (col : string) (conflict_records : list conflict) : result (list conflict) :=
  if negb (bool_decide (col ∈ filter_cols)) then Ok conflict_records
  else
    let non_null_values := dropna ((fun ir => cell ir.2 col) <$> g) in
    match non_null_values with
    | [] => Ok conflict_records
    | _ :: _ =>
        if bool_decide (col ∈ list_columns) then
          lists ← traverse set_of non_null_values;
          let common_elements := intersection_all lists in
          if bool_decide (common_elements = ∅)
          then Ok (conflict_records ++
                     [{| cluster_id := cid; attribute := col;
                         conflicting_values := Sets lists |}])
          else Ok conflict_records
        else
          unique_values ← unique non_null_values;
          if 1 <? length unique_values
          then Ok (conflict_records ++
                     [{| cluster_id := cid; attribute := col;
                         conflicting_values := Scalars unique_values |}])
          else Ok conflict_records
    end.

(** [for x in xs: acc = body(x, acc)], stopping at the first exception. *)
Fixpoint for_in {A S : Type} (xs : list A) (body : A -> S -> result S) (acc : S) : result S :=
  match xs with
  | [] => Ok acc
  | x :: rest => acc' ← body x acc; for_in rest body acc'
  end.

Definition validate_cluster_attributes (df : DataFrame) (cluster_col : string)
    (list_columns : list string) (filter_cols : filter_arg) : result (list conflict) :=
  let filter_cols := as_list filter_cols in
  if bool_decide ("name" ∈ filter_cols) then Raise AssertionError
  else
    groups ← groupby df cluster_col;
    for_in groups (fun '(cluster_id, g) conflict_records =>
      for_in (columns df) (check_column cluster_id g list_columns filter_cols)
        conflict_records)
    [].

(** *** Example frames *)

Definition person (cid : Z) (name : string) (nationality occupation : pyval) : record :=
  {[ "canonical_name"%string := PStr (u name);
     "cluster_id"%string := PInt cid;
     "nationality"%string := nationality;
     "occupation"%string := occupation ]}.

(** Two clusters; the second one appears first in the input. *)
Definition example_people : DataFrame :=
  {| columns := ["canonical_name"; "cluster_id"; "nationality"; "occupation"]%string;
     rows :=
       [ person 2 "Jan" (PStr (u "Dutch")) (PList [u "teacher"]);
         person 1 "Anna de Vries" (PStr (u "Dutch")) (PList [u "teacher"]);
         person 2 "Jan van der Berg" (PStr (u "Belgian")) (PList [u "mayor"]);
         person 1 "Anna" PNone (PList [u "teacher"; u "mayor"]);
         person 2 "J. van der Berg" PNone PNone ] |}.

Definition Dutch_Belgian : payload := Scalars [PStr (u "Dutch"); PStr (u "Belgian")].

(** Two clusters that disagree on two scalar attributes each. *)
Definition example_disagreeing : DataFrame :=
  {| columns := ["cluster_id"; "nationality"; "gender"]%string;
     rows :=
       [ {[ "cluster_id"%string := PInt 2; "nationality"%string := PStr (u "Dutch");
            "gender"%string := PStr (u "m") ]};
         {[ "cluster_id"%string := PInt 2; "nationality"%string := PStr (u "Belgian");
            "gender"%string := PStr (u "f") ]};
         {[ "cluster_id"%string := PInt 1; "nationality"%string := PStr (u "Dutch");
            "gender"%string := PStr (u "m") ]};
         {[ "cluster_id"%string := PInt 1; "nationality"%string := PStr (u "Belgian");
            "gender"%string := PStr (u "f") ]} ] |}.

Definition m_f : payload := Scalars [PStr (u "m"); PStr (u "f")].

(** The report of the validator on [example_disagreeing]. *)
Definition example_report : list conflict :=
  [ {| cluster_id := 1; attribute := "nationality"; conflicting_values := Dutch_Belgian |};
    {| cluster_id := 1; attribute := "gender"; conflicting_values := m_f |};
    {| cluster_id := 2; attribute := "nationality"; conflicting_values := Dutch_Belgian |};
    {| cluster_id := 2; attribute := "gender"; conflicting_values := m_f |} ].

(** *** Notions used to state the properties of the selector and the validator *)

(** Position of the first occurrence of [x] in [l]; [length l] when absent. *)
Fixpoint position {A : Type} `{EqDecision A} (x : A) (l : list A) : nat :=
  match l with
  | [] => 0
  | y :: rest => if decide (x = y) then 0 else S (position x rest)
  end.

(** Lexicographic order on (cluster rank, attribute rank). *)
Definition rank_lt (a b : Z * nat) : Prop :=
  (a.1 < b.1)%Z \/ (a.1 = b.1 /\ a.2 < b.2).

(** Every earlier conflict of the report ranks below every later one. *)
Definition reported_in_order (rank : conflict -> Z * nat) (report : list conflict) : Prop :=
  StronglySorted (fun c1 c2 => rank_lt (rank c1) (rank c2)) report.

(** The order of the code: ascending cluster id, then the frame's columns. *)
Definition frame_rank (df : DataFrame) (c : conflict) : Z * nat :=
  (cluster_id c, position (attribute c) (columns df)).

(** The order of first encounter: the row where the cluster id first
    appears, then the position in the attributes the caller supplied. *)
Definition supplied_rank (df : DataFrame) (cluster_col : string) (filter_cols : list string)
    (c : conflict) : Z * nat :=
  (Z.of_nat (position (PInt (cluster_id c)) ((fun r => cell r cluster_col) <$> rows df)),
   position (attribute c) filter_cols).

(** The conflict of one cluster and one column, on its own. *)
Definition column_block (cid : Z) (g : group) (list_columns filter_cols : list string)
    (col : string) : result (list conflict) :=
  check_column cid g list_columns filter_cols col [].

Definition group_block (cols list_columns filter_cols : list string) (kg : Z * group)
    : result (list conflict) :=
  blocks ← traverse (column_block kg.1 kg.2 list_columns filter_cols) cols;
  Ok (concat blocks).

(** Blocks lined up with their tags. *)
Definition tagged {A B : Type} (tag : B -> A) (xs : list A) (blocks : list (list B)) : Prop :=
  Forall2 (fun x blk => Forall (fun b => tag b = x) blk) xs blocks.

(** The records of one cluster, in input order, and their non-null values
    under a column. *)
Definition cluster_rows (df : DataFrame) (cluster_col : string) (cid : Z) : list record :=
  List.filter (fun r => bool_decide (cell r cluster_col = PInt cid)) (rows df).

Definition cluster_values (df : DataFrame) (cluster_col : string) (cid : Z) (col : string)
    : list pyval :=
  dropna ((fun r => cell r col) <$> cluster_rows df cluster_col cid).

(** The conflicts a report holds for one cluster and one attribute. *)
Definition reported_for (cid : Z) (col : string) (report : list conflict) : list conflict :=
  List.filter (fun c => bool_decide (cluster_id c = cid /\ attribute c = col)) report.

(** Character length of the name of a record. *)
Definition name_length (col_name : string) (r : record) : nat :=
  match cell r col_name with
  | PStr s => length s
  | _ => 0
  end.

(** [x] is the first entry of greatest length in [l]. *)
Definition first_longest {A} (len : A -> nat) (x : A) (l : list A) : Prop :=
  exists l1 l2, l = l1 ++ x :: l2
    /\ Forall (fun y => len y < len x) l1
    /\ Forall (fun y => len y <= len x) l2.

Definition by_label (a b : nat * record) : Prop := a.1 < b.1.

(** A payload that shows a disagreement: at least two distinct scalars, or
    sets without a common element. *)
Definition disagreeing (p : payload) : Prop :=
  match p with
  | Scalars values => 2 <= length values /\ NoDup values
  | Sets lists => lists <> [] /\ forall x, ~ Forall (fun s => x ∈ s) lists
  end.

End Frame.

(** ** The resolution pipeline *)

Module Pipeline.
Import Normalizer Similarity Clusterer Frame.

(** [save_clustered_data], up to the file it writes and the lines it
    prints: the cluster ids become the column [cluster_id] (a column of
    another length than the frame is refused), and the representatives are
    added. *)
Definition save_clustered_data (df : DataFrame) (cluster_ids : list nat) (col_name : string)
    : result DataFrame :=
  if negb (length cluster_ids =? length (rows df)) then Raise ValueError
  else
    let df := setcol df "cluster_id" ((fun id => PInt (Z.of_nat id)) <$> cluster_ids) in
    find_representative df col_name "cluster_id".

Section WithLibraries.

Variable linkage : list Q -> result dendrogram.
Variable lower : str -> str.
Variable nfkd : str -> str.
Variable partial_ratio : str -> str -> Q.

(** [group_entities] on the frame that [load_entity_data] has read; the
    dendrogram drawn at the end is left out. *)
Definition group_entities (df : DataFrame) (col_name : string) (clustering_threshold : Q)
    : result DataFrame :=
  names ← getcol df col_name;
  similarity_matrix ← (compute_similarity_matrix lower nfkd partial_ratio names []).2;
  clustering ← hierarchical_clustering linkage similarity_matrix clustering_threshold;
  save_clustered_data df clustering.1 col_name.

End WithLibraries.

(** Three names, two of them the same once normalized. *)
Definition example_names : DataFrame :=
  {| columns := ["canonical_name"%string];
     rows := [ {[ "canonical_name"%string := PStr (u "Jan van der Berg") ]};
               {[ "canonical_name"%string := PStr (u "Anna de Vries") ]};
               {[ "canonical_name"%string := PStr (u "jan berg") ]} ] |}.

End Pipeline.

(** * Properties *)

(** ** Name normalizer *)

Module NormalizerFacts.
Import Normalizer.
Local Open Scope N_scope.

Lemma is_space_SPACE : is_space SPACE = true.
Proof. reflexivity. Qed.

Lemma plain_keep c : plain c = true -> is_az09 c || is_space c = true.
Proof.
  unfold plain. intros H. apply orb_true_iff in H as [H | H].
  - now rewrite H.
  - apply N.eqb_eq in H. subst c. now rewrite is_space_SPACE, orb_true_r.
Qed.

Lemma az09_not_space c : is_az09 c = true -> is_space c = false.
Proof.
  unfold is_az09, is_space. intros H.
  repeat (apply orb_true_iff in H as [H|H] || apply andb_true_iff in H as [? ?]);
  repeat match goal with H : (_ <=? _) = true |- _ => apply N.leb_le in H end;
  repeat (apply orb_false_iff; split); try (apply andb_false_iff);
  try (apply N.eqb_neq; lia);
  try (left; apply N.leb_gt; lia); try (right; apply N.leb_gt; lia).
Qed.

Lemma sub_non_alnum_plain s : Forall (fun c => plain c = true) s -> sub_non_alnum s = s.
Proof.
  induction 1 as [|c s Hc Hs IH]; [reflexivity|].
  unfold sub_non_alnum in *. simpl. rewrite (plain_keep _ Hc). now rewrite IH.
Qed.

Lemma sub_ws_runs_from_tidy b s : tidy b s = true -> sub_ws_runs_from b s = s.
Proof.
  revert b. induction s as [|c s IH]; intros b H; [reflexivity|].
  simpl in *. destruct (is_space c).
  - apply andb_true_iff in H as [H H3]. apply andb_true_iff in H as [H1 H2].
    apply negb_true_iff in H1. subst b. apply N.eqb_eq in H2. subst c.
    now rewrite (IH true H3).
  - now rewrite (IH false H).
Qed.

Lemma tidy_sub_ws_runs_from b s : tidy b (sub_ws_runs_from b s) = true.
Proof.
  revert b. induction s as [|c s IH]; intros b; [reflexivity|].
  simpl. destruct (is_space c) eqn:E.
  - destruct b; [apply IH|]. simpl. change (is_space SPACE) with true. simpl. apply IH.
  - simpl. rewrite E. apply IH.
Qed.

Lemma tidy_weaken b s : tidy b s = true -> tidy false s = true.
Proof.
  destruct s as [|c s]; [reflexivity|]. simpl. destruct (is_space c); [|easy].
  destruct b; simpl; easy.
Qed.

Lemma tidy_lstrip b s : tidy b s = true -> tidy false (lstrip s) = true.
Proof.
  revert b. induction s as [|c s IH]; intros b H; [reflexivity|].
  simpl in *. destruct (is_space c) eqn:E.
  - apply andb_true_iff in H as [_ H]. eauto.
  - simpl. now rewrite E.
Qed.

Lemma tidy_rstrip b s : tidy b s = true -> tidy b (rstrip s) = true.
Proof.
  revert b. induction s as [|c s IH]; intros b H; [reflexivity|].
  simpl in *. destruct (rstrip s) as [|k ks] eqn:Er.
  - destruct (is_space c) eqn:E; [reflexivity|]. simpl. now rewrite E.
  - simpl. destruct (is_space c) eqn:E.
    + apply andb_true_iff in H as [H1 H2]. rewrite H1. simpl. apply (IH true H2).
    + apply (IH false H).
Qed.

Lemma Forall_lstrip (P : N -> Prop) s : Forall P s -> Forall P (lstrip s).
Proof.
  induction 1 as [|c s Hc Hs IH]; [constructor|].
  simpl. destruct (is_space c); [assumption|now constructor].
Qed.

Lemma Forall_rstrip (P : N -> Prop) s : Forall P s -> Forall P (rstrip s).
Proof.
  induction 1 as [|c s Hc Hs IH]; [constructor|].
  simpl. destruct (rstrip s).
  - destruct (is_space c); [constructor|now repeat constructor].
  - now constructor.
Qed.

Lemma Forall_sub_ws_runs_from b s :
  Forall (fun c => is_az09 c || is_space c = true) s ->
  Forall (fun c => plain c = true) (sub_ws_runs_from b s).
Proof.
  intros H. revert b. induction H as [|c s Hc Hs IH]; intros b; [constructor|].
  simpl. destruct (is_space c) eqn:E.
  - destruct b; [apply IH|]. constructor; [reflexivity|apply IH].
  - constructor; [|apply IH]. unfold plain. destruct (is_az09 c); [reflexivity|].
    simpl in Hc. congruence.
Qed.

Lemma Forall_sub_non_alnum s :
  Forall (fun c => is_az09 c || is_space c = true) (sub_non_alnum s).
Proof.
  unfold sub_non_alnum. apply List.Forall_forall. intros c Hc.
  now apply List.filter_In in Hc as [_ Hc].
Qed.

Lemma lstrip_starts_clean s : starts_clean (lstrip s).
Proof.
  induction s as [|c s IH]; [exact I|]. simpl. destruct (is_space c) eqn:E; [exact IH|exact E].
Qed.

Lemma lstrip_id s : starts_clean s -> lstrip s = s.
Proof. destruct s as [|c s]; [reflexivity|]. simpl. now intros ->. Qed.

Lemma rstrip_starts_clean s : starts_clean s -> starts_clean (rstrip s).
Proof.
  destruct s as [|c s]; [easy|]. simpl. intros E. destruct (rstrip s); [now rewrite E|exact E].
Qed.

Lemma rstrip_idem s : rstrip (rstrip s) = rstrip s.
Proof.
  induction s as [|c s IH]; [reflexivity|].
  simpl. destruct (rstrip s) as [|k ks] eqn:Er.
  - destruct (is_space c) eqn:E; [reflexivity|]. simpl. now rewrite E.
  - change (rstrip (c :: k :: ks)) with
      (match rstrip (k :: ks) with [] => if is_space c then [] else [c] | kept => c :: kept end).
    now rewrite IH.
Qed.

Lemma strip_idem s : strip (strip s) = strip s.
Proof.
  unfold strip.
  rewrite (lstrip_id (rstrip (lstrip s))) by (apply rstrip_starts_clean, lstrip_starts_clean).
  apply rstrip_idem.
Qed.

Lemma strip_fixed s : tidy false s = true -> strip (sub_ws_runs (strip s)) = strip s.
Proof.
  intros H. unfold sub_ws_runs. rewrite sub_ws_runs_from_tidy.
  - apply strip_idem.
  - unfold strip. apply tidy_rstrip. now apply tidy_lstrip with (b := false).
Qed.

Section Idempotence.
Variable lower : str -> str.
Variable nfkd : str -> str.
Hypothesis lower_plain : forall s, Forall (fun c => plain c = true) s -> lower s = s.
Hypothesis nfkd_plain : forall s, Forall (fun c => plain c = true) s -> nfkd s = s.

Lemma normalize_name_plain name :
  Forall (fun c => plain c = true) (normalize_name lower nfkd name).
Proof.
  unfold normalize_name, strip. apply Forall_rstrip, Forall_lstrip.
  apply Forall_sub_ws_runs_from, Forall_sub_non_alnum.
Qed.

(** C3. Normalization is idempotent: [normalize_name (normalize_name x) =
    normalize_name x], for Unicode tables that leave a string of ASCII
    lowercase letters, digits and spaces as it is. *)
Theorem normalize_name_idempotent name :
  normalize_name lower nfkd (normalize_name lower nfkd name) = normalize_name lower nfkd name.
Proof.
  pose proof (normalize_name_plain name) as Hp.
  unfold normalize_name at 1.
  rewrite (lower_plain _ Hp), (nfkd_plain _ Hp), (sub_non_alnum_plain _ Hp).
  unfold normalize_name. apply strip_fixed. apply tidy_sub_ws_runs_from.
Qed.
End Idempotence.

Lemma split_tokens s : Forall token (split s).
Proof.
  induction s as [|c s IH]; [constructor|].
  simpl. destruct (is_space c) eqn:E; [exact IH|].
  assert (Hc : token [c]) by (split; [discriminate|now repeat constructor]).
  destruct s as [|c' s']; [now repeat constructor|].
  destruct (is_space c'); [now constructor|].
  destruct (split (c' :: s')) as [|t ts]; [now repeat constructor|].
  inversion IH as [|? ? [Ht1 Ht2] Hts]; subst. constructor; [|assumption].
  split; [discriminate|now constructor].
Qed.

Lemma split_cons c rest :
  split (c :: rest) =
  if is_space c then split rest
  else match rest with
       | [] => [[c]]
       | c' :: _ =>
           if is_space c' then [c] :: split rest
           else match split rest with
                | t :: ts => (c :: t) :: ts
                | [] => [[c]]
                end
       end.
Proof. reflexivity. Qed.

Lemma split_token_then_space t rest :
  token t -> split (t ++ SPACE :: rest) = t :: split rest.
Proof.
  intros [Hne Hall]. induction Hall as [|c t Hc Ht IH]; [congruence|].
  destruct t as [|c2 t'].
  - simpl. rewrite Hc. reflexivity.
  - change ((c :: c2 :: t') ++ SPACE :: rest) with (c :: (c2 :: t') ++ SPACE :: rest).
    rewrite split_cons, Hc. cbn [app]. inversion Ht as [|? ? Hc2 _]; subst. rewrite Hc2.
    change (c2 :: t' ++ SPACE :: rest) with ((c2 :: t') ++ SPACE :: rest).
    rewrite IH by discriminate. reflexivity.
Qed.

Lemma split_token t : token t -> split t = [t].
Proof.
  intros [Hne Hall]. induction Hall as [|c t Hc Ht IH]; [congruence|].
  destruct t as [|c2 t'].
  - simpl. now rewrite Hc.
  - rewrite split_cons, Hc. inversion Ht as [|? ? Hc2 _]; subst. rewrite Hc2.
    rewrite IH by discriminate. reflexivity.
Qed.

Lemma split_join tokens : Forall token tokens -> split (join (u " ") tokens) = tokens.
Proof.
  induction 1 as [|t ts Ht Hts IH]; [reflexivity|].
  destruct ts as [|t2 ts'].
  - simpl. now apply split_token.
  - change (join (u " ") (t :: t2 :: ts')) with (t ++ SPACE :: join (u " ") (t2 :: ts')).
    rewrite split_token_then_space by assumption. now rewrite IH.
Qed.

Lemma Forall_filter_keep {A} (P : A -> Prop) f (l : list A) :
  Forall P l -> Forall P (List.filter f l).
Proof.
  induction 1 as [|x l Hx Hl IH]; [constructor|].
  simpl. destruct (f x); [now constructor|assumption].
Qed.

Lemma dutch_tokens lower nfkd name :
  split (normalize_dutch_name lower nfkd name)
  = List.filter (fun t => negb (bool_decide (t ∈ DUTCH_PARTICLES)))
      (split (normalize_name lower nfkd name)).
Proof.
  unfold normalize_dutch_name. apply split_join, Forall_filter_keep, split_tokens.
Qed.

(** Every entry of [DUTCH_PARTICLES] starts with a token that is itself an
    entry: the two-token entries start with "van". *)
Lemma particle_head :
  Forall (fun p => exists t ts, split p = t :: ts /\ t ∈ DUTCH_PARTICLES) DUTCH_PARTICLES.
Proof.
  unfold DUTCH_PARTICLES.
  repeat (apply List.Forall_cons;
          [eexists _, _; split; [vm_compute; reflexivity|];
           refine (@bool_decide_unpack _ _ _); vm_compute; exact I|]).
  apply List.Forall_nil.
Qed.

(** C4. No entry of [DUTCH_PARTICLES] survives in the output of
    [normalize_dutch_name], neither as a token nor, for the two-token
    entries, as two consecutive tokens; "Jan van de Berg" and "Jan van den
    Berg" both become "jan berg". *)
Theorem dutch_particles_removed :
  (forall lower nfkd name,
     Forall (fun p => ~ occurs_in (split p) (split (normalize_dutch_name lower nfkd name)))
            DUTCH_PARTICLES)
  /\ normalize_dutch_name ascii_lower ascii_nfkd (u "Jan van de Berg") = u "jan berg"
  /\ normalize_dutch_name ascii_lower ascii_nfkd (u "Jan van den Berg") = u "jan berg".
Proof.
  split; [|split; reflexivity].
  intros lower nfkd name. rewrite dutch_tokens.
  eapply List.Forall_impl; [|exact particle_head].
  intros p (t & ts & Hsplit & Ht) (before & after & Hocc).
  rewrite Hsplit in Hocc.
  assert (Hin : In t (List.filter (fun t => negb (bool_decide (t ∈ DUTCH_PARTICLES)))
                        (split (normalize_name lower nfkd name)))).
  { rewrite Hocc. apply List.in_or_app. right. now left. }
  apply List.filter_In in Hin as [_ Hin].
  apply negb_true_iff, bool_decide_eq_false in Hin. contradiction.
Qed.

Lemma plain_not_upper c : plain c = true -> (65 <=? c) && (c <=? 90) = false.
Proof.
  unfold plain, is_az09, SPACE. intros H.
  apply andb_false_iff.
  destruct (N.leb_spec 65 c), (N.leb_spec c 90); auto. exfalso.
  repeat (apply orb_true_iff in H as [H|H] || apply andb_true_iff in H as [H ?]);
    repeat match goal with
           | H : (_ <=? _) = true |- _ => apply N.leb_le in H
           | H : (_ =? _) = true |- _ => apply N.eqb_eq in H
           end; lia.
Qed.

Lemma ascii_lower_plain s : Forall (fun c => plain c = true) s -> ascii_lower s = s.
Proof.
  induction 1 as [|c s Hc _ IH]; [reflexivity|].
  unfold ascii_lower in *. cbn [map]. now rewrite (plain_not_upper c Hc), IH.
Qed.

Lemma ascii_nfkd_plain s : Forall (fun c => plain c = true) s -> ascii_nfkd s = s.
Proof. reflexivity. Qed.

Lemma normalize_name_idempotent_witness :
  normalize_name ascii_lower ascii_nfkd
    (normalize_name ascii_lower ascii_nfkd (u "  Jan-Willem  DE Vries "))
  = normalize_name ascii_lower ascii_nfkd (u "  Jan-Willem  DE Vries ").
Proof.
  exact (normalize_name_idempotent ascii_lower ascii_nfkd ascii_lower_plain ascii_nfkd_plain
           (u "  Jan-Willem  DE Vries ")).
Defined.

Lemma tidy_no_double b s i c c' :
  tidy b s = true -> s !! i = Some c -> s !! S i = Some c' ->
  is_space c = true -> is_space c' = false.
Proof.
  revert b i. induction s as [|x s IH]; intros b i Ht Hc Hc' Hsp; [discriminate|].
  destruct i as [|i]; simpl in Hc, Hc'.
  - injection Hc as ->. simpl in Ht. rewrite Hsp in Ht.
    apply andb_true_iff in Ht as [_ Ht].
    destruct s as [|y s]; [discriminate|]. simpl in Hc'. injection Hc' as ->.
    simpl in Ht. destruct (is_space c'); [discriminate|reflexivity].
  - simpl in Ht. destruct (is_space x).
    + apply andb_true_iff in Ht as [_ Ht]. eapply IH; eauto.
    + eapply IH; eauto.
Qed.

Lemma rstrip_last s c : last (rstrip s) = Some c -> is_space c = false.
Proof.
  induction s as [|x s IH]; [discriminate|].
  simpl. destruct (rstrip s) as [|k ks].
  - destruct (is_space x) eqn:E; [discriminate|]. simpl. now intros [= <-].
  - intros H. apply IH. exact H.
Qed.

(** X1. The output of [normalize_name] is in normal form whatever the
    Unicode tables: only ASCII lowercase letters, digits and single spaces,
    with no space at either end. *)
Theorem normalize_name_normal_form (lower nfkd : str -> str) name :
  let out := normalize_name lower nfkd name in
  Forall (fun c => is_az09 c = true \/ c = SPACE) out
  /\ head out <> Some SPACE
  /\ last out <> Some SPACE
  /\ forall i, out !! i = Some SPACE -> out !! S i <> Some SPACE.
Proof.
  intros out.
  assert (Htidy : tidy false out = true).
  { unfold out, normalize_name, strip. apply tidy_rstrip, (tidy_lstrip false).
    apply tidy_sub_ws_runs_from. }
  split; [|split; [|split]].
  - assert (Hp : Forall (fun c => plain c = true) out).
    { unfold out, normalize_name, strip. apply Forall_rstrip, Forall_lstrip.
      apply Forall_sub_ws_runs_from, Forall_sub_non_alnum. }
    eapply List.Forall_impl; [|exact Hp]. intros c Hc. unfold plain in Hc.
    apply orb_true_iff in Hc as [Hc|Hc]; [now left|right; now apply N.eqb_eq].
  - assert (Hs : starts_clean out).
    { unfold out, normalize_name, strip. apply rstrip_starts_clean, lstrip_starts_clean. }
    destruct out as [|c rest]; [discriminate|]. simpl in *. intros [= ->]. discriminate.
  - intros H. unfold out, normalize_name, strip in H. apply rstrip_last in H. discriminate.
  - intros i Hi Hi'. pose proof (tidy_no_double false out i SPACE SPACE Htidy Hi Hi' eq_refl).
    discriminate.
Qed.

(** *** The localized normalizer on its own output *)

Lemma split_chars (P : N -> Prop) s : Forall P s -> Forall (Forall P) (split s).
Proof.
  induction 1 as [|c s Hc Hs IH]; [constructor|].
  rewrite split_cons. destruct (is_space c); [exact IH|].
  destruct s as [|c' s']; [repeat constructor; exact Hc|].
  destruct (is_space c'); [constructor; [repeat constructor; exact Hc|exact IH]|].
  destruct (split (c' :: s')) as [|t ts]; [repeat constructor; exact Hc|].
  inversion IH; subst. constructor; [now constructor|assumption].
Qed.

Lemma join_chars (P : N -> Prop) tokens :
  P SPACE -> Forall (Forall P) tokens -> Forall P (join (u " ") tokens).
Proof.
  intros Hsp. induction 1 as [|t ts Ht Hts IH]; [constructor|].
  destruct ts as [|t2 ts']; [exact Ht|].
  change (join (u " ") (t :: t2 :: ts')) with (t ++ SPACE :: join (u " ") (t2 :: ts')).
  apply Forall_app. split; [exact Ht|]. constructor; [exact Hsp|exact IH].
Qed.

Lemma tidy_token_app b t rest :
  token t -> tidy b (t ++ rest) = tidy false rest.
Proof.
  intros [Hne Hall]. revert b. induction Hall as [|c t Hc Ht IH]; intros b; [congruence|].
  simpl. rewrite Hc. destruct t as [|c2 t']; [reflexivity|]. apply IH. discriminate.
Qed.

Lemma tidy_join b tokens : Forall token tokens -> tidy b (join (u " ") tokens) = true.
Proof.
  intros H. revert b. induction H as [|t ts Ht Hts IH]; intros b; [reflexivity|].
  destruct ts as [|t2 ts'].
  - simpl. rewrite <- (app_nil_r t). now rewrite tidy_token_app.
  - change (join (u " ") (t :: t2 :: ts')) with (t ++ SPACE :: join (u " ") (t2 :: ts')).
    rewrite tidy_token_app by exact Ht.
    change (tidy false (SPACE :: ?r)) with (tidy true r). apply IH.
Qed.

Lemma rstrip_token t : token t -> rstrip t = t.
Proof.
  intros [Hne Hall]. induction Hall as [|c t Hc Ht IH]; [congruence|].
  simpl. destruct t as [|c2 t'].
  - simpl. now rewrite Hc.
  - rewrite IH by discriminate. reflexivity.
Qed.

Lemma rstrip_app_fixed a b : b <> [] -> rstrip b = b -> rstrip (a ++ b) = a ++ b.
Proof.
  intros Hne Hb. induction a as [|c a IH]; [exact Hb|].
  simpl. rewrite IH. destruct (a ++ b) eqn:E; [|reflexivity].
  apply app_eq_nil in E as [_ E]. congruence.
Qed.

Lemma rstrip_join tokens : Forall token tokens -> rstrip (join (u " ") tokens) = join (u " ") tokens.
Proof.
  induction 1 as [|t ts Ht Hts IH]; [reflexivity|].
  destruct ts as [|t2 ts'].
  - simpl. now apply rstrip_token.
  - replace (join (u " ") (t :: t2 :: ts')) with ((t ++ [SPACE]) ++ join (u " ") (t2 :: ts'))
      by (rewrite <- app_assoc; reflexivity).
    apply rstrip_app_fixed; [|exact IH].
    inversion Hts as [|? ? [Hne2 _] _]; subst.
    destruct ts' as [|t3 ts'']; simpl; [exact Hne2|]. destruct t2; [congruence|discriminate].
Qed.

Lemma starts_clean_join tokens : Forall token tokens -> starts_clean (join (u " ") tokens).
Proof.
  intros H. destruct H as [|t ts [Hne Hall] Hts]; [exact I|].
  destruct Hall as [|c t Hc Ht]; [congruence|].
  destruct ts; exact Hc.
Qed.

Lemma filter_twice {A} (f : A -> bool) l : List.filter f (List.filter f l) = List.filter f l.
Proof.
  induction l as [|x l IH]; [reflexivity|]. simpl. destruct (f x) eqn:E; [|exact IH].
  simpl. now rewrite E, IH.
Qed.

Section IdempotenceLocalized.
Variable lower : str -> str.
Variable nfkd : str -> str.
Hypothesis lower_plain : forall s, Forall (fun c => plain c = true) s -> lower s = s.
Hypothesis nfkd_plain : forall s, Forall (fun c => plain c = true) s -> nfkd s = s.

(** X2. The localized normalizer is idempotent as well: a name already
    stripped of its particles is returned unchanged. *)
Theorem normalize_dutch_name_idempotent name :
  normalize_dutch_name lower nfkd (normalize_dutch_name lower nfkd name)
  = normalize_dutch_name lower nfkd name.
Proof.
  set (keep := fun t : str => negb (bool_decide (t ∈ DUTCH_PARTICLES))).
  set (tokens := List.filter keep (split (normalize_name lower nfkd name))).
  assert (Hout : normalize_dutch_name lower nfkd name = join (u " ") tokens) by reflexivity.
  assert (Htok : Forall token tokens) by apply Forall_filter_keep, split_tokens.
  assert (Hplain : Forall (fun c => plain c = true) (join (u " ") tokens)).
  { apply join_chars; [reflexivity|]. apply Forall_filter_keep, split_chars.
    apply normalize_name_plain. }
  assert (Hfix : normalize_name lower nfkd (join (u " ") tokens) = join (u " ") tokens).
  { unfold normalize_name.
    rewrite (lower_plain _ Hplain), (nfkd_plain _ Hplain), (sub_non_alnum_plain _ Hplain).
    unfold sub_ws_runs. rewrite sub_ws_runs_from_tidy by now apply tidy_join.
    unfold strip. rewrite lstrip_id by now apply starts_clean_join.
    now apply rstrip_join. }
  rewrite Hout. unfold normalize_dutch_name at 1. rewrite Hfix.
  rewrite split_join by exact Htok. fold keep. unfold tokens at 1.
  now rewrite filter_twice.
Qed.
End IdempotenceLocalized.

Lemma normalize_dutch_name_idempotent_witness :
  normalize_dutch_name ascii_lower ascii_nfkd
    (normalize_dutch_name ascii_lower ascii_nfkd (u "Jan van der Berg"))
  = normalize_dutch_name ascii_lower ascii_nfkd (u "Jan van der Berg").
Proof.
  exact (normalize_dutch_name_idempotent ascii_lower ascii_nfkd ascii_lower_plain
           ascii_nfkd_plain (u "Jan van der Berg")).
Defined.

End NormalizerFacts.

(** ** Similarity matrix builder *)

Module SimilarityFacts.
Import Normalizer Similarity.

Lemma square_setcell n i j v mat : square n mat -> square n (setcell i j v mat).
Proof.
  intros [Hlen Hrows]. unfold setcell. split.
  - now rewrite length_alter.
  - apply Forall_alter; [assumption|]. intros row _ Hrow. now rewrite length_insert.
Qed.

Lemma getcell_square n mat i j : square n mat -> i < n -> j < n -> is_Some (getcell mat i j).
Proof.
  intros [Hlen Hrows] Hi Hj. unfold getcell.
  destruct (lookup_lt_is_Some_2 mat i) as [row Hrow]; [lia|].
  rewrite Hrow. simpl. apply lookup_lt_is_Some_2.
  rewrite Forall_lookup in Hrows. rewrite (Hrows _ _ Hrow). exact Hj.
Qed.

Lemma getcell_setcell n mat i j v a b :
  square n mat -> i < n -> j < n ->
  getcell (setcell i j v mat) a b
  = if decide (a = i /\ b = j) then Some v else getcell mat a b.
Proof.
  intros [Hlen Hrows] Hi Hj. unfold getcell, setcell.
  destruct (decide (a = i)) as [->|Hai].
  - destruct (lookup_lt_is_Some_2 mat i) as [row Hrow]; [lia|].
    rewrite list_lookup_alter_eq, Hrow. simpl.
    assert (Hlrow : length row = n) by (rewrite Forall_lookup in Hrows; eauto).
    destruct (decide (b = j)) as [->|Hbj].
    + rewrite decide_True by done. apply list_lookup_insert_eq. lia.
    + rewrite decide_False by tauto. now apply list_lookup_insert_ne.
  - rewrite list_lookup_alter_ne by done. rewrite decide_False by tauto. reflexivity.
Qed.

Lemma getcell_in_range n mat i j x :
  square n mat -> getcell mat i j = Some x -> i < n /\ j < n.
Proof.
  intros [Hlen Hrows]. unfold getcell. intros H.
  destruct (mat !! i) as [row|] eqn:Hrow; [|discriminate]. simpl in H.
  apply lookup_lt_Some in H. rewrite Forall_lookup in Hrows.
  rewrite (Hrows _ _ Hrow) in H. apply lookup_lt_Some in Hrow. lia.
Qed.

Lemma sim_invariant_zeros n : sim_invariant n (zeros n n).
Proof.
  assert (Hcell : forall i j x, getcell (zeros n n) i j = Some x -> x = 0%Q).
  { unfold getcell, zeros. intros i j x H.
    destruct (replicate n (replicate n 0%Q) !! i) as [row|] eqn:Hrow; [|discriminate].
    apply lookup_replicate in Hrow as [-> _]. simpl in H.
    apply lookup_replicate in H as [-> _]. reflexivity. }
  assert (Hsq : square n (zeros n n)).
  { split; unfold zeros; [apply length_replicate|].
    apply Forall_replicate, length_replicate. }
  split; [exact Hsq|]. split; [|split].
  - intros i j.
    destruct (getcell (zeros n n) i j) as [x|] eqn:Hx,
             (getcell (zeros n n) j i) as [y|] eqn:Hy; try reflexivity.
    + now rewrite (Hcell _ _ _ Hx), (Hcell _ _ _ Hy).
    + destruct (getcell_in_range n _ _ _ _ Hsq Hx) as [Hi Hj].
      destruct (getcell_square n _ j i Hsq Hj Hi) as [y Hy']. congruence.
    + destruct (getcell_in_range n _ _ _ _ Hsq Hy) as [Hj Hi].
      destruct (getcell_square n _ i j Hsq Hi Hj) as [x Hx']. congruence.
  - intros i j x H. rewrite (Hcell _ _ _ H). split; [apply Qle_refl|discriminate].
  - intros i x H. exact (Hcell _ _ _ H).
Qed.

(** Writing one score into [(i, j)] and [(j, i)], [i <> j]. *)
Lemma sim_invariant_store n mat i j v :
  sim_invariant n mat -> i < n -> j < n -> i <> j ->
  (0 <= v)%Q /\ (v <= 100)%Q ->
  sim_invariant n (setcell j i v (setcell i j v mat)).
Proof.
  intros (Hsq & Hsym & Hrange & Hdiag) Hi Hj Hij Hv.
  pose proof (square_setcell n i j v mat Hsq) as Hsq1.
  assert (Hget : forall a b,
    getcell (setcell j i v (setcell i j v mat)) a b
    = if decide ((a = i /\ b = j) \/ (a = j /\ b = i)) then Some v else getcell mat a b).
  { intros a b. rewrite (getcell_setcell n) by assumption.
    rewrite (getcell_setcell n) by assumption.
    repeat case_decide; try reflexivity; exfalso; tauto. }
  split; [now apply square_setcell|]. split; [|split].
  - intros a b. rewrite !Hget. repeat case_decide; try reflexivity; try (exfalso; tauto).
    apply Hsym.
  - intros a b x. rewrite Hget. case_decide.
    + intros [= <-]. exact Hv.
    + apply Hrange.
  - intros a x. rewrite Hget. case_decide.
    + exfalso. lia.
    + apply Hdiag.
Qed.

Lemma for_each_preserves {S : Type} (Inv : S -> Prop) xs (body : nat -> S -> M S) :
  (forall x s calls, x ∈ xs -> Inv s ->
     exists calls' s', body x s calls = (calls', Ok s') /\ Inv s') ->
  forall s calls, Inv s ->
     exists calls' s', for_each xs body s calls = (calls', Ok s') /\ Inv s'.
Proof.
  induction xs as [|x xs IH]; intros Hbody s calls Hs.
  - exists calls, s. now split.
  - destruct (Hbody x s calls) as (calls1 & s1 & Hrun & Hs1); [left|assumption|].
    cbn [for_each]. unfold mbind, M_bind. rewrite Hrun.
    apply IH; [|assumption]. intros y s' calls' Hy. apply Hbody. now right.
Qed.

Lemma elem_of_range a b x : x ∈ range a b <-> a <= x < b.
Proof. unfold range. rewrite elem_of_seq. lia. Qed.

Section Builder.
Variable lower : str -> str.
Variable nfkd : str -> str.
Variable partial_ratio : str -> str -> Q.
Hypothesis partial_ratio_range :
  forall a b, (0 <= partial_ratio a b)%Q /\ (partial_ratio a b <= 100)%Q.

(** C5. For every list of names the builder returns an n x n matrix that is
    symmetric, has every entry in [0,100] and a zero diagonal, for a scorer
    with values in [0,100]. *)
Theorem similarity_matrix_symmetric (names : list str) :
  exists calls sim_matrix,
    compute_similarity_matrix lower nfkd partial_ratio (PStr <$> names) [] = (calls, Ok sim_matrix)
    /\ length sim_matrix = length names
    /\ forall i j, i < length names -> j < length names ->
         exists x, getcell sim_matrix i j = Some x
                /\ getcell sim_matrix j i = Some x
                /\ (0 <= x)%Q /\ (x <= 100)%Q
                /\ getcell sim_matrix i i = Some 0%Q.
Proof.
  set (n := length names).
  assert (Hrun : exists calls sim_matrix,
    compute_similarity_matrix lower nfkd partial_ratio (PStr <$> names) [] = (calls, Ok sim_matrix)
    /\ sim_invariant n sim_matrix).
  { unfold compute_similarity_matrix. rewrite length_fmap. fold n.
    apply (for_each_preserves (sim_invariant n)); [|apply sim_invariant_zeros].
    intros i s calls Hi Hs. apply elem_of_range in Hi.
    apply (for_each_preserves (sim_invariant n)); [|assumption].
    intros j s' calls' Hj Hs'. apply elem_of_range in Hj.
    destruct (lookup_lt_is_Some_2 names i) as [a Ha]; [fold n; lia|].
    destruct (lookup_lt_is_Some_2 names j) as [b Hb]; [fold n; lia|].
    unfold mbind, M_bind, mret, M_ret, normalize_dutch_name_at, call_partial_ratio.
    rewrite !list_lookup_fmap, Ha, Hb. simpl.
    eexists _, _. split; [reflexivity|].
    apply sim_invariant_store; [assumption|lia|lia|lia|apply partial_ratio_range]. }
  destruct Hrun as (calls & m & Hrun & Hsq & Hsym & Hrange & Hdiag).
  exists calls, m. split; [exact Hrun|]. split; [apply Hsq|].
  intros i j Hi Hj.
  destruct (getcell_square n m i j Hsq Hi Hj) as [x Hx].
  destruct (getcell_square n m i i Hsq Hi Hi) as [d Hd].
  exists x. rewrite <- (Hsym i j), Hx. repeat split; try apply (Hrange _ _ _ Hx).
  now rewrite Hd, (Hdiag _ _ Hd).
Qed.
End Builder.

Section Failing.
Variable lower : str -> str.
Variable nfkd : str -> str.
Variable partial_ratio : str -> str -> Q.

Lemma row_stops_at_non_string names i a js1 bs j js2 sim calls :
  names !! i = Some (PStr a) ->
  Forall2 (fun j' b => names !! j' = Some (PStr b)) js1 bs ->
  (forall v, names !! j = Some v -> is_string v = false) ->
  for_each (js1 ++ j :: js2) (score_pair lower nfkd partial_ratio names i) sim calls
  = (calls ++ ((fun b => (normalize_dutch_name lower nfkd a, normalize_dutch_name lower nfkd b)) <$> bs),
     Raise AttributeError).
Proof.
  intros Hi Hjs Hj. revert sim calls.
  induction Hjs as [|j' b js1 bs Hj' Hjs IH]; intros sim calls.
  - simpl. unfold score_pair, mbind, M_bind, normalize_dutch_name_at. rewrite Hi.
    rewrite app_nil_r.
    destruct (names !! j) as [v|] eqn:Ev; [|reflexivity].
    specialize (Hj v eq_refl). destruct v; try reflexivity. discriminate.
  - cbn [app for_each]. unfold mbind at 1. unfold M_bind at 1.
    unfold score_pair at 1. unfold mbind, M_bind, mret, M_ret, normalize_dutch_name_at, call_partial_ratio.
    rewrite Hi, Hj'. rewrite IH. rewrite fmap_cons.
    now rewrite <- app_assoc.
Qed.

Lemma row_stops_at_first names i j js sim calls :
  (forall v, names !! i = Some v -> is_string v = false) ->
  for_each (j :: js) (score_pair lower nfkd partial_ratio names i) sim calls = (calls, Raise AttributeError).
Proof.
  intros Hi. simpl. unfold score_pair, mbind, M_bind, normalize_dutch_name_at.
  destruct (names !! i) as [v|] eqn:Ev; [|reflexivity].
  specialize (Hi v eq_refl). destruct v; try reflexivity. discriminate.
Qed.

Lemma compute_similarity_matrix_rows names :
  compute_similarity_matrix lower nfkd partial_ratio names
  = for_each (range 0 (length names))
      (fun i sim_matrix => for_each (range (i + 1) (length names)) (score_pair lower nfkd partial_ratio names i) sim_matrix)
      (zeros (length names) (length names)).
Proof. reflexivity. Qed.

(** C8 (amended). With at least two names, one of which is not a string, the
    builder raises and returns no matrix; by then the scorer has been called
    on the first name against each of the strings that precede the first
    item that is not a string. *)
Theorem similarity_matrix_fails_on_non_string (strings : list str) (v : pyval) (rest : list pyval) :
  is_string v = false ->
  2 <= length ((PStr <$> strings) ++ v :: rest) ->
  compute_similarity_matrix lower nfkd partial_ratio ((PStr <$> strings) ++ v :: rest) []
  = (calls_before (normalize_dutch_name lower nfkd) strings, Raise AttributeError).
Proof.
  intros Hv Hlen. rewrite compute_similarity_matrix_rows.
  set (names := (PStr <$> strings) ++ v :: rest) in *.
  set (n := length names) in *.
  assert (Hn : n = length strings + S (length rest)).
  { unfold n, names. rewrite length_app, length_fmap. reflexivity. }
  unfold range at 1. rewrite Nat.sub_0_r.
  destruct n as [|n']; [lia|]. cbn [seq for_each].
  unfold mbind at 1. unfold M_bind at 1.
  enough (Hrow : for_each (range (0 + 1) (S n')) (score_pair lower nfkd partial_ratio names 0) (zeros (S n') (S n')) []
                 = (calls_before (normalize_dutch_name lower nfkd) strings, Raise AttributeError))
    by now rewrite Hrow.
  unfold range. simpl (0 + 1). replace (S n' - 1) with n' by lia.
  destruct strings as [|a bs].
  - simpl in *. destruct n' as [|n'']; [lia|]. cbn [seq].
    apply row_stops_at_first. intros w [= <-]. exact Hv.
  - simpl in Hn. assert (Hn' : n' = length bs + S (length rest)) by lia.
    rewrite Hn'. rewrite seq_app. cbn [seq].
    rewrite (row_stops_at_non_string names 0 a (seq 1 (length bs)) bs); [reflexivity|reflexivity| |].
    + apply Forall2_same_length_lookup_2; [apply length_seq|].
      intros k j' b Hk Hb. apply lookup_seq in Hk as [-> _].
      unfold names. simpl. rewrite lookup_app_l by (rewrite length_fmap; eapply lookup_lt_Some; eauto).
      now rewrite list_lookup_fmap, Hb.
    + intros w. unfold names. simpl.
      rewrite lookup_app_r by (rewrite length_fmap; lia).
      rewrite length_fmap, Nat.sub_diag. intros [= <-]. exact Hv.
Qed.
End Failing.

(** A score is computed before the builder fails on the third item; and a
    single item that is not a string does not make it fail at all. *)
Lemma scores_precede_the_failure :
  compute_similarity_matrix ascii_lower ascii_nfkd exact_ratio
    [PStr (u "Jan Berg"); PStr (u "J. Berg"); PNone] []
  = ([(u "jan berg", u "j berg")], Raise AttributeError)
  /\ compute_similarity_matrix ascii_lower ascii_nfkd exact_ratio [PNone] []
     = ([], Ok [[0%Q]]).
Proof. split; reflexivity. Qed.

Lemma exact_ratio_range a b : (0 <= exact_ratio a b)%Q /\ (exact_ratio a b <= 100)%Q.
Proof. unfold exact_ratio. case_bool_decide; split; discriminate. Qed.

Lemma similarity_matrix_symmetric_witness :
  exists calls sim_matrix,
    compute_similarity_matrix ascii_lower ascii_nfkd exact_ratio
      (PStr <$> [u "Jan van der Berg"; u "Jan Berg"; u "Anna de Vries"]) []
    = (calls, Ok sim_matrix)
    /\ length sim_matrix = 3
    /\ forall i j, i < 3 -> j < 3 ->
         exists x, getcell sim_matrix i j = Some x
                /\ getcell sim_matrix j i = Some x
                /\ (0 <= x)%Q /\ (x <= 100)%Q
                /\ getcell sim_matrix i i = Some 0%Q.
Proof.
  exact (similarity_matrix_symmetric ascii_lower ascii_nfkd exact_ratio exact_ratio_range
           [u "Jan van der Berg"; u "Jan Berg"; u "Anna de Vries"]).
Defined.

Lemma similarity_matrix_fails_on_non_string_witness :
  compute_similarity_matrix ascii_lower ascii_nfkd exact_ratio
    [PStr (u "Jan Berg"); PStr (u "J. Berg"); PNone; PStr (u "Anna")] []
  = ([(u "jan berg", u "j berg")], Raise AttributeError).
Proof.
  apply (similarity_matrix_fails_on_non_string ascii_lower ascii_nfkd exact_ratio
           [u "Jan Berg"; u "J. Berg"] PNone [PStr (u "Anna")]).
  - reflexivity.
  - simpl. lia.
Defined.

(** X4. With fewer than two names, whatever their type, the builder makes
    no scorer call and returns the zero matrix: a single item that is not
    a string goes unnoticed. *)
Theorem similarity_matrix_degenerate (lower nfkd : str -> str) (partial_ratio : str -> str -> Q)
    (names : list pyval) :
  length names <= 1 ->
  compute_similarity_matrix lower nfkd partial_ratio names []
  = ([], Ok (zeros (length names) (length names))).
Proof.
  intros Hlen. destruct names as [|v [|w rest]]; [reflexivity|reflexivity|simpl in Hlen; lia].
Qed.

Lemma similarity_matrix_degenerate_witness :
  compute_similarity_matrix ascii_lower ascii_nfkd exact_ratio [PInt 7] [] = ([], Ok [[0%Q]]).
Proof.
  apply (similarity_matrix_degenerate ascii_lower ascii_nfkd exact_ratio [PInt 7]).
  simpl. lia.
Defined.

Lemma expected_calls_length normalize names :
  2 * length (expected_calls normalize names) = length names * (length names - 1).
Proof.
  induction names as [|a rest IH]; [reflexivity|].
  cbn [expected_calls length]. rewrite length_app, length_fmap. nia.
Qed.

Lemma for_each_seq_inv {S : Type} (Inv : nat -> S -> list (str * str) -> Prop)
    a len (body : nat -> S -> M S) :
  (forall k s calls, k < len -> Inv k s calls ->
     exists calls' s', body (a + k) s calls = (calls', Ok s') /\ Inv (Datatypes.S k) s' calls') ->
  forall s calls, Inv 0 s calls ->
  exists calls' s', for_each (seq a len) body s calls = (calls', Ok s') /\ Inv len s' calls'.
Proof.
  revert a Inv. induction len as [|len IH]; intros a Inv Hstep s calls H0.
  - exists calls, s. split; [reflexivity|exact H0].
  - destruct (Hstep 0 s calls) as (calls1 & s1 & Hrun & H1); [lia|exact H0|].
    rewrite Nat.add_0_r in Hrun. cbn [seq for_each]. unfold mbind, M_bind. rewrite Hrun.
    apply (IH (Datatypes.S a) (fun k => Inv (Datatypes.S k))); [|exact H1].
    intros k s' calls' Hk Hinv. destruct (Hstep (Datatypes.S k) s' calls') as (c2 & s2 & Hr & H2);
      [lia|exact Hinv|].
    replace (Datatypes.S a + k) with (a + Datatypes.S k) by lia. eauto.
Qed.

Section Entries.
Variable lower : str -> str.
Variable nfkd : str -> str.
Variable partial_ratio : str -> str -> Q.

Local Abbreviation nd := (normalize_dutch_name lower nfkd).
Local Abbreviation row_calls := (calls_of_row (normalize_dutch_name lower nfkd)).
Local Abbreviation filled := (filled_upto partial_ratio (normalize_dutch_name lower nfkd)).

Lemma expected_calls_rows names :
  expected_calls nd names = flat_map (row_calls names) (seq 0 (length names)).
Proof.
  induction names as [|a rest IH]; [reflexivity|].
  cbn [expected_calls length seq flat_map]. f_equal.
  rewrite IH. rewrite <- (fmap_S_seq 0). clear IH.
  induction (seq 0 (length rest)) as [|i l IHl]; [reflexivity|].
  cbn [fmap list_fmap flat_map]. now rewrite IHl.
Qed.

Lemma filled_zeros names : filled names 0 0 (zeros (length names) (length names)).
Proof.
  pose proof (sim_invariant_zeros (length names)) as (Hsq & _ & _ & _).
  split; [exact Hsq|]. intros a b x y Ha Hb.
  apply lookup_lt_Some in Ha, Hb.
  rewrite decide_False by lia.
  unfold getcell, zeros. rewrite lookup_replicate_2 by exact Ha. cbn.
  now rewrite lookup_replicate_2 by exact Hb.
Qed.

Lemma filled_next_row names i mat :
  filled names i (length names - (i + 1)) mat -> filled names (S i) 0 mat.
Proof.
  intros [Hsq Hcells]. split; [exact Hsq|]. intros a b x y Ha Hb.
  rewrite (Hcells a b x y Ha Hb). apply lookup_lt_Some in Ha, Hb.
  repeat case_decide; try reflexivity; exfalso; lia.
Qed.

Lemma filled_store names i c mat a b :
  filled names i c mat ->
  names !! i = Some a -> names !! (i + 1 + c) = Some b ->
  filled names i (S c)
    (setcell (i + 1 + c) i (partial_ratio (nd a) (nd b))
       (setcell i (i + 1 + c) (partial_ratio (nd a) (nd b)) mat)).
Proof.
  intros [Hsq Hcells] Hi Hj.
  pose proof (lookup_lt_Some _ _ _ Hi) as Hil. pose proof (lookup_lt_Some _ _ _ Hj) as Hjl.
  set (n := length names) in *. set (j := i + 1 + c) in *.
  pose proof (square_setcell n i j (partial_ratio (nd a) (nd b)) mat Hsq) as Hsq1.
  split; [now apply square_setcell|].
  intros p q x y Hp Hq.
  rewrite (getcell_setcell n) by assumption. rewrite (getcell_setcell n) by assumption.
  rewrite (Hcells p q x y Hp Hq).
  destruct (decide (p = j /\ q = i)) as [[-> ->]|Hne1].
  - rewrite decide_True by lia. replace (j <? i) with false by (symmetry; apply Nat.ltb_ge; lia).
    congruence.
  - destruct (decide (p = i /\ q = j)) as [[-> ->]|Hne2].
    + rewrite decide_True by lia. replace (i <? j) with true by (symmetry; apply Nat.ltb_lt; lia).
      congruence.
    + apply lookup_lt_Some in Hp, Hq.
      repeat case_decide; try reflexivity; exfalso; lia.
Qed.

(** X3. On a list of strings the builder calls the scorer once for every
    pair [i < j], row by row, that is n(n-1)/2 times, and stores each score
    at [(i, j)] and [(j, i)]. *)
Theorem similarity_matrix_entries (names : list str) :
  exists sim_matrix,
    compute_similarity_matrix lower nfkd partial_ratio (PStr <$> names) []
    = (expected_calls (normalize_dutch_name lower nfkd) names, Ok sim_matrix)
    /\ 2 * length (expected_calls (normalize_dutch_name lower nfkd) names)
       = length names * (length names - 1)
    /\ forall i j a b, i < j -> names !! i = Some a -> names !! j = Some b ->
         let score := partial_ratio (normalize_dutch_name lower nfkd a)
                                    (normalize_dutch_name lower nfkd b) in
         getcell sim_matrix i j = Some score /\ getcell sim_matrix j i = Some score.
Proof.
  set (n := length names).
  assert (Hrun : exists calls sim_matrix,
    compute_similarity_matrix lower nfkd partial_ratio (PStr <$> names) [] = (calls, Ok sim_matrix)
    /\ filled names n 0 sim_matrix
    /\ calls = flat_map (row_calls names) (seq 0 n)).
  { rewrite compute_similarity_matrix_rows. rewrite length_fmap. fold n.
    unfold range at 1. rewrite Nat.sub_0_r.
    apply (for_each_seq_inv
             (fun k mat calls => filled names k 0 mat
                                 /\ calls = flat_map (row_calls names) (seq 0 k)) 0 n).
    2: { split; [apply filled_zeros|reflexivity]. }
    intros i mat calls Hi [Hfilled ->]. cbn [Nat.add].
    destruct (lookup_lt_is_Some_2 names i Hi) as [a Ha].
    unfold range. replace (n - (i + 1)) with (length (drop (S i) names))
      by (rewrite length_drop; unfold n; lia).
    destruct (for_each_seq_inv
                (fun c mat calls =>
                   filled names i c mat
                   /\ calls = flat_map (row_calls names) (seq 0 i)
                              ++ ((fun b => (nd a, nd b)) <$> take c (drop (S i) names)))
                (i + 1) (length (drop (S i) names))
                (score_pair lower nfkd partial_ratio (PStr <$> names) i))
      with (s := mat) (calls := flat_map (row_calls names) (seq 0 i))
      as (calls' & mat' & Hrow & Hfilled' & Hcalls').
    - intros c s calls Hc [Hs ->]. rewrite length_drop in Hc.
      destruct (lookup_lt_is_Some_2 names (i + 1 + c)) as [b Hb]; [lia|].
      unfold score_pair, mbind, M_bind, mret, M_ret, normalize_dutch_name_at, call_partial_ratio.
      rewrite !list_lookup_fmap, Ha, Hb. cbn [fmap option_fmap option_map].
      eexists _, _. split; [reflexivity|]. split.
      + now apply filled_store.
      + rewrite <- app_assoc. f_equal.
        assert (Hd : drop (S i) names !! c = Some b).
        { rewrite lookup_drop. rewrite <- Hb. f_equal. lia. }
        rewrite (take_S_r _ _ _ Hd), fmap_app. reflexivity.
    - split; [exact Hfilled|]. cbn [take fmap list_fmap]. now rewrite app_nil_r.
    - exists calls', mat'. split; [exact Hrow|]. split.
      + apply filled_next_row. rewrite length_drop in Hfilled'.
        replace (length names - (i + 1)) with (length names - S i) by lia. exact Hfilled'.
      + rewrite Hcalls', firstn_all, seq_S, flat_map_app. cbn [flat_map Nat.add].
        unfold calls_of_row at 3. rewrite Ha. now rewrite app_nil_r. }
  destruct Hrun as (calls & m & Hrun & [Hsq Hcells] & ->).
  exists m. rewrite expected_calls_rows. split; [exact Hrun|]. split.
  - rewrite <- expected_calls_rows. apply expected_calls_length.
  - intros i j a b Hij Ha Hb score.
    pose proof (lookup_lt_Some _ _ _ Ha) as Hil. pose proof (lookup_lt_Some _ _ _ Hb) as Hjl.
    rewrite (Hcells i j a b Ha Hb), (Hcells j i b a Hb Ha).
    rewrite !decide_True by (fold n; lia).
    replace (i <? j) with true by (symmetry; apply Nat.ltb_lt; lia).
    replace (j <? i) with false by (symmetry; apply Nat.ltb_ge; lia).
    split; reflexivity.
Qed.
End Entries.

End SimilarityFacts.

(** ** Hierarchical clusterer *)

Module ClustererFacts.
Import Similarity SimilarityFacts Clusterer.

Lemma cluster_monocrit_node cutoff in_cluster h l r st :
  cluster_monocrit cutoff in_cluster (Node h l r) st =
  let found :=
    negb in_cluster && Qle_bool (Qmax_with (Qmax_with h (max_dist l)) (max_dist r)) cutoff in
  let inside := in_cluster || found in
  let st0 := (if found then S st.1 else st.1, st.2) in
  match l, r with
  | Leaf _, Node _ _ _ => process cutoff inside l (process cutoff inside r st0)
  | _, _ => process cutoff inside r (process cutoff inside l st0)
  end.
Proof. destruct l, r; reflexivity. Qed.

Lemma same_cluster_leaves cutoff d i j :
  same_cluster cutoff d i j -> i ∈ leaves d /\ j ∈ leaves d.
Proof.
  induction d as [k|h l IHl r IHr]; simpl.
  - intros [-> ->]. split; apply list_elem_of_singleton; reflexivity.
  - destruct (Qle_bool _ cutoff); [tauto|].
    intros [H|H]; [apply IHl in H|apply IHr in H]; destruct H; split;
      apply elem_of_app; tauto.
Qed.

Lemma same_cluster_monotone t1 t2 d i j :
  (t1 < t2)%Q -> same_cluster t1 d i j -> same_cluster t2 d i j.
Proof.
  intros Ht. induction d as [k|h l IHl r IHr]; simpl; [tauto|].
  set (m := Qmax_with (Qmax_with h (max_dist l)) (max_dist r)).
  destruct (Qle_bool m t1) eqn:E1.
  - intros H. assert (E2 : Qle_bool m t2 = true).
    { apply Qle_bool_iff. apply Qle_bool_iff in E1.
      eapply Qle_trans; [exact E1|]. now apply Qlt_le_weak. }
    now rewrite E2.
  - intros H. destruct (Qle_bool m t2).
    + destruct H as [H|H]; apply same_cluster_leaves in H as [Hi Hj];
        split; apply elem_of_app; tauto.
    + tauto.
Qed.

Lemma painted_then L1 L2 L x T T1 T2 :
  painted L1 x T T1 -> painted L2 x T1 T2 ->
  (forall k, k ∈ L <-> k ∈ L1 \/ k ∈ L2) ->
  painted L x T T2.
Proof.
  intros [Hl1 H1] [Hl2 H2] HL. split; [congruence|].
  intros k. rewrite H2, H1. specialize (HL k).
  repeat case_decide; try reflexivity; exfalso; tauto.
Qed.

Lemma process_inside cutoff d nc T :
  Forall (fun i => i < length T) (leaves d) ->
  exists T', process cutoff true d (nc, T) = (nc, T') /\ painted (leaves d) nc T T'.
Proof.
  revert nc T. induction d as [k|h l IHl r IHr]; intros nc T Hrange.
  - exists (<[k := nc]> T). split; [reflexivity|]. split; [apply length_insert|].
    intros k'. simpl in Hrange. apply List.Forall_inv in Hrange.
    case_decide as Hk.
    + apply list_elem_of_singleton in Hk as ->. now apply list_lookup_insert_eq.
    + apply list_lookup_insert_ne. intros ->. apply Hk, list_elem_of_singleton. reflexivity.
  - simpl in Hrange. apply Forall_app in Hrange as [Hl Hr].
    assert (HL : forall k, k ∈ leaves (Node h l r) <-> k ∈ leaves l \/ k ∈ leaves r)
      by (intros k; apply elem_of_app).
    generalize dependent (leaves (Node h l r)). intros L HL.
    unfold process. rewrite cluster_monocrit_node. cbn zeta. simpl negb. simpl andb. simpl orb.
    cbn [fst snd].
    assert (Hlr : forall T0, length T0 = length T ->
              exists T1 T2, process cutoff true l (nc, T0) = (nc, T1)
                            /\ painted (leaves l) nc T0 T1
                            /\ process cutoff true r (nc, T0) = (nc, T2)
                            /\ painted (leaves r) nc T0 T2).
    { intros T0 HT0. destruct (IHl nc T0) as (T1 & E1 & P1); [now rewrite HT0|].
      destruct (IHr nc T0) as (T2 & E2 & P2); [now rewrite HT0|]. eauto 10. }
    destruct l as [kl|hl ll lr], r as [kr|hr rl rr].
    1,3,4: (destruct (Hlr T eq_refl) as (T1 & _ & E1 & P1 & _);
            rewrite E1;
            destruct (Hlr T1 (proj1 P1)) as (_ & T2 & _ & _ & E2 & P2);
            rewrite E2; exists T2; split; [reflexivity|];
            eapply painted_then; [exact P1|exact P2|exact HL]).
    destruct (Hlr T eq_refl) as (_ & T1 & _ & _ & E1 & P1).
    rewrite E1.
    destruct (Hlr T1 (proj1 P1)) as (T2 & _ & E2 & P2 & _).
    rewrite E2. exists T2. split; [reflexivity|].
    eapply painted_then; [exact P1|exact P2|].
    intros k. rewrite HL. tauto.
Qed.

Lemma labelled_leader cutoff h l r nc T T' :
  Qle_bool (Qmax_with (Qmax_with h (max_dist l)) (max_dist r)) cutoff = true ->
  painted (leaves (Node h l r)) (S nc) T T' ->
  labelled cutoff (Node h l r) nc T (S nc) T'.
Proof.
  intros Hfound [Hlen Hp]. split; [exact Hlen|]. split; [lia|]. split; [|split].
  - intros k Hk. rewrite Hp. now rewrite decide_False.
  - intros k Hk. exists (S nc). rewrite Hp. rewrite decide_True by assumption.
    split; [reflexivity|lia].
  - intros i j Hi Hj. cbn [same_cluster]. rewrite Hfound, !Hp.
    rewrite !decide_True by assumption. tauto.
Qed.

(** Closes a goal from a leaf found in two disjoint leaf lists. *)
Ltac clash :=
  exfalso;
  match goal with
  | Hdisj : forall k, k ∈ leaves ?A -> k ∈ leaves ?B -> False,
    H1 : ?k ∈ leaves ?A, H2 : ?k ∈ leaves ?B |- _ => exact (Hdisj k H1 H2)
  end.

Lemma labelled_pair cutoff h l r A B nc T nc1 T1 nc2 T2 :
  (A = l /\ B = r) \/ (A = r /\ B = l) ->
  NoDup (leaves l ++ leaves r) ->
  Qle_bool (Qmax_with (Qmax_with h (max_dist l)) (max_dist r)) cutoff = false ->
  labelled cutoff A nc T nc1 T1 ->
  labelled cutoff B nc1 T1 nc2 T2 ->
  labelled cutoff (Node h l r) nc T nc2 T2.
Proof.
  intros HAB Hnd Hfound (HlenA & HleA & HoutA & HinA & HeqA) (HlenB & HleB & HoutB & HinB & HeqB).
  assert (Hdisj : forall k, k ∈ leaves A -> k ∈ leaves B -> False).
  { apply NoDup_app in Hnd as (_ & Hd & _).
    destruct HAB as [[-> ->]|[-> ->]]; intros k H1 H2;
      [exact (Hd k H1 H2)|exact (Hd k H2 H1)]. }
  assert (HL : forall k, k ∈ leaves (Node h l r) <-> k ∈ leaves A \/ k ∈ leaves B).
  { intros k. simpl. rewrite elem_of_app. destruct HAB as [[-> ->]|[-> ->]]; tauto. }
  assert (HS : forall i j, same_cluster cutoff (Node h l r) i j
                           <-> same_cluster cutoff A i j \/ same_cluster cutoff B i j).
  { intros i j. cbn [same_cluster]. rewrite Hfound.
    destruct HAB as [[-> ->]|[-> ->]]; tauto. }
  assert (HA : forall k, k ∈ leaves A -> exists x, T2 !! k = Some x /\ nc < x <= nc1).
  { intros k Hk. destruct (HinA k Hk) as (x & Hx & Hr). exists x. split; [|exact Hr].
    rewrite HoutB; [exact Hx|]. intros Hk'. clash. }
  split; [congruence|]. split; [lia|]. split; [|split].
  - intros k Hk. rewrite HL in Hk. rewrite HoutB by tauto. apply HoutA. tauto.
  - intros k Hk. apply HL in Hk as [Hk|Hk].
    + destruct (HA k Hk) as (x & Hx & Hr). exists x. split; [exact Hx|lia].
    + destruct (HinB k Hk) as (x & Hx & Hr). exists x. split; [exact Hx|lia].
  - intros i j Hi Hj. rewrite HS. apply HL in Hi, Hj.
    destruct Hi as [Hi|Hi], Hj as [Hj|Hj].
    + rewrite (HoutB i) by (intros Hk'; exact (Hdisj i Hi Hk')).
      rewrite (HoutB j) by (intros Hk'; exact (Hdisj j Hj Hk')).
      rewrite (HeqA i j Hi Hj). split; [tauto|].
      intros [H|H]; [exact H|]. apply same_cluster_leaves in H as [H _]. clash.
    + destruct (HA i Hi) as (x & Hx & Hrx). destruct (HinB j Hj) as (y & Hy & Hry).
      rewrite Hx, Hy. split.
      * intros [= ->]. lia.
      * intros [H|H]; apply same_cluster_leaves in H as [H1 H2]; clash.
    + destruct (HA j Hj) as (x & Hx & Hrx). destruct (HinB i Hi) as (y & Hy & Hry).
      rewrite Hx, Hy. split.
      * intros [= ->]. lia.
      * intros [H|H]; apply same_cluster_leaves in H as [H1 H2]; clash.
    + rewrite (HeqB i j Hi Hj). split; [tauto|].
      intros [H|H]; [|exact H]. apply same_cluster_leaves in H as [H _]. clash.
Qed.

Lemma process_outside cutoff d nc T :
  NoDup (leaves d) ->
  Forall (fun i => i < length T) (leaves d) ->
  exists nc' T', process cutoff false d (nc, T) = (nc', T')
                 /\ labelled cutoff d nc T nc' T'.
Proof.
  revert nc T. induction d as [k|h l IHl r IHr]; intros nc T Hnd Hrange.
  - exists (S nc), (<[k := S nc]> T). split; [reflexivity|].
    simpl in Hrange. apply List.Forall_inv in Hrange.
    split; [apply length_insert|]. split; [lia|]. split; [|split].
    + intros k' Hk'. apply list_lookup_insert_ne. intros ->.
      apply Hk', list_elem_of_singleton. reflexivity.
    + intros k' Hk'. apply list_elem_of_singleton in Hk' as ->. exists (S nc).
      split; [now apply list_lookup_insert_eq|lia].
    + intros i j Hi Hj. apply list_elem_of_singleton in Hi as ->.
      apply list_elem_of_singleton in Hj as ->. simpl. tauto.
  - pose proof Hnd as Hnd'. simpl in Hnd'.
    pose proof Hrange as Hrange'. simpl in Hrange'.
    apply Forall_app in Hrange' as [Hl Hr].
    apply NoDup_app in Hnd' as (Hndl & _ & Hndr).
    unfold process. rewrite cluster_monocrit_node. cbn zeta. simpl negb. rewrite andb_true_l.
    rewrite orb_false_l. cbn [fst snd].
    destruct (Qle_bool (Qmax_with (Qmax_with h (max_dist l)) (max_dist r)) cutoff) eqn:Hfound.
    + destruct (process_inside cutoff (Node h l r) (S nc) T Hrange) as (T' & E & P).
      unfold process in E. rewrite cluster_monocrit_node in E. cbn zeta in E.
      simpl negb in E. simpl andb in E. simpl orb in E. cbn [fst snd] in E.
      exists (S nc), T'. split; [exact E|]. now apply labelled_leader.
    + assert (Hlr : forall n0 T0, length T0 = length T ->
                (exists n1 T1, process cutoff false l (n0, T0) = (n1, T1)
                               /\ labelled cutoff l n0 T0 n1 T1)
                /\ (exists n1 T1, process cutoff false r (n0, T0) = (n1, T1)
                               /\ labelled cutoff r n0 T0 n1 T1)).
      { intros n0 T0 HT0. split; [apply IHl|apply IHr]; try assumption; now rewrite HT0. }
      destruct l as [kl|hl ll lr], r as [kr|hr rl rr].
      1,3,4: (destruct (Hlr nc T eq_refl) as [(n1 & T1 & E1 & P1) _];
              rewrite E1;
              destruct (Hlr n1 T1 (proj1 P1)) as [_ (n2 & T2 & E2 & P2)];
              rewrite E2; exists n2, T2; split; [reflexivity|];
              eapply labelled_pair; [left; split; reflexivity|exact Hnd|exact Hfound
                                    |exact P1|exact P2]).
      destruct (Hlr nc T eq_refl) as [_ (n1 & T1 & E1 & P1)].
      rewrite E1.
      destruct (Hlr n1 T1 (proj1 P1)) as [(n2 & T2 & E2 & P2) _].
      rewrite E2. exists n2, T2. split; [reflexivity|].
      eapply labelled_pair; [right; split; reflexivity|exact Hnd|exact Hfound
                            |exact P1|exact P2].
Qed.

Lemma is_valid_linkage_spec Z :
  is_valid_linkage Z = true ->
  NoDup (leaves Z) /\ forall k, k ∈ leaves Z <-> k < length (leaves Z).
Proof.
  destruct Z as [k|h l r]; [discriminate|]. unfold is_valid_linkage.
  intros H. apply andb_true_iff in H as [Hnd Hrange].
  apply bool_decide_eq_true in Hnd. split; [exact Hnd|].
  rewrite forallb_forall in Hrange.
  intros k. split.
  - intros Hk. apply list_elem_of_In, Hrange, Nat.ltb_lt in Hk. exact Hk.
  - intros Hk. apply list_elem_of_In.
    apply NoDup_ListNoDup in Hnd.
    apply (List.NoDup_length_incl Hnd (l' := seq 0 (length (leaves (Node h l r))))).
    + now rewrite length_seq.
    + intros x Hx. apply in_seq. apply Hrange, Nat.ltb_lt in Hx. lia.
    + apply in_seq. lia.
Qed.

(** The labels of [fcluster] tell exactly the clusters of the cut apart. *)
Lemma fcluster_same_cluster Z t :
  is_valid_linkage Z = true ->
  exists ids, fcluster Z t = Ok ids
    /\ length ids = length (leaves Z)
    /\ forall i j, i < length ids -> j < length ids ->
         (ids !! i = ids !! j <-> same_cluster t Z i j).
Proof.
  intros Hvalid. unfold fcluster. rewrite Hvalid.
  destruct (is_valid_linkage_spec Z Hvalid) as [Hnd Hmem].
  destruct (process_outside t Z 0 (replicate (length (leaves Z)) 0) Hnd)
    as (nc' & T' & E & Hlen & _ & _ & _ & Heq).
  { rewrite length_replicate. apply Forall_forall. intros k. apply Hmem. }
  assert (E' : cluster_monocrit t false Z (0, replicate (length (leaves Z)) 0) = (nc', T')).
  { destruct Z; [discriminate|exact E]. }
  rewrite E'. cbn [snd]. exists T'. split; [reflexivity|].
  rewrite length_replicate in Hlen. split; [exact Hlen|].
  intros i j Hi Hj. apply Heq; apply Hmem; congruence.
Qed.

Section Monotone.
Variable linkage : list Q -> result dendrogram.

(** C6. Raising the threshold never splits a cluster: when clustering at
    [t1] succeeds, clustering at [t2 > t1] succeeds on the same tree, and two
    records with the same cluster id at [t1] have the same cluster id at [t2]. *)
Theorem threshold_monotone sim_matrix t1 t2 ids1 Z :
  (t1 < t2)%Q ->
  hierarchical_clustering linkage sim_matrix t1 = Ok (ids1, Z) ->
  exists ids2,
    hierarchical_clustering linkage sim_matrix t2 = Ok (ids2, Z)
    /\ length ids2 = length ids1
    /\ forall i j, i < length ids1 -> j < length ids1 ->
         ids1 !! i = ids1 !! j -> ids2 !! i = ids2 !! j.
Proof.
  intros Ht. unfold hierarchical_clustering.
  destruct (squareform _) as [y|e]; [|discriminate]. cbn [mbind result_bind].
  destruct (linkage y) as [Z'|e]; [|discriminate]. cbn [mbind result_bind].
  destruct (fcluster Z' t1) as [ids|e] eqn:E1; [|discriminate]. cbn [mbind result_bind].
  intros [= <- <-].
  assert (Hvalid : is_valid_linkage Z' = true).
  { unfold fcluster in E1. destruct (is_valid_linkage Z'); [reflexivity|discriminate]. }
  destruct (fcluster_same_cluster Z' t1 Hvalid) as (ids1 & E1' & Hlen1 & Hsame1).
  destruct (fcluster_same_cluster Z' t2 Hvalid) as (ids2 & E2 & Hlen2 & Hsame2).
  rewrite E1 in E1'. injection E1' as <-.
  rewrite E2. exists ids2. split; [reflexivity|]. split; [congruence|].
  intros i j Hi Hj Heq. apply Hsame2; [congruence|congruence|].
  apply (same_cluster_monotone t1 t2); [exact Ht|]. now apply Hsame1.
Qed.
End Monotone.

Lemma threshold_monotone_witness :
  exists ids2,
    hierarchical_clustering linkage_average example_sim (8 # 10) = Ok (ids2, example_tree)
    /\ length ids2 = 3
    /\ forall i j, i < 3 -> j < 3 ->
         [1; 1; 2] !! i = [1; 1; 2] !! j -> ids2 !! i = ids2 !! j.
Proof.
  apply (threshold_monotone linkage_average example_sim (15 # 100) (8 # 10) [1; 1; 2] example_tree).
  - reflexivity.
  - reflexivity.
Defined.

(** With fewer than two rows there is no pair: the condensed list is empty. *)
Lemma squareform_degenerate sim_matrix :
  length sim_matrix <= 1 ->
  Forall (fun row => length row = length sim_matrix) sim_matrix ->
  squareform (fill_diagonal 0 (to_distance sim_matrix)) = Ok [].
Proof.
  intros Hlen Hrows. destruct sim_matrix as [|row [|row' rest]]; [reflexivity| |simpl in Hlen; lia].
  apply List.Forall_inv in Hrows. destruct row as [|x [|y row]]; try discriminate.
  reflexivity.
Qed.

(** C7 (amended). On fewer than two records the clusterer still calls the
    linkage routine, on an empty condensed list, and fails with the
    exception the routine raises for it. *)
Theorem degenerate_input_fails_in_linkage (linkage : list Q -> result dendrogram)
    sim_matrix distance_threshold e :
  length sim_matrix <= 1 ->
  Forall (fun row => length row = length sim_matrix) sim_matrix ->
  linkage [] = Raise e ->
  hierarchical_clustering linkage sim_matrix distance_threshold = Raise e.
Proof.
  intros Hlen Hrows Hempty. unfold hierarchical_clustering.
  rewrite (squareform_degenerate sim_matrix Hlen Hrows). cbn [mbind result_bind].
  now rewrite Hempty.
Qed.

Lemma degenerate_input_fails_in_linkage_witness :
  hierarchical_clustering linkage_average [[0%Q]] (15 # 100) = Raise ValueError.
Proof.
  apply (degenerate_input_fails_in_linkage linkage_average [[0%Q]] (15 # 100) ValueError).
  - simpl. lia.
  - repeat constructor.
  - reflexivity.
Defined.

(** No record and one record: an exception, not singleton clusters. *)
Lemma degenerate_input_raises :
  hierarchical_clustering linkage_average [] (15 # 100) = Raise ValueError
  /\ hierarchical_clustering linkage_average [[0%Q]] (15 # 100) = Raise ValueError.
Proof. split; reflexivity. Qed.

Lemma square_to_distance n mat : square n mat -> square n (to_distance mat).
Proof.
  intros [Hlen Hrows]. unfold to_distance. split; [now rewrite length_map|].
  apply Forall_forall. intros row Hrow. apply list_elem_of_In, in_map_iff in Hrow as (r & <- & Hr).
  rewrite length_map. rewrite Forall_forall in Hrows. apply Hrows. now apply list_elem_of_In.
Qed.

Lemma square_fill_diagonal n v mat : square n mat -> square n (fill_diagonal v mat).
Proof.
  intros [Hlen Hrows]. unfold fill_diagonal. split; [now rewrite length_imap|].
  apply Forall_lookup. intros i row Hrow. apply list_lookup_imap_Some in Hrow as (r & Hr & ->).
  rewrite length_insert. rewrite Forall_lookup in Hrows. eauto.
Qed.

(** The distance matrix, cell by cell. *)
Lemma getcell_distance n mat i j :
  square n mat ->
  getcell (fill_diagonal 0 (to_distance mat)) i j
  = if decide (i = j) then (if decide (i < n) then Some 0%Q else None)
    else distance_of <$> getcell mat i j.
Proof.
  intros [Hlen Hrows]. unfold getcell, fill_diagonal, to_distance.
  rewrite list_lookup_imap. change (map ?f ?l) with (f <$> l). rewrite list_lookup_fmap.
  destruct (mat !! i) as [row|] eqn:Hrow; cbn.
  - assert (Hl : length row = n) by (rewrite Forall_lookup in Hrows; eauto).
    pose proof (lookup_lt_Some _ _ _ Hrow) as Hi.
    case_decide as Hij.
    + subst j. rewrite decide_True by lia. apply list_lookup_insert_eq.
      rewrite length_fmap. lia.
    + rewrite list_lookup_insert_ne by exact Hij. now rewrite list_lookup_fmap.
  - apply lookup_ge_None in Hrow. case_decide; [|reflexivity]. rewrite decide_False by lia.
    reflexivity.
Qed.

Lemma condensed_length n (rows : list (list Q)) k :
  Forall (fun row => length row = n) rows -> k + length rows = n ->
  2 * length (concat (imap (fun i row => drop (S (k + i)) row) rows))
  = length rows * (length rows - 1).
Proof.
  intros Hrows. revert k. induction Hrows as [|row rows Hrow _ IH]; intros k Hk; [reflexivity|].
  cbn [imap concat length]. rewrite length_app, length_drop, Hrow, Nat.add_0_r.
  rewrite (imap_ext _ (fun i row => drop (S (S k + i)) row)).
  2: { intros i x _. cbn. f_equal. lia. }
  specialize (IH (S k)). cbn [length] in Hk. nia.
Qed.

Lemma distance_of_range s :
  (0 <= s)%Q /\ (s <= 100)%Q -> (0 <= distance_of s)%Q /\ (distance_of s <= 1)%Q.
Proof.
  unfold distance_of, Qdiv. change (/ 100)%Q with (1 # 100)%Q. intros [H0 H1]. split; lra.
Qed.

Lemma forallb_seq_true (f : nat -> bool) n :
  (forall i, i < n -> f i = true) -> forallb f (seq 0 n) = true.
Proof. intros H. apply forallb_forall. intros i Hi. apply in_seq in Hi. apply H. lia. Qed.

(** X5. A square, symmetric similarity matrix with entries in [0,100], as
    the builder returns, passes the checks of [squareform]: the condensed
    list reaches [linkage] with n(n-1)/2 distances, all in [0,1]. *)
Theorem condensed_distances n sim_matrix :
  sim_invariant n sim_matrix ->
  exists condensed_dist,
    squareform (fill_diagonal 0 (to_distance sim_matrix)) = Ok condensed_dist
    /\ 2 * length condensed_dist = n * (n - 1)
    /\ Forall (fun d => (0 <= d)%Q /\ (d <= 1)%Q) condensed_dist.
Proof.
  intros (Hsq & Hsym & Hrange & _).
  set (D := fill_diagonal 0 (to_distance sim_matrix)).
  assert (HsqD : square n D) by now apply square_fill_diagonal, square_to_distance.
  pose proof HsqD as [HlenD HrowsD].
  assert (Hcells : forall i j x, getcell D i j = Some x -> (0 <= x)%Q /\ (x <= 1)%Q).
  { intros i j x. unfold D. rewrite (getcell_distance n) by exact Hsq.
    case_decide.
    - case_decide; [|discriminate]. intros [= <-]. split; discriminate.
    - destruct (getcell sim_matrix i j) as [s|] eqn:Hs; [|discriminate].
      cbn. intros [= <-]. apply distance_of_range. eauto. }
  assert (Hvalid : is_valid_dm D = true).
  { unfold is_valid_dm. rewrite HlenD. apply andb_true_iff. split.
    - apply forallb_seq_true. intros i Hi. apply forallb_seq_true. intros j Hj.
      unfold D. rewrite !(getcell_distance n) by exact Hsq. rewrite (Hsym j i).
      destruct (decide (i = j)) as [->|Hij].
      + destruct (decide (j = j)); [|congruence]. destruct (decide (j < n)); [reflexivity|lia].
      + rewrite !decide_False by congruence.
        destruct (getcell_square n sim_matrix i j Hsq Hi Hj) as [s ->]. cbn.
        apply Qeq_bool_iff. reflexivity.
    - apply forallb_seq_true. intros i Hi. unfold D. rewrite (getcell_distance n) by exact Hsq.
      destruct (decide (i = i)); [|congruence]. destruct (decide (i < n)); [reflexivity|lia]. }
  unfold squareform. fold D.
  assert (Hshape : forallb (fun row => length row =? length D) D = true).
  { apply forallb_forall. intros row Hrow. apply Nat.eqb_eq. rewrite HlenD.
    rewrite Forall_forall in HrowsD. apply HrowsD. now apply list_elem_of_In. }
  rewrite Hshape, Hvalid. cbn [negb]. rewrite HlenD.
  destruct (Nat.leb_spec n 1) as [Hn|Hn].
  - exists []. split; [reflexivity|]. split; [simpl; nia|constructor].
  - eexists. split; [reflexivity|]. split.
    + pose proof (condensed_length n D 0 HrowsD ltac:(lia)) as Hc.
      rewrite HlenD in Hc. exact Hc.
    + apply Forall_concat. apply Forall_lookup. intros i r Hr.
      apply list_lookup_imap_Some in Hr as (row & Hrow & ->).
      apply Forall_drop. apply Forall_lookup. intros j x Hx. apply (Hcells i j x).
      unfold getcell. rewrite Hrow. exact Hx.
Qed.

Lemma condensed_distances_witness :
  exists condensed_dist,
    squareform (fill_diagonal 0 (to_distance (zeros 3 3))) = Ok condensed_dist
    /\ 2 * length condensed_dist = 3 * (3 - 1)
    /\ Forall (fun d => (0 <= d)%Q /\ (d <= 1)%Q) condensed_dist.
Proof. exact (condensed_distances 3 (zeros 3 3) (sim_invariant_zeros 3)). Defined.

Lemma leaves_nonempty d : 1 <= length (leaves d).
Proof. induction d as [k|h l IHl r IHr]; simpl; [lia|]. rewrite length_app. lia. Qed.

(** The counter grows by at most one per leaf, and not at all inside a cluster. *)
Lemma process_counter cutoff d inside st :
  (process cutoff inside d st).1 <= st.1 + (if inside then 0 else length (leaves d)).
Proof.
  revert inside st. induction d as [k|h l IHl r IHr]; intros inside st.
  - destruct st as [nc T]. destruct inside; simpl; lia.
  - unfold process. rewrite cluster_monocrit_node. cbn zeta.
    set (found := negb inside && _).
    set (st0 := (if found then S st.1 else st.1, st.2)).
    assert (H0 : st0.1 + (if inside || found then 0 else length (leaves l) + length (leaves r))
                 <= st.1 + (if inside then 0 else length (leaves (Node h l r)))).
    { unfold st0. cbn [fst leaves]. rewrite length_app.
      pose proof (leaves_nonempty l). unfold found.
      destruct inside; cbn [negb andb orb]; [lia|]. destruct (Qle_bool _ _); cbn; lia. }
    pose proof (IHl (inside || found) st0) as Hl0.
    pose proof (IHr (inside || found) (process cutoff (inside || found) l st0)) as Hr1.
    pose proof (IHr (inside || found) st0) as Hr0.
    pose proof (IHl (inside || found) (process cutoff (inside || found) r st0)) as Hl1.
    destruct (inside || found); destruct l, r; lia.
Qed.

Lemma hierarchical_clustering_inv (linkage : list Q -> result dendrogram) sim_matrix t ids Z :
  hierarchical_clustering linkage sim_matrix t = Ok (ids, Z) ->
  is_valid_linkage Z = true /\ fcluster Z t = Ok ids.
Proof.
  unfold hierarchical_clustering.
  destruct (squareform _) as [y|e]; [|discriminate]. cbn [mbind result_bind].
  destruct (linkage y) as [Z'|e]; [|discriminate]. cbn [mbind result_bind].
  destruct (fcluster Z' t) as [ids'|e] eqn:E; [|discriminate]. cbn [mbind result_bind].
  intros [= <- <-]. split; [|exact E].
  unfold fcluster in E. destruct (is_valid_linkage Z'); [reflexivity|discriminate].
Qed.

(** X7. The cluster ids form a partition of the records: one id per
    record, between 1 and the number of records, and two records share an
    id exactly when some node of the tree above both has all its merge
    distances within the threshold. *)
Theorem cluster_ids_partition (linkage : list Q -> result dendrogram)
    sim_matrix distance_threshold ids Z :
  hierarchical_clustering linkage sim_matrix distance_threshold = Ok (ids, Z) ->
  length ids = length (leaves Z)
  /\ (forall i, i < length ids -> exists x, ids !! i = Some x /\ 1 <= x <= length ids)
  /\ (forall i j, i < length ids -> j < length ids ->
        (ids !! i = ids !! j <-> same_cluster distance_threshold Z i j)).
Proof.
  intros H. apply hierarchical_clustering_inv in H as [Hvalid Hids].
  destruct (fcluster_same_cluster Z distance_threshold Hvalid) as (ids' & E & Hlen & Hsame).
  rewrite Hids in E. injection E as <-.
  split; [exact Hlen|]. split; [|exact Hsame].
  intros i Hi. unfold fcluster in Hids. rewrite Hvalid in Hids. injection Hids as Hids.
  destruct (is_valid_linkage_spec Z Hvalid) as [Hnd Hmem].
  set (T0 := replicate (length (leaves Z)) 0) in *.
  destruct (process_outside distance_threshold Z 0 T0 Hnd)
    as (nc' & T' & E & _ & _ & _ & Hin & _).
  { unfold T0. rewrite length_replicate. apply Forall_forall. intros k. apply Hmem. }
  pose proof (process_counter distance_threshold Z false (0, T0)) as Hcount.
  rewrite E in Hcount. cbn [fst] in Hcount.
  assert (E' : cluster_monocrit distance_threshold false Z (0, T0) = (nc', T')).
  { destruct Z; [discriminate|exact E]. }
  rewrite E' in Hids. cbn [snd] in Hids. subst T'.
  destruct (Hin i) as (x & Hx & Hr); [apply Hmem; lia|].
  exists x. split; [exact Hx|lia].
Qed.

Lemma cluster_ids_partition_witness :
  length [1; 1; 2] = length (leaves example_tree)
  /\ (forall i, i < length [1; 1; 2] ->
        exists x, [1; 1; 2] !! i = Some x /\ 1 <= x <= length [1; 1; 2])
  /\ (forall i j, i < length [1; 1; 2] -> j < length [1; 1; 2] ->
        ([1; 1; 2] !! i = [1; 1; 2] !! j <-> same_cluster (15 # 100) example_tree i j)).
Proof.
  apply (cluster_ids_partition linkage_average example_sim (15 # 100) [1; 1; 2] example_tree).
  reflexivity.
Defined.

Lemma cluster_monocrit_leader cutoff h l r nc T :
  Qle_bool (Qmax_with (Qmax_with h (max_dist l)) (max_dist r)) cutoff = true ->
  cluster_monocrit cutoff false (Node h l r) (nc, T)
  = cluster_monocrit cutoff true (Node h l r) (S nc, T).
Proof. intros H. cbn [cluster_monocrit negb andb orb fst snd]. rewrite H. reflexivity. Qed.

(** X8. A threshold at or above the largest merge distance puts all the
    records in one cluster, numbered 1. *)
Theorem single_cluster_above_root (linkage : list Q -> result dendrogram)
    sim_matrix distance_threshold ids Z h :
  hierarchical_clustering linkage sim_matrix distance_threshold = Ok (ids, Z) ->
  max_dist Z = Some h ->
  (h <= distance_threshold)%Q ->
  forall i, i < length ids -> ids !! i = Some 1.
Proof.
  intros H Hmax Hle. apply hierarchical_clustering_inv in H as [Hvalid Hids].
  destruct (fcluster_same_cluster Z distance_threshold Hvalid) as (ids' & E & Hlen & _).
  rewrite Hids in E. injection E as <-.
  destruct (is_valid_linkage_spec Z Hvalid) as [Hnd Hmem].
  unfold fcluster in Hids. rewrite Hvalid in Hids. injection Hids as Hids.
  destruct Z as [k|h0 l r]; [discriminate|]. cbn [max_dist] in Hmax. injection Hmax as Hmax.
  rewrite cluster_monocrit_leader in Hids by (rewrite Hmax; now apply Qle_bool_iff).
  set (T0 := replicate (length (leaves (Node h0 l r))) 0) in *.
  destruct (process_inside distance_threshold (Node h0 l r) 1 T0) as (T' & E & _ & Hp).
  { unfold T0. rewrite length_replicate. apply Forall_forall. intros k. apply Hmem. }
  unfold process in E. rewrite E in Hids. cbn [snd] in Hids. subst T'.
  intros i Hi. rewrite Hp. rewrite decide_True; [reflexivity|]. apply Hmem. lia.
Qed.

Lemma single_cluster_above_root_witness :
  hierarchical_clustering linkage_average example_sim (8 # 10) = Ok ([1; 1; 1], example_tree)
  /\ [1; 1; 1] !! 0 = Some 1
  /\ [1; 1; 1] !! 2 = Some 1.
Proof.
  split; [reflexivity|].
  split;
    apply (single_cluster_above_root linkage_average example_sim (8 # 10) [1; 1; 1]
             example_tree (3 # 4));
    [reflexivity | reflexivity | discriminate | simpl; lia
    |reflexivity | reflexivity | discriminate | simpl; lia].
Defined.

Lemma Qmax_with_ge x o : (x <= Qmax_with x o)%Q.
Proof.
  unfold Qmax_with. destruct o as [y|]; [|apply Qle_refl].
  destruct (Qle_bool x y) eqn:E; [now apply Qle_bool_iff|apply Qle_refl].
Qed.

Lemma same_cluster_below_merges t d i j :
  Forall (fun h => (t < h)%Q) (heights d) -> same_cluster t d i j -> i = j.
Proof.
  induction d as [k|h l IHl r IHr]; simpl; intros Hh.
  - intros [-> ->]. reflexivity.
  - apply Forall_cons in Hh as [Hh Hrest]. apply Forall_app in Hrest as [Hl Hr].
    destruct (Qle_bool _ t) eqn:E.
    + apply Qle_bool_iff in E. exfalso.
      pose proof (Qmax_with_ge h (max_dist l)) as H1.
      pose proof (Qmax_with_ge (Qmax_with h (max_dist l)) (max_dist r)) as H2.
      apply (Qlt_irrefl t). eapply Qlt_le_trans; [exact Hh|].
      eapply Qle_trans; [exact H1|]. eapply Qle_trans; [exact H2|exact E].
    + intros [H|H]; [now apply IHl|now apply IHr].
Qed.

(** X9. A threshold below every merge distance leaves every record alone:
    the cluster ids are pairwise distinct. *)
Theorem singletons_below_merges (linkage : list Q -> result dendrogram)
    sim_matrix distance_threshold ids Z :
  hierarchical_clustering linkage sim_matrix distance_threshold = Ok (ids, Z) ->
  Forall (fun h => (distance_threshold < h)%Q) (heights Z) ->
  NoDup ids.
Proof.
  intros H Hh. apply hierarchical_clustering_inv in H as [Hvalid Hids].
  destruct (fcluster_same_cluster Z distance_threshold Hvalid) as (ids' & E & Hlen & Hsame).
  rewrite Hids in E. injection E as <-.
  apply NoDup_alt. intros i j x Hi Hj.
  apply (same_cluster_below_merges distance_threshold Z); [exact Hh|].
  apply Hsame; [eapply lookup_lt_Some; eauto|eapply lookup_lt_Some; eauto|congruence].
Qed.

Lemma singletons_below_merges_witness : NoDup [1; 2; 3].
Proof.
  apply (singletons_below_merges linkage_average example_sim (5 # 100) [1; 2; 3] example_tree).
  - reflexivity.
  - repeat constructor.
Defined.

End ClustererFacts.

(** ** Representatives and attribute conflicts *)

Module FrameFacts.
Import Frame.

(** *** Blocks of results *)

Lemma traverse_Ok {A B} (f : A -> result B) xs ys :
  traverse f xs = Ok ys <-> Forall2 (fun x y => f x = Ok y) xs ys.
Proof.
  revert ys. induction xs as [|x xs IH]; intros ys; simpl.
  - split; [intros [= <-]; constructor|intros H; inversion H; reflexivity].
  - destruct (f x) as [y|e] eqn:Ef; cbn [mbind result_bind].
    + destruct (traverse f xs) as [ys'|e] eqn:Et; cbn [mbind result_bind].
      * split.
        -- intros [= <-]. constructor; [exact Ef|]. now apply IH.
        -- intros H. inversion H as [|? y0 ? ys0 Hy Hys]; subst.
           apply IH in Hys. congruence.
      * split; [discriminate|]. intros H. inversion H as [|? y0 ? ys0 Hy Hys]; subst.
        apply IH in Hys. discriminate.
    + split; [discriminate|]. intros H. inversion H; subst. congruence.
Qed.

Lemma for_in_blocks {A B} (body : A -> list B -> result (list B)) (f : A -> result (list B)) xs acc :
  (forall x acc, body x acc = (blk ← f x; Ok (acc ++ blk))) ->
  for_in xs body acc = (blocks ← traverse f xs; Ok (acc ++ concat blocks)).
Proof.
  intros Hbody. revert acc. induction xs as [|x xs IH]; intros acc; simpl.
  - now rewrite app_nil_r.
  - rewrite Hbody. destruct (f x) as [blk|e]; cbn [mbind result_bind]; [|reflexivity].
    rewrite IH. destruct (traverse f xs) as [blocks|e]; cbn [mbind result_bind];
      [|reflexivity].
    simpl. now rewrite app_assoc.
Qed.

Lemma check_column_block cid g lc fc col acc :
  check_column cid g lc fc col acc
  = (blk ← column_block cid g lc fc col; Ok (acc ++ blk)).
Proof.
  unfold column_block, check_column.
  destruct (negb _); [cbn; now rewrite app_nil_r|].
  destruct (dropna _) as [|v vs]; [cbn; now rewrite app_nil_r|].
  destruct (bool_decide (col ∈ lc)).
  - destruct (traverse set_of (v :: vs)) as [lists|e]; [|reflexivity].
    cbn [mbind result_bind]. destruct (bool_decide _); cbn; [reflexivity|now rewrite app_nil_r].
  - destruct (unique (v :: vs)) as [us|e]; [|reflexivity].
    cbn [mbind result_bind]. destruct (1 <? length us); cbn; [reflexivity|now rewrite app_nil_r].
Qed.

Lemma validate_blocks df cluster_col lc filter_cols :
  validate_cluster_attributes df cluster_col lc filter_cols
  = if bool_decide ("name" ∈ as_list filter_cols) then Raise AssertionError
    else
      groups ← groupby df cluster_col;
      blocks ← traverse (group_block (columns df) lc (as_list filter_cols)) groups;
      Ok (concat blocks).
Proof.
  unfold validate_cluster_attributes. destruct (bool_decide _); [reflexivity|].
  destruct (groupby df cluster_col) as [groups|e]; [|reflexivity]. cbn [mbind result_bind].
  rewrite (for_in_blocks _ (group_block (columns df) lc (as_list filter_cols))).
  - reflexivity.
  - intros [k g] acc. unfold group_block. cbn [fst snd].
    rewrite (for_in_blocks _ (column_block k g lc (as_list filter_cols)))
      by (intros col acc'; apply check_column_block).
    now destruct (traverse _ (columns df)).
Qed.

(** A block holds conflicts of its own cluster and column only. *)
Lemma column_block_tag cid g lc fc col blk :
  column_block cid g lc fc col = Ok blk ->
  Forall (fun c => cluster_id c = cid /\ attribute c = col) blk /\ length blk <= 1.
Proof.
  unfold column_block, check_column.
  destruct (negb _); [intros [= <-]; split; [constructor|simpl; lia]|].
  destruct (dropna _) as [|v vs]; [intros [= <-]; split; [constructor|simpl; lia]|].
  destruct (bool_decide (col ∈ lc)).
  - destruct (traverse set_of (v :: vs)) as [lists|e]; [|discriminate].
    cbn [mbind result_bind]. destruct (bool_decide _); intros [= <-]; simpl;
      split; repeat constructor.
  - destruct (unique (v :: vs)) as [us|e]; [|discriminate].
    cbn [mbind result_bind]. destruct (1 <? length us); intros [= <-]; simpl;
      split; repeat constructor.
Qed.

Section Tagged.
Context {A B : Type} (tag : B -> A).

Lemma tagged_elem_of xs blocks b :
  tagged tag xs blocks -> b ∈ concat blocks -> tag b ∈ xs.
Proof.
  induction 1 as [|x blk xs blocks Hblk _ IH]; simpl; [intros H; inversion H|].
  rewrite elem_of_app. intros [Hb|Hb].
  - rewrite Forall_forall in Hblk. rewrite (Hblk b Hb). left.
  - right. now apply IH.
Qed.

Lemma tagged_sorted (RA : A -> A -> Prop) (RB : B -> B -> Prop) xs blocks :
  tagged tag xs blocks ->
  StronglySorted RA xs ->
  Forall (StronglySorted RB) blocks ->
  (forall b1 b2, b1 ∈ concat blocks -> b2 ∈ concat blocks -> RA (tag b1) (tag b2) -> RB b1 b2) ->
  StronglySorted RB (concat blocks).
Proof.
  induction 1 as [|x blk xs blocks Hblk Htag IH]; intros Hxs Hsorted Hcross; simpl;
    [constructor|].
  apply StronglySorted_cons in Hxs as [Hx Hxs].
  apply Forall_cons in Hsorted as [Hs1 Hs2].
  apply StronglySorted_app. split; [|split]; [|exact Hs1|].
  - intros b1 b2 Hb1 Hb2. apply Hcross.
    + simpl. apply elem_of_app. now left.
    + simpl. apply elem_of_app. now right.
    + rewrite Forall_forall in Hblk. rewrite (Hblk b1 Hb1).
      rewrite Forall_forall in Hx. apply Hx. now apply (tagged_elem_of xs blocks).
  - apply IH; [exact Hxs|exact Hs2|].
    intros b1 b2 Hb1 Hb2. apply Hcross; simpl; apply elem_of_app; now right.
Qed.

End Tagged.

Lemma StronglySorted_on {A} (R R' : A -> A -> Prop) l :
  StronglySorted R l ->
  (forall a b, a ∈ l -> b ∈ l -> R a b -> R' a b) ->
  StronglySorted R' l.
Proof.
  induction 1 as [|x l Hl IH Hx]; intros Himp; constructor.
  - apply IH. intros a b Ha Hb. apply Himp; now right.
  - rewrite Forall_forall in *. intros b Hb. apply Himp; [left|now right|now apply Hx].
Qed.

Lemma position_sorted {A} `{EqDecision A} (l : list A) :
  NoDup l -> StronglySorted (fun a b => position a l < position b l) l.
Proof.
  induction 1 as [|x l Hx Hl IH]; constructor.
  - apply (StronglySorted_on _ _ _ IH). intros a b Ha Hb Hab. simpl.
    rewrite !decide_False; [lia| |]; intros ->; contradiction.
  - apply Forall_forall. intros b Hb. simpl. rewrite decide_True by reflexivity.
    rewrite decide_False; [lia|]. intros ->. contradiction.
Qed.

Lemma insert_key_elem_of k keys x : x ∈ insert_key k keys <-> x = k \/ x ∈ keys.
Proof.
  induction keys as [|y keys IH]; simpl.
  - rewrite list_elem_of_singleton. rewrite elem_of_nil. tauto.
  - destruct (Z.ltb_spec k y); [rewrite !elem_of_cons; tauto|].
    destruct (Z.eqb_spec k y) as [->|Hne]; [rewrite !elem_of_cons; tauto|].
    rewrite !elem_of_cons, IH. tauto.
Qed.

Lemma insert_key_sorted k keys :
  StronglySorted Z.lt keys -> StronglySorted Z.lt (insert_key k keys).
Proof.
  induction 1 as [|y keys Hkeys IH Hy]; simpl; [repeat constructor|].
  destruct (Z.ltb_spec k y).
  - constructor; [now constructor|]. constructor; [exact H|].
    rewrite Forall_forall in *. intros z Hz. specialize (Hy z Hz). lia.
  - destruct (Z.eqb_spec k y) as [->|Hne]; [now constructor|].
    constructor; [exact IH|]. apply Forall_forall. intros z Hz.
    apply insert_key_elem_of in Hz as [->|Hz]; [lia|].
    rewrite Forall_forall in Hy. now apply Hy.
Qed.

Lemma sorted_keys_sorted keys : StronglySorted Z.lt (sorted_keys keys).
Proof.
  induction keys as [|[k|] keys IH]; simpl; [constructor| |exact IH].
  now apply insert_key_sorted.
Qed.

Lemma sorted_keys_elem_of keys k : k ∈ sorted_keys keys <-> Some k ∈ keys.
Proof.
  induction keys as [|[k'|] keys IH]; simpl.
  - rewrite !elem_of_nil. tauto.
  - rewrite insert_key_elem_of, elem_of_cons, IH. split; intros [H|H]; auto; left; congruence.
  - rewrite elem_of_cons, IH. split; [auto|]. intros [H|H]; [discriminate|exact H].
Qed.

(** The report, block by block. *)
Lemma validate_report df cluster_col lc filter_cols report :
  validate_cluster_attributes df cluster_col lc filter_cols = Ok report ->
  ("name" ∉ as_list filter_cols)
  /\ exists groups blocks,
       groupby df cluster_col = Ok groups
       /\ Forall2 (fun kg blk => group_block (columns df) lc (as_list filter_cols) kg = Ok blk)
                  groups blocks
       /\ report = concat blocks.
Proof.
  rewrite validate_blocks. case_bool_decide as Hname; [discriminate|].
  intros H. split; [exact Hname|].
  destruct (groupby df cluster_col) as [groups|e]; [|discriminate]. cbn [mbind result_bind] in H.
  destruct (traverse _ groups) as [blocks|e] eqn:Et; [|discriminate].
  cbn in H. injection H as <-. apply traverse_Ok in Et. eauto.
Qed.

Lemma group_block_inv cols lc fc kg blk :
  group_block cols lc fc kg = Ok blk ->
  exists blocks,
    Forall2 (fun col b => column_block kg.1 kg.2 lc fc col = Ok b) cols blocks
    /\ blk = concat blocks.
Proof.
  unfold group_block. destruct (traverse _ cols) as [blocks|e] eqn:Et; [|discriminate].
  cbn. intros [= <-]. apply traverse_Ok in Et. eauto.
Qed.

Lemma fst_fmap_pair {A B} (f : A -> B) (l : list A) :
  fst <$> ((fun k => (k, f k)) <$> l) = l.
Proof. induction l as [|x l IH]; [reflexivity|]. cbn. now rewrite IH. Qed.

Lemma groupby_keys df cluster_col groups :
  groupby df cluster_col = Ok groups ->
  StronglySorted Z.lt (fst <$> groups).
Proof.
  unfold groupby. destruct (getcol df cluster_col) as [cells|e]; [|discriminate].
  cbn [mbind result_bind]. destruct (traverse group_key cells) as [keys|e]; [|discriminate].
  cbn. intros [= <-]. rewrite fst_fmap_pair. apply sorted_keys_sorted.
Qed.

Lemma group_block_sorted df lc fc kg blk :
  NoDup (columns df) ->
  group_block (columns df) lc fc kg = Ok blk ->
  Forall (fun c => cluster_id c = kg.1) blk
  /\ reported_in_order (frame_rank df) blk.
Proof.
  intros Hnd H. apply group_block_inv in H as (blocks & Hblocks & ->).
  assert (Htag : Forall2 (fun col b =>
              Forall (fun c => cluster_id c = kg.1 /\ attribute c = col) b /\ length b <= 1)
            (columns df) blocks).
  { eapply Forall2_impl; [exact Hblocks|]. intros col b. apply column_block_tag. }
  split.
  - apply Forall_concat. eapply Forall2_Forall_r; [exact Htag|].
    apply Forall_forall. intros col _ b [Hb _]. eapply Forall_impl; [exact Hb|]. now intros ? [? ?].
  - unfold reported_in_order.
    apply (tagged_sorted attribute
             (fun a b => position a (columns df) < position b (columns df)) _ (columns df)).
    + eapply Forall2_impl; [exact Htag|]. intros col b [Hb _].
      eapply Forall_impl; [exact Hb|]. now intros ? [? ?].
    + now apply position_sorted.
    + eapply Forall2_Forall_r; [exact Htag|]. apply Forall_forall.
      intros col _ b [_ Hlen]. destruct b as [|c [|c' b]]; simpl in Hlen; try lia;
        repeat constructor.
    + intros c1 c2 Hc1 Hc2 Hpos. right. cbn [frame_rank fst snd]. split; [|exact Hpos].
      assert (Hall : Forall (fun c => cluster_id c = kg.1) (concat blocks)).
      { apply Forall_concat. eapply Forall2_Forall_r; [exact Htag|].
        apply Forall_forall. intros col _ b [Hb _]. eapply Forall_impl; [exact Hb|]. now intros ? [? ?]. }
      rewrite Forall_forall in Hall. now rewrite (Hall c1 Hc1), (Hall c2 Hc2).
Qed.

(** C9 (amended). The report is ordered by ascending cluster id and, within
    a cluster, by the position of the attribute among the columns of the
    frame. *)
Theorem report_ordered_by_cluster_then_column df cluster_col list_columns filter_cols report :
  NoDup (columns df) ->
  validate_cluster_attributes df cluster_col list_columns filter_cols = Ok report ->
  reported_in_order (frame_rank df) report.
Proof.
  intros Hnd H. apply validate_report in H as (_ & groups & blocks & Hg & Hblocks & ->).
  apply groupby_keys in Hg.
  assert (Hb : Forall2 (fun k blk => Forall (fun c => cluster_id c = k) blk
                                     /\ reported_in_order (frame_rank df) blk)
                 (fst <$> groups) blocks).
  { apply Forall2_fmap_l. eapply Forall2_impl; [exact Hblocks|].
    intros kg blk. now apply group_block_sorted. }
  unfold reported_in_order.
  apply (tagged_sorted cluster_id Z.lt _ (fst <$> groups)).
  - eapply Forall2_impl; [exact Hb|]. now intros ? ? [? ?].
  - exact Hg.
  - eapply Forall2_Forall_r; [exact Hb|]. apply Forall_forall. intros k _ blk [_ Hs]. exact Hs.
  - intros c1 c2 _ _ Hlt. now left.
Qed.

Lemma filter_nil_tag {A B} (tag : B -> A) (P : B -> bool) x x0 blk :
  Forall (fun b => tag b = x) blk -> x <> x0 ->
  (forall b, P b = true -> tag b = x0) ->
  List.filter P blk = [].
Proof.
  intros Hblk Hne HP. induction Hblk as [|b blk Hb _ IH]; [reflexivity|].
  simpl. destruct (P b) eqn:E; [|exact IH]. apply HP in E. congruence.
Qed.

Lemma filter_tagged {A B} (tag : B -> A) (P : B -> bool) xs blocks p x0 blk0 :
  tagged tag xs blocks -> NoDup xs ->
  xs !! p = Some x0 -> blocks !! p = Some blk0 ->
  (forall b, P b = true -> tag b = x0) ->
  List.filter P (concat blocks) = List.filter P blk0.
Proof.
  intros Htag. revert p. induction Htag as [|x blk xs blocks Hblk Htag IH];
    intros p Hnd Hx Hb HP; [discriminate|].
  apply NoDup_cons in Hnd as [Hx_notin Hnd]. simpl. rewrite List.filter_app.
  destruct p as [|p]; simpl in Hx, Hb.
  - injection Hx as ->. injection Hb as ->.
    enough (Hrest : List.filter P (concat blocks) = []) by (rewrite Hrest; apply app_nil_r).
    clear IH Hblk. induction Htag as [|x blk xs blocks Hblk Htag IH]; [reflexivity|].
    simpl. rewrite List.filter_app. apply not_elem_of_cons in Hx_notin as [Hne Hnotin].
    apply NoDup_cons in Hnd as [_ Hnd].
    rewrite (filter_nil_tag tag P x x0 blk Hblk) by (congruence || assumption).
    now apply IH.
  - rewrite (filter_nil_tag tag P x x0 blk Hblk); [now apply (IH p)| |exact HP].
    intros ->. apply Hx_notin. eapply list_elem_of_lookup_2. exact Hx.
Qed.

Lemma filter_all {B} (P : B -> bool) blk :
  Forall (fun b => P b = true) blk -> List.filter P blk = blk.
Proof.
  induction 1 as [|b blk Hb _ IH]; [reflexivity|]. simpl. now rewrite Hb, IH.
Qed.

Lemma StronglySorted_lt_NoDup (l : list Z) : StronglySorted Z.lt l -> NoDup l.
Proof.
  induction 1 as [|x l _ IH Hx]; constructor; [|exact IH].
  intros Hin. rewrite Forall_forall in Hx. specialize (Hx x Hin). lia.
Qed.

(** The group of a key holds the records of that cluster. *)
Lemma rows_of_key_rows cluster_col rs keys k :
  Forall2 (fun r key => group_key (cell r cluster_col) = Ok key) rs keys ->
  snd <$> rows_of_key keys rs k
  = List.filter (fun r => bool_decide (cell r cluster_col = PInt k)) rs.
Proof.
  unfold rows_of_key. generalize 0 as start.
  intros start H. revert start. induction H as [|r key rs keys Hkey _ IH]; intros start;
    [reflexivity|].
  cbn [length seq zip zip_with omap list_omap List.filter].
  specialize (IH (S start)).
  destruct (cell r cluster_col) as [|z|s|l] eqn:Ec; simpl in Hkey; try discriminate;
    injection Hkey as <-.
  - rewrite bool_decide_eq_false_2 by discriminate.
    rewrite (bool_decide_eq_false_2 (PNone = PInt k)) by discriminate. exact IH.
  - destruct (decide (z = k)) as [->|Hne].
    + rewrite !bool_decide_eq_true_2 by reflexivity. cbn. now rewrite IH.
    + rewrite bool_decide_eq_false_2 by congruence.
      rewrite (bool_decide_eq_false_2 (PInt z = PInt k)) by congruence. exact IH.
Qed.

Lemma groupby_inv df cluster_col groups :
  groupby df cluster_col = Ok groups ->
  exists keys,
    Forall2 (fun r key => group_key (cell r cluster_col) = Ok key) (rows df) keys
    /\ groups = (fun k => (k, rows_of_key keys (rows df) k)) <$> sorted_keys keys.
Proof.
  unfold groupby, getcol. destruct (bool_decide _); [|discriminate]. cbn [mbind result_bind].
  destruct (traverse group_key _) as [keys|e] eqn:Et; [|discriminate].
  cbn. intros [= <-]. exists keys. split; [|reflexivity].
  apply traverse_Ok in Et. now apply Forall2_fmap_l in Et.
Qed.

(** *** The payloads *)

Lemma distinct_elem_of values v : v ∈ distinct values <-> v ∈ values.
Proof.
  induction values as [|w values IH]; simpl; [reflexivity|].
  rewrite !elem_of_cons, list_elem_of_In, List.filter_In, <- list_elem_of_In, IH.
  rewrite negb_true_iff, bool_decide_eq_false.
  destruct (decide (v = w)); tauto.
Qed.

Lemma distinct_NoDup values : NoDup (distinct values).
Proof.
  induction values as [|w values IH]; simpl; constructor.
  - rewrite list_elem_of_In, List.filter_In, negb_true_iff, bool_decide_eq_false. tauto.
  - apply NoDup_ListNoDup, List.NoDup_filter, NoDup_ListNoDup, IH.
Qed.

Lemma distinct_several values :
  1 < length (distinct values) <-> exists v w, v ∈ values /\ w ∈ values /\ v <> w.
Proof.
  split.
  - destruct (distinct values) as [|v [|w rest]] eqn:E; simpl; try lia. intros _.
    exists v, w. rewrite <- (distinct_elem_of values v), <- (distinct_elem_of values w), E.
    repeat split; [left|right; left|].
    pose proof (distinct_NoDup values) as Hnd. rewrite E in Hnd.
    apply NoDup_cons in Hnd as [Hv _]. intros ->. apply Hv. left.
  - intros (v & w & Hv & Hw & Hne). rewrite <- distinct_elem_of in Hv, Hw.
    destruct (distinct values) as [|a [|b rest]]; simpl; try lia.
    + inversion Hv.
    + apply list_elem_of_singleton in Hv, Hw. congruence.
Qed.

Lemma intersection_all_elem_of (sets : list (gset str)) x :
  sets <> [] -> (x ∈ intersection_all sets <-> Forall (fun s => x ∈ s) sets).
Proof.
  destruct sets as [|s rest]; [congruence|]. intros _. simpl.
  revert s. induction rest as [|s' rest IH]; intros s; simpl.
  - rewrite Forall_singleton. reflexivity.
  - rewrite IH, !Forall_cons, elem_of_intersection. tauto.
Qed.

(** The block of one cluster and one validated column, from the values. *)
Lemma column_block_values df cluster_col keys cid lc fc col blk :
  Forall2 (fun r key => group_key (cell r cluster_col) = Ok key) (rows df) keys ->
  col ∈ fc ->
  column_block cid (rows_of_key keys (rows df) cid) lc fc col = Ok blk ->
  let values := cluster_values df cluster_col cid col in
  (values = [] -> blk = [])
  /\ (col ∉ lc ->
        blk = if 1 <? length (distinct values)
              then [{| cluster_id := cid; attribute := col;
                       conflicting_values := Scalars (distinct values) |}]
              else [])
  /\ (col ∈ lc -> values <> [] ->
        exists sets,
          Forall2 (fun v s => set_of v = Ok s) values sets
          /\ blk = if bool_decide (intersection_all sets = ∅)
                   then [{| cluster_id := cid; attribute := col;
                            conflicting_values := Sets sets |}]
                   else []).
Proof.
  intros Hkeys Hcol. unfold column_block, check_column.
  rewrite bool_decide_eq_true_2 by exact Hcol. cbn [negb].
  assert (Hvals : dropna ((fun ir : nat * record => cell ir.2 col)
                            <$> rows_of_key keys (rows df) cid)
                  = cluster_values df cluster_col cid col).
  { unfold cluster_values, cluster_rows.
    rewrite <- (rows_of_key_rows cluster_col (rows df) keys cid Hkeys).
    now rewrite <- list_fmap_compose. }
  rewrite Hvals. cbn zeta.
  destruct (cluster_values df cluster_col cid col) as [|v vs] eqn:Ev.
  - intros [= <-]. split; [reflexivity|]. split; [reflexivity|]. intros _ Hne. congruence.
  - case_bool_decide as Hlc.
    + destruct (traverse set_of (v :: vs)) as [sets|e] eqn:Et; [|discriminate].
      cbn [mbind result_bind]. intros Hblk. split; [discriminate|]. split; [contradiction|].
      intros _ _. exists sets. apply traverse_Ok in Et. split; [exact Et|].
      revert Hblk. cbn zeta. case_bool_decide; intros [= <-]; reflexivity.
    + unfold unique. destruct (existsb _ _); [discriminate|]. cbn [mbind result_bind].
      intros Hblk. split; [discriminate|]. split; [|contradiction].
      intros _. revert Hblk. destruct (1 <? _); intros [= <-]; reflexivity.
Qed.

(** C1. For every cluster and every validated attribute of the frame: no
    conflict when all values are null; for a scalar attribute exactly one
    conflict, carrying the distinct values, when two non-null values differ
    and none otherwise; for a list-valued attribute exactly one conflict,
    carrying the set of every record, when no element is common to all the
    sets and none otherwise. *)
Theorem conflicts_of_cluster_attribute df cluster_col list_columns filter_cols report cid col :
  NoDup (columns df) ->
  validate_cluster_attributes df cluster_col list_columns filter_cols = Ok report ->
  (exists r, r ∈ rows df /\ cell r cluster_col = PInt cid) ->
  col ∈ as_list filter_cols ->
  col ∈ columns df ->
  let values := cluster_values df cluster_col cid col in
  let conflict_with payload :=
    {| cluster_id := cid; attribute := col; conflicting_values := payload |} in
  (values = [] -> reported_for cid col report = [])
  /\ (col ∉ list_columns ->
        ((exists v w, v ∈ values /\ w ∈ values /\ v <> w) ->
           reported_for cid col report = [conflict_with (Scalars (distinct values))])
        /\ (~ (exists v w, v ∈ values /\ w ∈ values /\ v <> w) ->
           reported_for cid col report = [])
        /\ NoDup (distinct values)
        /\ (forall v, v ∈ distinct values <-> v ∈ values))
  /\ (col ∈ list_columns ->
        exists sets,
          Forall2 (fun v s => set_of v = Ok s) values sets
          /\ ((forall x, ~ Forall (fun s => x ∈ s) sets) ->
                 reported_for cid col report = [conflict_with (Sets sets)])
          /\ ((exists x, Forall (fun s => x ∈ s) sets) ->
                 reported_for cid col report = [])).
Proof.
  intros Hnd Hrun (r & Hr & Hcid) Hfc Hcols values conflict_with.
  apply validate_report in Hrun as (_ & groups & blocks & Hgroups & Hblocks & ->).
  pose proof (groupby_keys _ _ _ Hgroups) as Hsorted.
  apply groupby_inv in Hgroups as (keys & Hkeys & ->).
  (* the block of the cluster *)
  assert (Hkey : cid ∈ sorted_keys keys).
  { apply sorted_keys_elem_of. apply list_elem_of_lookup in Hr as [i Hi].
    destruct (Forall2_lookup_l _ _ _ _ _ Hkeys Hi) as (key & Hk & Hgk).
    rewrite Hcid in Hgk. injection Hgk as <-. eapply list_elem_of_lookup_2. exact Hk. }
  apply list_elem_of_lookup in Hkey as [p Hp].
  set (g := rows_of_key keys (rows df) cid).
  assert (Hgp : ((fun k => (k, rows_of_key keys (rows df) k)) <$> sorted_keys keys) !! p
                = Some (cid, g)) by (now rewrite list_lookup_fmap, Hp).
  destruct (Forall2_lookup_l _ _ _ _ _ Hblocks Hgp) as (gblk & Hgblk & Hgb).
  assert (Hreported : reported_for cid col (concat blocks) = reported_for cid col gblk).
  { unfold reported_for.
    apply (filter_tagged cluster_id _ (sorted_keys keys) blocks p cid gblk).
    - rewrite <- (fst_fmap_pair (fun k => rows_of_key keys (rows df) k) (sorted_keys keys)).
      apply Forall2_fmap_l. eapply Forall2_impl; [exact Hblocks|].
      intros kg blk Hkg. now apply (group_block_sorted df) in Hkg as [Hkg _].
    - apply StronglySorted_lt_NoDup. now rewrite fst_fmap_pair in Hsorted.
    - exact Hp.
    - exact Hgblk.
    - intros c Hc. apply bool_decide_eq_true in Hc. tauto. }
  rewrite Hreported. clear Hreported.
  (* the block of the column within it *)
  apply group_block_inv in Hgb as (cblocks & Hcblocks & ->). cbn [fst snd] in Hcblocks.
  apply list_elem_of_lookup in Hcols as [q Hq].
  destruct (Forall2_lookup_l _ _ _ _ _ Hcblocks Hq) as (cblk & Hcblk & Hcb).
  assert (Htags : Forall2 (fun col' b =>
              Forall (fun c => cluster_id c = cid /\ attribute c = col') b)
            (columns df) cblocks).
  { eapply Forall2_impl; [exact Hcblocks|]. intros col' b Hb.
    now apply column_block_tag in Hb as [Hb _]. }
  assert (Hreported : reported_for cid col (concat cblocks) = cblk).
  { unfold reported_for.
    rewrite (filter_tagged attribute _ (columns df) cblocks q col cblk).
    - apply filter_all. destruct (Forall2_lookup_l _ _ _ _ _ Htags Hq) as (b & Hb & Hall).
      rewrite Hcblk in Hb. injection Hb as <-. eapply Forall_impl; [exact Hall|].
      intros c Hc. now apply bool_decide_eq_true.
    - eapply Forall2_impl; [exact Htags|]. intros col' b Hb.
      eapply Forall_impl; [exact Hb|]. now intros ? [? ?].
    - exact Hnd.
    - exact Hq.
    - exact Hcblk.
    - intros c Hc. apply bool_decide_eq_true in Hc. tauto. }
  rewrite Hreported. clear Hreported.
  destruct (column_block_values df cluster_col keys cid list_columns _ col cblk Hkeys Hfc Hcb)
    as (Hnone & Hscalar & Hlist).
  fold values in Hnone, Hscalar, Hlist.
  split; [exact Hnone|]. split.
  - intros Hlc. specialize (Hscalar Hlc).
    split; [|split; [|split; [apply distinct_NoDup|apply distinct_elem_of]]].
    + intros Hsev. apply distinct_several, Nat.ltb_lt in Hsev. now rewrite Hsev in Hscalar.
    + intros Hsev. rewrite <- distinct_several in Hsev.
      destruct (Nat.ltb_spec 1 (length (distinct values))); [contradiction|exact Hscalar].
  - intros Hlc. destruct (decide (values = [])) as [Hnil|Hvne].
    { exists []. rewrite Hnil. split; [constructor|]. split.
      - intros Hx. exfalso. apply (Hx []). constructor.
      - intros _. now apply Hnone. }
    destruct (Hlist Hlc Hvne) as (sets & Hsets & Hblk). exists sets.
    split; [exact Hsets|].
    assert (Hne : sets <> []).
    { intros ->. apply Forall2_nil_inv_r in Hsets. contradiction. }
    split.
    + intros Hempty. rewrite bool_decide_eq_true_2 in Hblk; [exact Hblk|].
      apply gset_leibniz. intros x. rewrite intersection_all_elem_of by exact Hne.
      rewrite elem_of_empty. split; [apply Hempty|contradiction].
    + intros [x Hx]. rewrite bool_decide_eq_false_2 in Hblk; [exact Hblk|].
      intros Hempty. apply (intersection_all_elem_of sets x Hne) in Hx.
      rewrite Hempty in Hx. now apply elem_of_empty in Hx.
Qed.

Lemma idxmax_from_first_longest (p : list (nat * nat)) (b : nat * nat) :
  exists x, idxmax_from (Some b) ((fun y => (y.1, Some y.2)) <$> p) = Some x
            /\ first_longest snd x (b :: p).
Proof.
  revert b. induction p as [|[i n] p IH]; intros [bi bn].
  - exists (bi, bn). split; [reflexivity|]. exists [], []. repeat split; constructor.
  - cbn [fmap list_fmap fst snd idxmax_from].
    destruct (Nat.ltb_spec bn n) as [Hlt|Hge].
    + destruct (IH (i, n)) as (x & Hx & l1 & l2 & Hl & H1 & H2). exists x. split; [exact Hx|].
      assert (Hn : n <= x.2).
      { destruct l1 as [|y l1'] eqn:El1; simpl in Hl.
        - injection Hl as Hx' _. rewrite <- Hx'. cbn. lia.
        - injection Hl as Hy _. apply List.Forall_inv in H1. rewrite <- Hy in H1. cbn in H1. lia. }
      exists ((bi, bn) :: l1), l2. split; [now rewrite Hl|]. split; [|exact H2].
      constructor; [|exact H1]. cbn [snd]. lia.
    + destruct (IH (bi, bn)) as (x & Hx & l1 & l2 & Hl & H1 & H2). exists x. split; [exact Hx|].
      destruct l1 as [|y l1]; simpl in Hl.
      * injection Hl as Hb Hp. exists [], ((i, n) :: l2). split; [cbn; congruence|].
        split; [constructor|]. constructor; [rewrite <- Hb; cbn; lia|exact H2].
      * injection Hl as Hb Hp. exists ((bi, bn) :: (i, n) :: l1), l2.
        split; [cbn; congruence|].
        split; [|exact H2]. apply Forall_cons in H1 as [Hy H1]. rewrite <- Hb in Hy. cbn in Hy.
        repeat constructor; cbn; [lia|lia|exact H1].
Qed.

(** *** The groups *)

Lemma rows_of_key_from start (rs : list record) (keys : list (option Z)) k :
  length keys = length rs ->
  let g := omap (fun '(i, key, r) => if bool_decide (key = Some k) then Some (i, r) else None)
                (zip (zip (seq start (length rs)) keys) rs) in
  (forall i r, (i, r) ∈ g <->
     exists p, i = start + p /\ rs !! p = Some r /\ keys !! p = Some (Some k))
  /\ StronglySorted by_label g.
Proof.
  revert start keys. induction rs as [|r0 rs IH]; intros start keys Hlen.
  - cbn. split; [|constructor]. intros i r. rewrite elem_of_nil. split; [tauto|].
    intros (p & _ & Hp & _). discriminate.
  - destruct keys as [|key keys]; [discriminate|]. injection Hlen as Hlen.
    cbn [length seq zip zip_with omap list_omap].
    destruct (IH (S start) keys Hlen) as [Hmem Hsorted]. cbn zeta in Hmem, Hsorted.
    assert (Hrest : forall i r,
      (exists p, i = start + p /\ (r0 :: rs) !! p = Some r /\ (key :: keys) !! p = Some (Some k))
      <-> (i = start /\ r = r0 /\ key = Some k)
          \/ (exists p, i = S start + p /\ rs !! p = Some r /\ keys !! p = Some (Some k))).
    { intros i r. split.
      - intros ([|p] & -> & Hr & Hk); simpl in Hr, Hk.
        + left. injection Hr as <-. injection Hk as ->. split; [lia|tauto].
        + right. exists p. split; [lia|tauto].
      - intros [(-> & -> & ->)|(p & -> & Hr & Hk)].
        + exists 0. split; [lia|]. split; reflexivity.
        + exists (S p). split; [lia|]. split; assumption. }
    case_bool_decide as Hkey.
    + split.
      * intros i r. rewrite elem_of_cons, Hmem, Hrest. split.
        -- intros [[= -> ->]|H]; [left; tauto|right; exact H].
        -- intros [(-> & -> & _)|H]; [left; reflexivity|right; exact H].
      * constructor; [exact Hsorted|]. apply Forall_forall. intros [i r] Hir.
        apply Hmem in Hir as (p & -> & _). unfold by_label. cbn. lia.
    + split; [|exact Hsorted].
      intros i r. rewrite Hmem, Hrest. split; [tauto|]. intros [(_ & _ & H)|H]; [contradiction|exact H].
Qed.

Lemma rows_of_key_spec (rs : list record) (keys : list (option Z)) k :
  length keys = length rs ->
  (forall i r, (i, r) ∈ rows_of_key keys rs k <->
     rs !! i = Some r /\ keys !! i = Some (Some k))
  /\ StronglySorted by_label (rows_of_key keys rs k).
Proof.
  intros Hlen. destruct (rows_of_key_from 0 rs keys k Hlen) as [Hmem Hsorted].
  split; [|exact Hsorted]. intros i r. unfold rows_of_key. rewrite Hmem. split.
  - intros (p & -> & H). exact H.
  - intros H. exists i. split; [reflexivity|exact H].
Qed.

Lemma find_by_label (g : group) i r :
  StronglySorted by_label g -> (i, r) ∈ g ->
  List.find (fun ir => ir.1 =? i) g = Some (i, r).
Proof.
  induction 1 as [|[j rj] g Hg IH Hj]; intros Hin; [inversion Hin|].
  cbn. destruct (Nat.eqb_spec j i) as [->|Hne].
  - apply elem_of_cons in Hin as [[= <-]|Hin]; [reflexivity|].
    rewrite Forall_forall in Hj. specialize (Hj _ Hin). unfold by_label in Hj. cbn in Hj. lia.
  - apply elem_of_cons in Hin as [[= -> ->]|Hin]; [congruence|]. now apply IH.
Qed.

(** The representative of a group of named records: the name at the first
    label among those of greatest length. *)
Lemma representative_first_longest (g : group) col_name :
  g <> [] ->
  StronglySorted by_label g ->
  Forall (fun ir => exists s, cell ir.2 col_name = PStr s) g ->
  exists x, representative g col_name = Ok (cell x.2 col_name)
            /\ first_longest (fun ir => name_length col_name ir.2) x g.
Proof.
  intros Hne Hsorted Hnames. unfold representative.
  set (pairs := (fun ir : nat * record => (ir.1, name_length col_name ir.2)) <$> g).
  assert (Hlens : traverse (fun ir : nat * record =>
                              n ← str_len (cell ir.2 col_name); Ok (ir.1, n)) g
                  = Ok ((fun y : nat * nat => (y.1, Some y.2)) <$> pairs)).
  { apply traverse_Ok. unfold pairs. apply Forall2_fmap_r, Forall2_fmap_r.
    apply Forall_Forall2_diag. eapply Forall_impl; [exact Hnames|].
    intros [i r] [s Hs]. change (cell r col_name = PStr s) in Hs. unfold name_length, compose.
    cbn [fst snd]. rewrite !Hs. reflexivity. }
  rewrite Hlens. cbn [mbind result_bind].
  destruct g as [|[i0 r0] g]; [congruence|].
  unfold pairs. cbn [fmap list_fmap fst snd]. unfold idxmax. cbn [idxmax_from fst snd].
  destruct (idxmax_from_first_longest
              ((fun ir : nat * record => (ir.1, name_length col_name ir.2)) <$> g)
              (i0, name_length col_name r0)) as ([i n] & Hx & l1 & l2 & Hl & H1 & H2).
  change (list_fmap _ _ ?f ?l) with (f <$> l). rewrite Hx. cbn [mbind result_bind].
  change ((i0, name_length col_name r0)
            :: ((fun ir : nat * record => (ir.1, name_length col_name ir.2)) <$> g))
    with ((fun ir : nat * record => (ir.1, name_length col_name ir.2)) <$> ((i0, r0) :: g)) in Hl.
  apply fmap_app_inv in Hl as (g1 & g2' & -> & Hg2 & Hg).
  symmetry in Hg2. apply fmap_cons_inv in Hg2 as ([j r] & g2 & Hy & -> & ->).
  cbn [fst snd] in Hy. injection Hy as -> ->.
  exists (j, r). split.
  - unfold loc. rewrite (find_by_label _ j r); [reflexivity|exact Hsorted|].
    rewrite Hg. apply elem_of_app. right. left.
  - exists g1, g2. split; [exact Hg|]. cbn [snd] in H1, H2.
    rewrite Forall_fmap in H1, H2. split; [exact H1|exact H2].
Qed.

Lemma representatives_lookup groups col_name :
  NoDup (fst <$> groups) ->
  Forall (fun kg => exists rep, representative kg.2 col_name = Ok rep) groups ->
  forall m, exists m',
    representatives groups col_name m = Ok m'
    /\ forall k g, (k, g) ∈ groups ->
         exists rep, representative g col_name = Ok rep /\ m' !! k = Some rep.
Proof.
  induction groups as [|[k0 g0] groups IH]; intros Hnd Hreps m.
  - exists m. split; [reflexivity|]. intros k g H. inversion H.
  - cbn in Hnd. apply NoDup_cons in Hnd as [Hk0 Hnd].
    apply Forall_cons in Hreps as [[rep0 Hrep0] Hreps]. cbn [snd] in Hrep0.
    cbn [representatives]. rewrite Hrep0. cbn [mbind result_bind].
    assert (Hkeep : forall groups' m0,
              k0 ∉ (fst <$> groups') ->
              forall m1, representatives groups' col_name m0 = Ok m1 ->
              m1 !! k0 = m0 !! k0).
    { clear. induction groups' as [|[k g] groups' IH']; intros m0 Hk m1.
      - cbn. now intros [= <-].
      - cbn in Hk. apply not_elem_of_cons in Hk as [Hne Hk]. cbn [representatives].
        destruct (representative g col_name) as [rep|e]; [|discriminate].
        cbn [mbind result_bind]. intros H. rewrite (IH' _ Hk _ H).
        now apply lookup_insert_ne. }
    destruct (IH Hnd Hreps (<[k0 := rep0]> m)) as (m' & Hm' & Hlook).
    exists m'. split; [exact Hm'|]. intros k g Hin.
    apply elem_of_cons in Hin as [[= -> ->]|Hin].
    + exists rep0. split; [exact Hrep0|].
      rewrite (Hkeep groups _ Hk0 _ Hm'). apply lookup_insert_eq.
    + now apply Hlook.
Qed.

Lemma Forall_exists_Forall2 {A B} (P : A -> B -> Prop) l :
  Forall (fun x => exists y, P x y) l -> exists k, Forall2 P l k.
Proof.
  induction 1 as [|x l [y Hy] _ [k IH]]; [exists []; constructor|].
  exists (y :: k). now constructor.
Qed.

(** Writing back the integers a column already holds changes nothing. *)
Lemma setcol_same df col (zs : list Z) :
  col ∈ columns df ->
  Forall2 (fun r z => cell r col = PInt z) (rows df) zs ->
  setcol df col (PInt <$> zs) = df.
Proof.
  intros Hcol Hzs. unfold setcol. rewrite bool_decide_eq_true_2 by exact Hcol.
  destruct df as [cols rs]. cbn [columns rows] in *. f_equal.
  induction Hzs as [|r z rs zs Hr _ IH]; [reflexivity|].
  cbn [fmap list_fmap zip_with]. f_equal; [|exact IH].
  apply insert_id. unfold cell in Hr. destruct (r !! col) as [v|]; [|discriminate].
  cbn in Hr. now subst v.
Qed.

Lemma groupby_ints df cluster_col (zs : list Z) :
  cluster_col ∈ columns df ->
  Forall2 (fun r z => cell r cluster_col = PInt z) (rows df) zs ->
  groupby df cluster_col
  = Ok ((fun k => (k, rows_of_key (Some <$> zs) (rows df) k)) <$> sorted_keys (Some <$> zs)).
Proof.
  intros Hcol Hzs. unfold groupby, getcol. rewrite bool_decide_eq_true_2 by exact Hcol.
  cbn [mbind result_bind].
  assert (Hkeys : traverse group_key ((fun r => cell r cluster_col) <$> rows df)
                  = Ok (Some <$> zs)).
  { apply traverse_Ok. apply Forall2_fmap_l, Forall2_fmap_r.
    eapply Forall2_impl; [exact Hzs|]. intros r z Hr. cbn. now rewrite Hr. }
  now rewrite Hkeys.
Qed.

(** C2. Every record is annotated with the name of a record [k] of its own
    cluster whose name is the longest of the cluster and the first of that
    length in input order; records of one cluster hence get the same value. *)
Theorem representative_is_longest df col_name cluster_col :
  cluster_col ∈ columns df ->
  col_name ∈ columns df ->
  Forall (fun r => exists z, cell r cluster_col = PInt z) (rows df) ->
  Forall (fun r => exists s, cell r col_name = PStr s) (rows df) ->
  exists df',
    find_representative df col_name cluster_col = Ok df'
    /\ length (rows df') = length (rows df)
    /\ forall i r, rows df !! i = Some r ->
         exists k rk,
           rows df !! k = Some rk
           /\ cell rk cluster_col = cell r cluster_col
           /\ rows df' !! i = Some (<["cluster_rep" := cell rk col_name]> r)
           /\ forall j rj, rows df !! j = Some rj ->
                cell rj cluster_col = cell r cluster_col ->
                name_length col_name rj <= name_length col_name rk
                /\ (name_length col_name rj = name_length col_name rk -> k <= j).
Proof.
  intros Hcc Hcol Hids Hnames.
  apply Forall_exists_Forall2 in Hids as [zs Hzs].
  pose proof (Forall2_length _ _ _ Hzs) as Hlen.
  unfold find_representative.
  assert (Hget : forall col, col ∈ columns df ->
            getcol df col = Ok ((fun r => cell r col) <$> rows df)).
  { intros col Hc. unfold getcol. now rewrite bool_decide_eq_true_2. }
  rewrite (Hget cluster_col Hcc). cbn [mbind result_bind].
  assert (Hcast : traverse astype_int ((fun r => cell r cluster_col) <$> rows df) = Ok zs).
  { apply traverse_Ok. apply Forall2_fmap_l.
    eapply Forall2_impl; [exact Hzs|]. intros r z Hr. cbn. now rewrite Hr. }
  rewrite Hcast. cbn [mbind result_bind]. cbn zeta.
  rewrite (setcol_same df cluster_col zs Hcc Hzs).
  rewrite (Hget col_name Hcol). cbn [mbind result_bind].
  rewrite (groupby_ints df cluster_col zs Hcc Hzs). cbn [mbind result_bind].
  set (keys := Some <$> zs).
  assert (Hklen : length keys = length (rows df)) by (unfold keys; rewrite length_fmap; lia).
  set (groups := (fun k => (k, rows_of_key keys (rows df) k)) <$> sorted_keys keys).
  (* every group has a representative *)
  assert (Hgroup : forall k, k ∈ sorted_keys keys ->
            exists x, representative (rows_of_key keys (rows df) k) col_name
                      = Ok (cell x.2 col_name)
                      /\ first_longest (fun ir => name_length col_name ir.2) x
                           (rows_of_key keys (rows df) k)).
  { intros k Hk. destruct (rows_of_key_spec (rows df) keys k Hklen) as [Hmem Hsorted].
    apply representative_first_longest; [|exact Hsorted|].
    - apply sorted_keys_elem_of, list_elem_of_lookup in Hk as [p Hp].
      destruct (lookup_lt_is_Some_2 (rows df) p) as [r Hr].
      { rewrite <- Hklen. eapply lookup_lt_Some. exact Hp. }
      intros Hnil. assert (Hin : (p, r) ∈ rows_of_key keys (rows df) k) by now apply Hmem.
      rewrite Hnil in Hin. inversion Hin.
    - apply Forall_forall. intros [i r] Hir. apply Hmem in Hir as [Hr _].
      rewrite Forall_forall in Hnames. apply Hnames. eapply list_elem_of_lookup_2. exact Hr. }
  destruct (representatives_lookup groups col_name) with (m := (∅ : gmap Z pyval))
    as (reps & Hreps & Hlook).
  { unfold groups. rewrite fst_fmap_pair. apply StronglySorted_lt_NoDup, sorted_keys_sorted. }
  { unfold groups. apply Forall_fmap, Forall_forall. intros k Hk.
    destruct (Hgroup k Hk) as (x & Hx & _). cbn. eauto. }
  rewrite Hreps. cbn [mbind result_bind].
  eexists. split; [reflexivity|]. cbn [setcol rows].
  split; [rewrite length_zip_with, length_fmap; lia|].
  intros i r Hr.
  destruct (Forall2_lookup_l _ _ _ _ _ Hzs Hr) as (z & Hz & Hrz).
  assert (Hzkey : z ∈ sorted_keys keys).
  { apply sorted_keys_elem_of. eapply list_elem_of_lookup_2. unfold keys.
    rewrite list_lookup_fmap, Hz. reflexivity. }
  destruct (Hgroup z Hzkey) as ([k rk] & Hx & g1 & g2 & Hg & H1 & H2).
  destruct (Hlook z (rows_of_key keys (rows df) z)) as (rep & Hrep & Hrepz).
  { unfold groups. apply list_elem_of_fmap. exists z. split; [reflexivity|exact Hzkey]. }
  rewrite Hx in Hrep. injection Hrep as <-. cbn [snd] in *.
  destruct (rows_of_key_spec (rows df) keys z Hklen) as [Hmem Hsorted].
  assert (Hk : rows df !! k = Some rk /\ keys !! k = Some (Some z)).
  { apply Hmem. rewrite Hg. apply elem_of_app. right. left. }
  destruct Hk as [Hrk Hkz].
  assert (Hkey_of : forall j rj, rows df !! j = Some rj ->
            (cell rj cluster_col = PInt z <-> keys !! j = Some (Some z))).
  { intros j rj Hj. destruct (Forall2_lookup_l _ _ _ _ _ Hzs Hj) as (z' & Hz' & Hrz').
    unfold keys. rewrite list_lookup_fmap, Hz'. cbn. rewrite Hrz'.
    split; intros [= ->]; reflexivity. }
  exists k, rk. split; [exact Hrk|]. split; [|split].
  - rewrite Hrz. now apply (Hkey_of k rk Hrk).
  - rewrite lookup_zip_with, Hr. cbn. rewrite list_lookup_fmap, Hz. cbn.
    now rewrite Hrepz.
  - intros j rj Hj Hsame. rewrite Hrz in Hsame.
    assert (Hin : (j, rj) ∈ rows_of_key keys (rows df) z).
    { apply Hmem. split; [exact Hj|]. now apply (Hkey_of j rj Hj). }
    rewrite Hg in Hin, Hsorted. apply elem_of_app in Hin as [Hin|Hin].
    + rewrite Forall_forall in H1. specialize (H1 _ Hin). cbn in H1. lia.
    + apply elem_of_cons in Hin as [[= -> ->]|Hin]; [lia|].
      rewrite Forall_forall in H2. specialize (H2 _ Hin). cbn in H2.
      split; [exact H2|]. intros _.
      apply StronglySorted_app in Hsorted as (_ & _ & Hs).
      apply StronglySorted_cons in Hs as [Hs _]. rewrite Forall_forall in Hs.
      specialize (Hs _ Hin). unfold by_label in Hs. cbn in Hs. lia.
Qed.

Lemma example_report_run :
  validate_cluster_attributes example_disagreeing "cluster_id" []
    (FilterList ["gender"; "nationality"]%string)
  = Ok example_report.
Proof. vm_compute. reflexivity. Qed.

Lemma example_columns_NoDup : NoDup (columns example_disagreeing).
Proof. compute_done. Qed.

Lemma report_ordered_by_cluster_then_column_witness :
  reported_in_order (frame_rank example_disagreeing) example_report.
Proof.
  apply (report_ordered_by_cluster_then_column example_disagreeing "cluster_id" []
           (FilterList ["gender"; "nationality"]%string) example_report).
  - exact example_columns_NoDup.
  - exact example_report_run.
Defined.

(** The report on [example_disagreeing] starts with the cluster met last in
    the input, and lists "nationality" before "gender" although the caller
    supplied them the other way round. *)
Lemma report_not_in_supplied_order :
  validate_cluster_attributes example_disagreeing "cluster_id" []
    (FilterList ["gender"; "nationality"]%string)
  = Ok example_report
  /\ ~ reported_in_order
         (supplied_rank example_disagreeing "cluster_id" ["gender"; "nationality"]%string)
         example_report.
Proof.
  split; [exact example_report_run|].
  unfold reported_in_order, example_report. intros H.
  apply StronglySorted_cons in H as [H _]. apply List.Forall_inv in H.
  unfold rank_lt in H. vm_compute in H. destruct H as [H|[_ H]].
  - discriminate.
  - lia.
Qed.

Lemma conflicts_of_cluster_attribute_witness :
  let report :=
    [{| cluster_id := 2; attribute := "nationality"; conflicting_values := Dutch_Belgian |}] in
  validate_cluster_attributes example_people "cluster_id" ["occupation"%string]
    (FilterList ["nationality"%string]) = Ok report
  /\ reported_for 2 "nationality" report
     = [{| cluster_id := 2; attribute := "nationality";
           conflicting_values :=
             Scalars (distinct (cluster_values example_people "cluster_id" 2 "nationality")) |}].
Proof.
  intros report.
  assert (Hrun : validate_cluster_attributes example_people "cluster_id" ["occupation"%string]
                   (FilterList ["nationality"%string]) = Ok report)
    by (vm_compute; reflexivity).
  split; [exact Hrun|].
  destruct (conflicts_of_cluster_attribute example_people "cluster_id" ["occupation"%string]
              (FilterList ["nationality"%string]) report 2 "nationality")
    as (_ & Hscalar & _).
  - compute_done.
  - exact Hrun.
  - exists (person 2 "Jan" (PStr (u "Dutch")) (PList [u "teacher"])).
    split; [left|reflexivity].
  - left.
  - compute_done.
  - destruct Hscalar as (Hconflict & _); [compute_done|].
    apply Hconflict. exists (PStr (u "Dutch")), (PStr (u "Belgian")).
    split; [compute_done|]. split; [compute_done|discriminate].
Defined.

Lemma representative_is_longest_witness :
  exists df',
    find_representative example_people "canonical_name" "cluster_id" = Ok df'
    /\ length (rows df') = length (rows example_people)
    /\ forall i r, rows example_people !! i = Some r ->
         exists k rk,
           rows example_people !! k = Some rk
           /\ cell rk "cluster_id" = cell r "cluster_id"
           /\ rows df' !! i = Some (<["cluster_rep"%string := cell rk "canonical_name"]> r)
           /\ forall j rj, rows example_people !! j = Some rj ->
                cell rj "cluster_id" = cell r "cluster_id" ->
                name_length "canonical_name" rj <= name_length "canonical_name" rk
                /\ (name_length "canonical_name" rj = name_length "canonical_name" rk -> k <= j).
Proof.
  apply (representative_is_longest example_people "canonical_name" "cluster_id").
  - compute_done.
  - compute_done.
  - repeat (apply List.Forall_cons; [eexists; vm_compute; reflexivity|]). apply List.Forall_nil.
  - repeat (apply List.Forall_cons; [eexists; vm_compute; reflexivity|]). apply List.Forall_nil.
Defined.

Lemma column_block_sound cid g lc fc col blk :
  column_block cid g lc fc col = Ok blk ->
  Forall (fun c => cluster_id c = cid /\ attribute c = col /\ col ∈ fc
                   /\ disagreeing (conflicting_values c)) blk.
Proof.
  unfold column_block, check_column. case_bool_decide as Hfc; cbn [negb].
  2: { intros [= <-]. constructor. }
  destruct (dropna _) as [|v vs] eqn:Ev; [intros [= <-]; constructor|].
  case_bool_decide as Hlc.
  - destruct (traverse set_of (v :: vs)) as [sets|e] eqn:Et; [|discriminate].
    cbn [mbind result_bind]. cbn zeta. case_bool_decide as Hempty; intros [= <-]; [|constructor].
    cbn [app]. apply List.Forall_cons; [|apply List.Forall_nil]. cbn.
    split; [reflexivity|]. split; [reflexivity|]. split; [exact Hfc|]. split.
    + apply traverse_Ok in Et. intros ->. inversion Et.
    + intros x Hx. assert (Hne : sets <> []).
      { apply traverse_Ok in Et. intros ->. inversion Et. }
      apply (intersection_all_elem_of sets x Hne) in Hx. rewrite Hempty in Hx.
      now apply elem_of_empty in Hx.
  - unfold unique. destruct (existsb _ _); [discriminate|]. cbn [mbind result_bind].
    destruct (1 <? _) eqn:Hlen; intros [= <-]; [|constructor].
    apply Nat.ltb_lt in Hlen.
    cbn [app]. apply List.Forall_cons; [|apply List.Forall_nil]. cbn.
    split; [reflexivity|]. split; [reflexivity|]. split; [exact Hfc|].
    split; [exact Hlen|apply (distinct_NoDup (v :: vs))].
Qed.

(** X10. The validator never reports anything but a disagreement on a
    requested attribute of an existing cluster: every conflict of the report
    concerns a validated attribute that is a column of the frame and is not
    labelled "name", a cluster id that some record carries, and a payload of
    at least two distinct values or of one or more sets without a common
    element. *)
Theorem report_sound df cluster_col list_columns filter_cols report :
  validate_cluster_attributes df cluster_col list_columns filter_cols = Ok report ->
  Forall (fun c =>
            attribute c ∈ as_list filter_cols
            /\ attribute c ∈ columns df
            /\ attribute c <> "name"%string
            /\ (exists r, r ∈ rows df /\ cell r cluster_col = PInt (cluster_id c))
            /\ disagreeing (conflicting_values c)) report.
Proof.
  intros H. apply validate_report in H as (Hname & groups & blocks & Hg & Hblocks & ->).
  apply groupby_inv in Hg as (keys & Hkeys & ->).
  apply Forall_concat. eapply Forall2_Forall_r; [exact Hblocks|].
  apply Forall_forall. intros kg Hkg blk Hblk.
  apply list_elem_of_fmap in Hkg as (k & -> & Hk).
  apply group_block_inv in Hblk as (cblocks & Hcblocks & ->). cbn [fst snd] in Hcblocks.
  assert (Hrow : exists r, r ∈ rows df /\ cell r cluster_col = PInt k).
  { apply sorted_keys_elem_of, list_elem_of_lookup in Hk as [p Hp].
    destruct (Forall2_lookup_r _ _ _ _ _ Hkeys Hp) as (r & Hr & Hgk).
    exists r. split; [eapply list_elem_of_lookup_2; exact Hr|].
    destruct (cell r cluster_col); simpl in Hgk; congruence. }
  apply Forall_concat. apply Forall_lookup. intros q cblk Hq.
  destruct (Forall2_lookup_r _ _ _ _ _ Hcblocks Hq) as (col & Hcol & Hcb).
  eapply Forall_impl; [exact (column_block_sound _ _ _ _ _ _ Hcb)|].
  intros c (Hcid & Hattr & Hfc & Hdis). rewrite Hattr, Hcid.
  split; [exact Hfc|]. split; [eapply list_elem_of_lookup_2; exact Hcol|].
  split; [intros ->; contradiction|]. split; [exact Hrow|exact Hdis].
Qed.

Lemma report_sound_witness :
  Forall (fun c =>
            attribute c ∈ as_list (FilterList ["gender"; "nationality"]%string)
            /\ attribute c ∈ columns example_disagreeing
            /\ attribute c <> "name"%string
            /\ (exists r, r ∈ rows example_disagreeing
                          /\ cell r "cluster_id" = PInt (cluster_id c))
            /\ disagreeing (conflicting_values c)) example_report.
Proof.
  apply (report_sound example_disagreeing "cluster_id" []
           (FilterList ["gender"; "nationality"]%string) example_report).
  exact example_report_run.
Defined.

(** *** Exceptions of the validator *)

Lemma traverse_raises {A B} (f : A -> result B) xs x e :
  (forall y e', f y = Raise e' -> e' = e) ->
  x ∈ xs -> f x = Raise e -> traverse f xs = Raise e.
Proof.
  intros Honly Hin Hx. induction xs as [|y xs IH]; [inversion Hin|].
  cbn [traverse]. destruct (f y) as [b|e'] eqn:Ey; cbn [mbind result_bind].
  - apply elem_of_cons in Hin as [->|Hin]; [congruence|]. now rewrite IH.
  - now rewrite (Honly y e' Ey).
Qed.

Lemma column_block_only_TypeError cid g lc fc col e :
  column_block cid g lc fc col = Raise e -> e = TypeError.
Proof.
  unfold column_block, check_column. destruct (negb _); [discriminate|].
  destruct (dropna _) as [|v vs]; [discriminate|].
  destruct (bool_decide (col ∈ lc)).
  - destruct (traverse set_of (v :: vs)) as [sets|e'] eqn:Et; cbn [mbind result_bind].
    + cbn zeta. destruct (bool_decide _); discriminate.
    + intros [= <-]. clear -Et. revert e' Et.
      induction (v :: vs) as [|w ws IH]; intros e' Et; [discriminate|].
      cbn [traverse] in Et. destruct (set_of w) as [s|e2] eqn:Ew; cbn [mbind result_bind] in Et.
      * destruct (traverse set_of ws) as [ss|e3]; cbn [mbind result_bind] in Et;
          [discriminate|]. injection Et as <-. now apply IH.
      * injection Et as <-. destruct w; simpl in Ew; congruence.
  - unfold unique. destruct (existsb _ _); cbn [mbind result_bind].
    + now intros [= <-].
    + destruct (1 <? _); discriminate.
Qed.

Lemma group_block_only_TypeError cols lc fc kg e :
  group_block cols lc fc kg = Raise e -> e = TypeError.
Proof.
  unfold group_block. destruct (traverse _ cols) as [blocks|e'] eqn:Et; [discriminate|].
  cbn [mbind result_bind]. intros [= <-]. revert e' Et.
  induction cols as [|col cols IH]; intros e' Et; [discriminate|].
  cbn [traverse] in Et. destruct (column_block _ _ _ _ col) as [b|e2] eqn:Ec;
    cbn [mbind result_bind] in Et.
  - destruct (traverse _ cols) as [bs|e3]; cbn [mbind result_bind] in Et; [discriminate|].
    injection Et as <-. now apply IH.
  - injection Et as <-. eapply column_block_only_TypeError. exact Ec.
Qed.

Lemma traverse_raised {A B} (f : A -> result B) xs e :
  traverse f xs = Raise e -> exists x, x ∈ xs /\ f x = Raise e.
Proof.
  induction xs as [|y xs IH]; [discriminate|].
  cbn [traverse]. destruct (f y) as [b|e'] eqn:Ey; cbn [mbind result_bind].
  - destruct (traverse f xs) as [bs|e2]; cbn [mbind result_bind]; [discriminate|].
    intros [= <-]. destruct IH as (x & Hx & Hf); [reflexivity|].
    exists x. split; [now right|exact Hf].
  - intros [= <-]. exists y. split; [left|exact Ey].
Qed.

Lemma groupby_no_AssertionError df cluster_col :
  groupby df cluster_col <> Raise AssertionError.
Proof.
  unfold groupby, getcol. destruct (bool_decide _); cbn [mbind result_bind]; [|discriminate].
  destruct (traverse group_key _) as [keys|e] eqn:Et; cbn [mbind result_bind]; [discriminate|].
  intros [= ->]. apply traverse_raised in Et as (v & _ & Hv). destruct v; discriminate.
Qed.

(** C10 (amended). The validator fails on its assertion, and produces no
    report, exactly when the literal label "name" is among the attributes to
    validate: the check neither looks at the frame nor knows which column
    holds the names, and nothing after it raises [AssertionError]. *)
Theorem only_literal_name_rejected df cluster_col list_columns filter_cols :
  validate_cluster_attributes df cluster_col list_columns filter_cols = Raise AssertionError
  <-> "name"%string ∈ as_list filter_cols.
Proof.
  rewrite validate_blocks. split.
  - case_bool_decide as Hname; [trivial|]. intros H. exfalso.
    destruct (groupby df cluster_col) as [groups|e] eqn:Hg; cbn [mbind result_bind] in H.
    + destruct (traverse _ groups) as [blocks|e] eqn:Et; cbn [mbind result_bind] in H;
        [discriminate|].
      injection H as ->. apply traverse_raised in Et as (kg & _ & Hkg).
      apply group_block_only_TypeError in Hkg. discriminate.
    + injection H as ->. now apply (groupby_no_AssertionError df cluster_col).
  - intros H. now rewrite bool_decide_eq_true_2.
Qed.

Lemma only_literal_name_rejected_witness :
  validate_cluster_attributes example_people "cluster_id" ["occupation"%string]
    (FilterList ["name"; "nationality"]%string)
  = Raise AssertionError
  /\ validate_cluster_attributes example_people "cluster_id" ["occupation"%string]
       (FilterList ["canonical_name"; "nationality"]%string)
     <> Raise AssertionError.
Proof.
  split.
  - apply (only_literal_name_rejected example_people "cluster_id" ["occupation"%string]
             (FilterList ["name"; "nationality"]%string)).
    left.
  - intros H.
    apply (only_literal_name_rejected example_people "cluster_id" ["occupation"%string]
             (FilterList ["canonical_name"; "nationality"]%string)) in H.
    revert H. compute_done.
Defined.

(** The names of [example_people] are under "canonical_name", the column the
    selector reads them from; asked to validate that column, the validator
    does not fail but reports the names of each cluster as a conflict. *)
Lemma name_field_validated :
  ("name"%string ∉ columns example_people)
  /\ (exists df', find_representative example_people "canonical_name" "cluster_id" = Ok df')
  /\ validate_cluster_attributes example_people "cluster_id" []
       (FilterList ["canonical_name"%string])
     = Ok [ {| cluster_id := 1; attribute := "canonical_name";
               conflicting_values :=
                 Scalars [PStr (u "Anna de Vries"); PStr (u "Anna")] |};
            {| cluster_id := 2; attribute := "canonical_name";
               conflicting_values :=
                 Scalars [PStr (u "Jan"); PStr (u "Jan van der Berg");
                          PStr (u "J. van der Berg")] |} ].
Proof.
  split; [compute_done|]. split.
  - eexists. vm_compute. reflexivity.
  - vm_compute. reflexivity.
Qed.

(** X11. A list under an attribute validated as a scalar makes the whole
    validation fail with [TypeError] (the value is unhashable): list-valued
    attributes have to be declared in [list_columns]. *)
Theorem list_under_scalar_attribute df cluster_col list_columns filter_cols groups col r cid l :
  "name"%string ∉ as_list filter_cols ->
  groupby df cluster_col = Ok groups ->
  col ∈ as_list filter_cols ->
  col ∈ columns df ->
  col ∉ list_columns ->
  r ∈ rows df ->
  cell r cluster_col = PInt cid ->
  cell r col = PList l ->
  validate_cluster_attributes df cluster_col list_columns filter_cols = Raise TypeError.
Proof.
  intros Hname Hg Hfc Hcols Hlc Hr Hcid Hcell.
  rewrite validate_blocks. rewrite bool_decide_eq_false_2 by exact Hname.
  rewrite Hg. cbn [mbind result_bind].
  apply groupby_inv in Hg as (keys & Hkeys & ->).
  set (g := rows_of_key keys (rows df) cid).
  enough (Hfail : traverse (group_block (columns df) list_columns (as_list filter_cols))
                    ((fun k => (k, rows_of_key keys (rows df) k)) <$> sorted_keys keys)
                  = Raise TypeError) by now rewrite Hfail.
  apply (traverse_raises _ _ (cid, g)).
  - intros kg e. apply group_block_only_TypeError.
  - apply list_elem_of_fmap. exists cid. split; [reflexivity|].
    apply sorted_keys_elem_of. apply list_elem_of_lookup in Hr as [p Hp].
    destruct (Forall2_lookup_l _ _ _ _ _ Hkeys Hp) as (key & Hk & Hgk).
    rewrite Hcid in Hgk. injection Hgk as <-. eapply list_elem_of_lookup_2. exact Hk.
  - unfold group_block. cbn [fst snd].
    enough (Hcb : traverse (column_block cid g list_columns (as_list filter_cols)) (columns df)
                  = Raise TypeError) by now rewrite Hcb.
    apply (traverse_raises _ _ col).
    + intros c e. apply column_block_only_TypeError.
    + exact Hcols.
    + unfold column_block, check_column.
      rewrite bool_decide_eq_true_2 by exact Hfc. cbn [negb].
      assert (Hin : PList l ∈ dropna ((fun ir : nat * record => cell ir.2 col) <$> g)).
      { unfold dropna. apply list_elem_of_In, List.filter_In. split; [|reflexivity].
        apply list_elem_of_In, list_elem_of_fmap.
        assert (Hsnd : r ∈ snd <$> g).
        { unfold g. rewrite (rows_of_key_rows cluster_col (rows df) keys cid Hkeys).
          apply list_elem_of_In, List.filter_In. split; [now apply list_elem_of_In|].
          now apply bool_decide_eq_true. }
        apply list_elem_of_fmap in Hsnd as (ir & -> & Hir). exists ir. split; [now rewrite Hcell|exact Hir]. }
      destruct (dropna _) as [|v vs] eqn:Ev; [inversion Hin|].
      rewrite bool_decide_eq_false_2 by exact Hlc.
      unfold unique. replace (existsb _ (v :: vs)) with true; [reflexivity|].
      symmetry. apply existsb_exists. exists (PList l). split; [now apply list_elem_of_In|reflexivity].
Qed.

Lemma list_under_scalar_attribute_witness :
  validate_cluster_attributes example_people "cluster_id" [] (FilterList ["occupation"%string])
  = Raise TypeError.
Proof.
  eapply (list_under_scalar_attribute example_people "cluster_id" []
            (FilterList ["occupation"%string]) _ "occupation"
            (person 2 "Jan" (PStr (u "Dutch")) (PList [u "teacher"])) 2 [u "teacher"]).
  - compute_done.
  - vm_compute. reflexivity.
  - left.
  - compute_done.
  - compute_done.
  - left.
  - reflexivity.
  - reflexivity.
Defined.

(** The selector on a frame with integer cluster ids and string names:
    the new column, and for every record the record of its cluster whose name
    it receives. *)
Lemma find_representative_rows df col_name cluster_col :
  cluster_col ∈ columns df ->
  col_name ∈ columns df ->
  Forall (fun r => exists z, cell r cluster_col = PInt z) (rows df) ->
  Forall (fun r => exists s, cell r col_name = PStr s) (rows df) ->
  exists df',
    find_representative df col_name cluster_col = Ok df'
    /\ columns df' = (if bool_decide ("cluster_rep"%string ∈ columns df) then columns df
                      else columns df ++ ["cluster_rep"%string])
    /\ length (rows df') = length (rows df)
    /\ forall i r, rows df !! i = Some r ->
         exists k rk,
           rows df !! k = Some rk
           /\ cell rk cluster_col = cell r cluster_col
           /\ rows df' !! i = Some (<["cluster_rep" := cell rk col_name]> r)
           /\ forall j rj, rows df !! j = Some rj ->
                cell rj cluster_col = cell r cluster_col ->
                name_length col_name rj <= name_length col_name rk
                /\ (name_length col_name rj = name_length col_name rk -> k <= j).
Proof.
  intros Hcc Hcol Hids Hnames.
  apply Forall_exists_Forall2 in Hids as [zs Hzs].
  pose proof (Forall2_length _ _ _ Hzs) as Hlen.
  unfold find_representative.
  assert (Hget : forall col, col ∈ columns df ->
            getcol df col = Ok ((fun r => cell r col) <$> rows df)).
  { intros col Hc. unfold getcol. now rewrite bool_decide_eq_true_2. }
  rewrite (Hget cluster_col Hcc). cbn [mbind result_bind].
  assert (Hcast : traverse astype_int ((fun r => cell r cluster_col) <$> rows df) = Ok zs).
  { apply traverse_Ok. apply Forall2_fmap_l.
    eapply Forall2_impl; [exact Hzs|]. intros r z Hr. cbn. now rewrite Hr. }
  rewrite Hcast. cbn [mbind result_bind]. cbn zeta.
  rewrite (setcol_same df cluster_col zs Hcc Hzs).
  rewrite (Hget col_name Hcol). cbn [mbind result_bind].
  rewrite (groupby_ints df cluster_col zs Hcc Hzs). cbn [mbind result_bind].
  set (keys := Some <$> zs).
  assert (Hklen : length keys = length (rows df)) by (unfold keys; rewrite length_fmap; lia).
  set (groups := (fun k => (k, rows_of_key keys (rows df) k)) <$> sorted_keys keys).
  (* every group has a representative *)
  assert (Hgroup : forall k, k ∈ sorted_keys keys ->
            exists x, representative (rows_of_key keys (rows df) k) col_name
                      = Ok (cell x.2 col_name)
                      /\ first_longest (fun ir => name_length col_name ir.2) x
                           (rows_of_key keys (rows df) k)).
  { intros k Hk. destruct (rows_of_key_spec (rows df) keys k Hklen) as [Hmem Hsorted].
    apply representative_first_longest; [|exact Hsorted|].
    - apply sorted_keys_elem_of, list_elem_of_lookup in Hk as [p Hp].
      destruct (lookup_lt_is_Some_2 (rows df) p) as [r Hr].
      { rewrite <- Hklen. eapply lookup_lt_Some. exact Hp. }
      intros Hnil. assert (Hin : (p, r) ∈ rows_of_key keys (rows df) k) by now apply Hmem.
      rewrite Hnil in Hin. inversion Hin.
    - apply Forall_forall. intros [i r] Hir. apply Hmem in Hir as [Hr _].
      rewrite Forall_forall in Hnames. apply Hnames. eapply list_elem_of_lookup_2. exact Hr. }
  destruct (representatives_lookup groups col_name) with (m := (∅ : gmap Z pyval))
    as (reps & Hreps & Hlook).
  { unfold groups. rewrite fst_fmap_pair. apply StronglySorted_lt_NoDup, sorted_keys_sorted. }
  { unfold groups. apply Forall_fmap, Forall_forall. intros k Hk.
    destruct (Hgroup k Hk) as (x & Hx & _). cbn. eauto. }
  rewrite Hreps. cbn [mbind result_bind].
  eexists. split; [reflexivity|]. cbn [setcol rows columns]. split; [reflexivity|].
  split; [rewrite length_zip_with, length_fmap; lia|].
  intros i r Hr.
  destruct (Forall2_lookup_l _ _ _ _ _ Hzs Hr) as (z & Hz & Hrz).
  assert (Hzkey : z ∈ sorted_keys keys).
  { apply sorted_keys_elem_of. eapply list_elem_of_lookup_2. unfold keys.
    rewrite list_lookup_fmap, Hz. reflexivity. }
  destruct (Hgroup z Hzkey) as ([k rk] & Hx & g1 & g2 & Hg & H1 & H2).
  destruct (Hlook z (rows_of_key keys (rows df) z)) as (rep & Hrep & Hrepz).
  { unfold groups. apply list_elem_of_fmap. exists z. split; [reflexivity|exact Hzkey]. }
  rewrite Hx in Hrep. injection Hrep as <-. cbn [snd] in *.
  destruct (rows_of_key_spec (rows df) keys z Hklen) as [Hmem Hsorted].
  assert (Hk : rows df !! k = Some rk /\ keys !! k = Some (Some z)).
  { apply Hmem. rewrite Hg. apply elem_of_app. right. left. }
  destruct Hk as [Hrk Hkz].
  assert (Hkey_of : forall j rj, rows df !! j = Some rj ->
            (cell rj cluster_col = PInt z <-> keys !! j = Some (Some z))).
  { intros j rj Hj. destruct (Forall2_lookup_l _ _ _ _ _ Hzs Hj) as (z' & Hz' & Hrz').
    unfold keys. rewrite list_lookup_fmap, Hz'. cbn. rewrite Hrz'.
    split; intros [= ->]; reflexivity. }
  exists k, rk. split; [exact Hrk|]. split; [|split].
  - rewrite Hrz. now apply (Hkey_of k rk Hrk).
  - rewrite lookup_zip_with, Hr. cbn. rewrite list_lookup_fmap, Hz. cbn.
    now rewrite Hrepz.
  - intros j rj Hj Hsame. rewrite Hrz in Hsame.
    assert (Hin : (j, rj) ∈ rows_of_key keys (rows df) z).
    { apply Hmem. split; [exact Hj|]. now apply (Hkey_of j rj Hj). }
    rewrite Hg in Hin, Hsorted. apply elem_of_app in Hin as [Hin|Hin].
    + rewrite Forall_forall in H1. specialize (H1 _ Hin). cbn in H1. lia.
    + apply elem_of_cons in Hin as [[= -> ->]|Hin]; [lia|].
      rewrite Forall_forall in H2. specialize (H2 _ Hin). cbn in H2.
      split; [exact H2|]. intros _.
      apply StronglySorted_app in Hsorted as (_ & _ & Hs).
      apply StronglySorted_cons in Hs as [Hs _]. rewrite Forall_forall in Hs.
      specialize (Hs _ Hin). unfold by_label in Hs. cbn in Hs. lia.
Qed.

Lemma cell_insert_eq (r : record) col v : cell (<[col := v]> r) col = v.
Proof. unfold cell. now rewrite lookup_insert_eq. Qed.

Lemma cell_insert_ne (r : record) col col' v : col <> col' -> cell (<[col := v]> r) col' = cell r col'.
Proof. intros H. unfold cell. now rewrite lookup_insert_ne. Qed.

(** X13. Representative totality: the selector appends the column
    [cluster_rep] (once), gives every record a string in it, the same for
    all the records of a cluster, and changes no other cell. *)
Theorem cluster_rep_total df col_name cluster_col :
  cluster_col ∈ columns df ->
  col_name ∈ columns df ->
  Forall (fun r => exists z, cell r cluster_col = PInt z) (rows df) ->
  Forall (fun r => exists s, cell r col_name = PStr s) (rows df) ->
  exists df',
    find_representative df col_name cluster_col = Ok df'
    /\ columns df' = (if bool_decide ("cluster_rep"%string ∈ columns df) then columns df
                      else columns df ++ ["cluster_rep"%string])
    /\ length (rows df') = length (rows df)
    /\ forall i r r', rows df !! i = Some r -> rows df' !! i = Some r' ->
         (exists s, cell r' "cluster_rep" = PStr s)
         /\ (forall col, col <> "cluster_rep"%string -> cell r' col = cell r col)
         /\ forall j rj rj', rows df !! j = Some rj -> rows df' !! j = Some rj' ->
              cell rj cluster_col = cell r cluster_col ->
              cell rj' "cluster_rep" = cell r' "cluster_rep".
Proof.
  intros Hcc Hcol Hids Hnames.
  destruct (find_representative_rows df col_name cluster_col Hcc Hcol Hids Hnames)
    as (df' & Hrun & Hcols & Hlen & Hrows).
  exists df'. split; [exact Hrun|]. split; [exact Hcols|]. split; [exact Hlen|].
  intros i r r' Hr Hr'.
  destruct (Hrows i r Hr) as (k & rk & Hrk & Hsame & Hri & Hbest).
  rewrite Hr' in Hri. injection Hri as ->.
  split; [|split].
  - rewrite cell_insert_eq. rewrite Forall_forall in Hnames. apply Hnames.
    eapply list_elem_of_lookup_2. exact Hrk.
  - intros col Hne. apply cell_insert_ne. congruence.
  - intros j rj rj' Hj Hj' Hcl.
    destruct (Hrows j rj Hj) as (k2 & rk2 & Hrk2 & Hsame2 & Hrj & Hbest2).
    rewrite Hj' in Hrj. injection Hrj as ->. rewrite !cell_insert_eq.
    destruct (Hbest k2 rk2 Hrk2) as [Hle1 Hfirst1]; [congruence|].
    destruct (Hbest2 k rk Hrk) as [Hle2 Hfirst2]; [congruence|].
    assert (k = k2) by lia. subst k2. congruence.
Qed.

Lemma cluster_rep_total_witness :
  exists df',
    find_representative example_people "canonical_name" "cluster_id" = Ok df'
    /\ columns df' = (if bool_decide ("cluster_rep"%string ∈ columns example_people)
                      then columns example_people
                      else columns example_people ++ ["cluster_rep"%string])
    /\ length (rows df') = length (rows example_people)
    /\ forall i r r', rows example_people !! i = Some r -> rows df' !! i = Some r' ->
         (exists s, cell r' "cluster_rep" = PStr s)
         /\ (forall col, col <> "cluster_rep"%string -> cell r' col = cell r col)
         /\ forall j rj rj', rows example_people !! j = Some rj -> rows df' !! j = Some rj' ->
              cell rj "cluster_id" = cell r "cluster_id" ->
              cell rj' "cluster_rep" = cell r' "cluster_rep".
Proof.
  apply (cluster_rep_total example_people "canonical_name" "cluster_id").
  - compute_done.
  - compute_done.
  - repeat (apply List.Forall_cons; [eexists; vm_compute; reflexivity|]). apply List.Forall_nil.
  - repeat (apply List.Forall_cons; [eexists; vm_compute; reflexivity|]). apply List.Forall_nil.
Defined.

Lemma traverse_raises_in {A B} (f : A -> result B) xs x e :
  (forall y e', y ∈ xs -> f y = Raise e' -> e' = e) ->
  x ∈ xs -> f x = Raise e -> traverse f xs = Raise e.
Proof.
  intros Honly Hin Hx. induction xs as [|y xs IH]; [inversion Hin|].
  cbn [traverse]. destruct (f y) as [b|e'] eqn:Ey; cbn [mbind result_bind].
  - apply elem_of_cons in Hin as [->|Hin]; [congruence|]. rewrite IH; [reflexivity| |exact Hin].
    intros z e2 Hz. apply Honly. now right.
  - rewrite (Honly y e'); [reflexivity|left|exact Ey].
Qed.

(** X14. A record without a cluster id makes the selector fail with
    [ValueError]: a null cannot be cast to an integer. *)
Theorem null_cluster_id_rejected df col_name cluster_col r :
  cluster_col ∈ columns df ->
  Forall (fun r => cell r cluster_col = PNone \/ exists z, cell r cluster_col = PInt z) (rows df) ->
  r ∈ rows df ->
  cell r cluster_col = PNone ->
  find_representative df col_name cluster_col = Raise ValueError.
Proof.
  intros Hcc Hcells Hr Hnull. unfold find_representative, getcol.
  rewrite bool_decide_eq_true_2 by exact Hcc. cbn [mbind result_bind].
  rewrite (traverse_raises_in astype_int _ (cell r cluster_col) ValueError); [reflexivity| | |].
  - intros v e Hv. apply list_elem_of_fmap in Hv as (r0 & -> & Hr0).
    rewrite Forall_forall in Hcells. destruct (Hcells r0 Hr0) as [->|[z ->]]; simpl; congruence.
  - apply list_elem_of_fmap. eauto.
  - now rewrite Hnull.
Qed.

Lemma null_cluster_id_rejected_witness :
  find_representative
    {| columns := ["canonical_name"; "cluster_id"]%string;
       rows := [ {[ "canonical_name"%string := PStr (u "Jan"); "cluster_id"%string := PInt 1 ]};
                 {[ "canonical_name"%string := PStr (u "Anna") ]} ] |}
    "canonical_name" "cluster_id"
  = Raise ValueError.
Proof.
  eapply (null_cluster_id_rejected _ "canonical_name" "cluster_id"
            {[ "canonical_name"%string := PStr (u "Anna") ]}).
  - compute_done.
  - apply List.Forall_cons; [right; eexists; vm_compute; reflexivity|].
    apply List.Forall_cons; [left; reflexivity|apply List.Forall_nil].
  - right. left.
  - reflexivity.
Defined.

(** What the report holds for one cluster and one column is the block the
    inner loop appended for them. *)
Lemma reported_block df cluster_col lc filter_cols report cid col :
  NoDup (columns df) ->
  validate_cluster_attributes df cluster_col lc filter_cols = Ok report ->
  (exists r, r ∈ rows df /\ cell r cluster_col = PInt cid) ->
  col ∈ columns df ->
  exists keys blk,
    Forall2 (fun r key => group_key (cell r cluster_col) = Ok key) (rows df) keys
    /\ column_block cid (rows_of_key keys (rows df) cid) lc (as_list filter_cols) col = Ok blk
    /\ reported_for cid col report = blk.
Proof.
  intros Hnd Hrun (r & Hr & Hcid) Hcols.
  apply validate_report in Hrun as (_ & groups & blocks & Hgroups & Hblocks & ->).
  pose proof (groupby_keys _ _ _ Hgroups) as Hsorted.
  apply groupby_inv in Hgroups as (keys & Hkeys & ->).
  exists keys.
  assert (Hkey : cid ∈ sorted_keys keys).
  { apply sorted_keys_elem_of. apply list_elem_of_lookup in Hr as [i Hi].
    destruct (Forall2_lookup_l _ _ _ _ _ Hkeys Hi) as (key & Hk & Hgk).
    rewrite Hcid in Hgk. injection Hgk as <-. eapply list_elem_of_lookup_2. exact Hk. }
  apply list_elem_of_lookup in Hkey as [p Hp].
  set (g := rows_of_key keys (rows df) cid).
  assert (Hgp : ((fun k => (k, rows_of_key keys (rows df) k)) <$> sorted_keys keys) !! p
                = Some (cid, g)) by (now rewrite list_lookup_fmap, Hp).
  destruct (Forall2_lookup_l _ _ _ _ _ Hblocks Hgp) as (gblk & Hgblk & Hgb).
  assert (Hreported : reported_for cid col (concat blocks) = reported_for cid col gblk).
  { unfold reported_for.
    apply (filter_tagged cluster_id _ (sorted_keys keys) blocks p cid gblk).
    - rewrite <- (fst_fmap_pair (fun k => rows_of_key keys (rows df) k) (sorted_keys keys)).
      apply Forall2_fmap_l. eapply Forall2_impl; [exact Hblocks|].
      intros kg blk Hkg. now apply (group_block_sorted df) in Hkg as [Hkg _].
    - apply StronglySorted_lt_NoDup. now rewrite fst_fmap_pair in Hsorted.
    - exact Hp.
    - exact Hgblk.
    - intros c Hc. apply bool_decide_eq_true in Hc. tauto. }
  rewrite Hreported. clear Hreported.
  apply group_block_inv in Hgb as (cblocks & Hcblocks & ->). cbn [fst snd] in Hcblocks.
  apply list_elem_of_lookup in Hcols as [q Hq].
  destruct (Forall2_lookup_l _ _ _ _ _ Hcblocks Hq) as (cblk & Hcblk & Hcb).
  exists cblk. split; [exact Hkeys|]. split; [exact Hcb|].
  assert (Htags : Forall2 (fun col' b =>
              Forall (fun c => cluster_id c = cid /\ attribute c = col') b)
            (columns df) cblocks).
  { eapply Forall2_impl; [exact Hcblocks|]. intros col' b Hb.
    now apply column_block_tag in Hb as [Hb _]. }
  unfold reported_for.
  rewrite (filter_tagged attribute _ (columns df) cblocks q col cblk).
  - apply filter_all. destruct (Forall2_lookup_l _ _ _ _ _ Htags Hq) as (b & Hb & Hall).
    rewrite Hcblk in Hb. injection Hb as <-. eapply Forall_impl; [exact Hall|].
    intros c Hc. now apply bool_decide_eq_true.
  - eapply Forall2_impl; [exact Htags|]. intros col' b Hb.
    eapply Forall_impl; [exact Hb|]. now intros ? [? ?].
  - exact Hnd.
  - exact Hq.
  - exact Hcblk.
  - intros c Hc. apply bool_decide_eq_true in Hc. tauto.
Qed.

Lemma cluster_values_elem_of df cluster_col cid col r :
  r ∈ rows df -> cell r cluster_col = PInt cid -> cell r col <> PNone ->
  cell r col ∈ cluster_values df cluster_col cid col.
Proof.
  intros Hr Hcid Hnn. unfold cluster_values, dropna, cluster_rows.
  apply list_elem_of_In, List.filter_In. split.
  - apply list_elem_of_In, list_elem_of_fmap. exists r. split; [reflexivity|].
    apply list_elem_of_In, List.filter_In. split; [now apply list_elem_of_In|].
    now apply bool_decide_eq_true.
  - apply negb_true_iff, bool_decide_eq_false. exact Hnn.
Qed.

(** X12. An empty list under a list-valued attribute is a conflict by
    itself: the intersection with the empty set is empty, so the cluster of
    such a record is reported for the attribute, even if it has no other
    record. *)
Theorem empty_list_reported df cluster_col list_columns filter_cols report r cid col :
  NoDup (columns df) ->
  validate_cluster_attributes df cluster_col list_columns filter_cols = Ok report ->
  r ∈ rows df ->
  cell r cluster_col = PInt cid ->
  cell r col = PList [] ->
  col ∈ as_list filter_cols ->
  col ∈ columns df ->
  col ∈ list_columns ->
  exists sets,
    ∅ ∈ sets
    /\ reported_for cid col report
       = [{| cluster_id := cid; attribute := col; conflicting_values := Sets sets |}].
Proof.
  intros Hnd Hrun Hr Hcid Hcell Hfc Hcols Hlc.
  destruct (reported_block df cluster_col list_columns filter_cols report cid col Hnd Hrun)
    as (keys & blk & Hkeys & Hblk & ->); [eauto|exact Hcols|].
  destruct (column_block_values df cluster_col keys cid list_columns _ col blk Hkeys Hfc Hblk)
    as (_ & _ & Hlist).
  assert (Hin : PList [] ∈ cluster_values df cluster_col cid col).
  { rewrite <- Hcell. apply cluster_values_elem_of; [exact Hr|exact Hcid|].
    rewrite Hcell. discriminate. }
  destruct (Hlist Hlc) as (sets & Hsets & ->).
  { intros Hnil. rewrite Hnil in Hin. inversion Hin. }
  apply list_elem_of_lookup in Hin as [p Hp].
  destruct (Forall2_lookup_l _ _ _ _ _ Hsets Hp) as (s & Hs & Hset).
  cbn in Hset. injection Hset as <-.
  assert (Hempty : (∅ : gset str) ∈ sets) by (eapply list_elem_of_lookup_2; exact Hs).
  exists sets. split; [exact Hempty|].
  rewrite bool_decide_eq_true_2; [reflexivity|].
  apply gset_leibniz. intros x. rewrite elem_of_empty. split; [|contradiction].
  intros Hx. apply intersection_all_elem_of in Hx.
  - rewrite Forall_forall in Hx. specialize (Hx _ Hempty). now apply elem_of_empty in Hx.
  - intros ->. inversion Hempty.
Qed.

Lemma empty_list_reported_witness :
  exists sets,
    ∅ ∈ sets
    /\ reported_for 7 "occupation"
         [{| cluster_id := 7; attribute := "occupation"; conflicting_values := Sets [∅] |}]
       = [{| cluster_id := 7; attribute := "occupation"; conflicting_values := Sets sets |}].
Proof.
  eapply (empty_list_reported
            {| columns := ["cluster_id"; "occupation"]%string;
               rows := [ {[ "cluster_id"%string := PInt 7; "occupation"%string := PList [] ]} ] |}
            "cluster_id" ["occupation"%string] (FilterList ["occupation"%string])
            _ {[ "cluster_id"%string := PInt 7; "occupation"%string := PList [] ]} 7 "occupation").
  - compute_done.
  - vm_compute. reflexivity.
  - left.
  - reflexivity.
  - reflexivity.
  - left.
  - compute_done.
  - left.
Defined.

End FrameFacts.

(** ** The resolution pipeline *)

Module PipelineFacts.
Import Normalizer Similarity SimilarityFacts Clusterer ClustererFacts Frame FrameFacts Pipeline.

Lemma rows_setcol df col (values : list pyval) i :
  rows (setcol df col values) !! i
  = (r ← rows df !! i; v ← values !! i; Some (<[col := v]> r)).
Proof. cbn [setcol rows]. apply lookup_zip_with. Qed.

Lemma columns_setcol df col values c :
  c ∈ columns df \/ c = col -> c ∈ columns (setcol df col values).
Proof.
  cbn [setcol columns]. case_bool_decide as Hin.
  - intros [H| ->]; assumption.
  - intros [H| ->]; apply elem_of_app; [now left|right; left].
Qed.

Lemma name_length_insert col_name col v (r : record) :
  col_name <> col -> name_length col_name (<[col := v]> r) = name_length col_name r.
Proof. intros H. unfold name_length. rewrite cell_insert_ne by congruence. reflexivity. Qed.

(** The frame [save_clustered_data] returns, record by record. *)
Lemma save_clustered_data_rows df (cluster_ids : list nat) col_name :
  length cluster_ids = length (rows df) ->
  col_name ∈ columns df ->
  col_name <> "cluster_id"%string ->
  Forall (fun r => exists s, cell r col_name = PStr s) (rows df) ->
  exists df',
    save_clustered_data df cluster_ids col_name = Ok df'
    /\ length (rows df') = length (rows df)
    /\ forall i r id, rows df !! i = Some r -> cluster_ids !! i = Some id ->
         exists k rk,
           rows df !! k = Some rk
           /\ cluster_ids !! k = Some id
           /\ rows df' !! i
              = Some (<["cluster_rep"%string := cell rk col_name]>
                        (<["cluster_id"%string := PInt (Z.of_nat id)]> r))
           /\ forall j rj, rows df !! j = Some rj -> cluster_ids !! j = Some id ->
                name_length col_name rj <= name_length col_name rk
                /\ (name_length col_name rj = name_length col_name rk -> k <= j).
Proof.
  intros Hlen Hcol Hne Hnames. unfold save_clustered_data.
  rewrite (proj2 (Nat.eqb_eq _ _) Hlen). cbn [negb]. cbn zeta.
  set (values := (fun id => PInt (Z.of_nat id)) <$> cluster_ids).
  set (df1 := setcol df "cluster_id" values).
  assert (Hrow1 : forall i r id, rows df !! i = Some r -> cluster_ids !! i = Some id ->
            rows df1 !! i = Some (<["cluster_id"%string := PInt (Z.of_nat id)]> r)).
  { intros i r id Hr Hid. unfold df1. rewrite rows_setcol, Hr. cbn.
    unfold values. rewrite list_lookup_fmap, Hid. reflexivity. }
  assert (Hrow1_inv : forall i r1, rows df1 !! i = Some r1 ->
            exists r id, rows df !! i = Some r /\ cluster_ids !! i = Some id
                         /\ r1 = <["cluster_id"%string := PInt (Z.of_nat id)]> r).
  { intros i r1. unfold df1. rewrite rows_setcol.
    destruct (rows df !! i) as [r|] eqn:Hr; [|discriminate]. cbn.
    unfold values. rewrite list_lookup_fmap.
    destruct (cluster_ids !! i) as [id|] eqn:Hid; [|discriminate]. cbn.
    intros [= <-]. eauto. }
  destruct (find_representative_rows df1 col_name "cluster_id")
    as (df' & Hrun & _ & Hlen' & Hrows).
  - apply columns_setcol. now right.
  - apply columns_setcol. now left.
  - apply Forall_lookup. intros i r1 Hr1.
    destruct (Hrow1_inv i r1 Hr1) as (r & id & _ & _ & ->).
    exists (Z.of_nat id). apply cell_insert_eq.
  - apply Forall_lookup. intros i r1 Hr1.
    destruct (Hrow1_inv i r1 Hr1) as (r & id & Hr & _ & ->).
    rewrite Forall_lookup in Hnames. destruct (Hnames i r Hr) as [s Hs].
    exists s. rewrite cell_insert_ne by congruence. exact Hs.
  - exists df'. split; [exact Hrun|]. split.
    { rewrite Hlen'. unfold df1. cbn [setcol rows]. rewrite length_zip_with.
      unfold values. rewrite length_fmap. lia. }
    intros i r id Hr Hid.
    destruct (Hrows i _ (Hrow1 i r id Hr Hid)) as (k & rk1 & Hrk1 & Hsame & Hri & Hbest).
    destruct (Hrow1_inv k rk1 Hrk1) as (rk & idk & Hrk & Hidk & ->).
    rewrite !cell_insert_eq in Hsame. injection Hsame as Hsame.
    apply Nat2Z.inj in Hsame. subst idk.
    exists k, rk. split; [exact Hrk|]. split; [exact Hidk|]. split.
    + rewrite Hri. now rewrite cell_insert_ne by congruence.
    + intros j rj Hj Hidj.
      destruct (Hbest j _ (Hrow1 j rj id Hj Hidj)) as [Hle Hfirst].
      { now rewrite !cell_insert_eq. }
      rewrite !name_length_insert in Hle, Hfirst by exact Hne. split; assumption.
Qed.

(** X15. Given one cluster id per record and string names,
    [save_clustered_data] writes the ids into [cluster_id] and gives every
    record the longest name among the records with its id, the first of that
    length. *)
Theorem save_clustered_data_annotates df (cluster_ids : list nat) col_name :
  length cluster_ids = length (rows df) ->
  col_name ∈ columns df ->
  col_name <> "cluster_id"%string ->
  Forall (fun r => exists s, cell r col_name = PStr s) (rows df) ->
  exists df',
    save_clustered_data df cluster_ids col_name = Ok df'
    /\ length (rows df') = length (rows df)
    /\ forall i r id, rows df !! i = Some r -> cluster_ids !! i = Some id ->
         exists k rk,
           rows df !! k = Some rk
           /\ cluster_ids !! k = Some id
           /\ rows df' !! i
              = Some (<["cluster_rep"%string := cell rk col_name]>
                        (<["cluster_id"%string := PInt (Z.of_nat id)]> r))
           /\ forall j rj, rows df !! j = Some rj -> cluster_ids !! j = Some id ->
                name_length col_name rj <= name_length col_name rk
                /\ (name_length col_name rj = name_length col_name rk -> k <= j).
Proof. exact (save_clustered_data_rows df cluster_ids col_name). Qed.

Lemma save_clustered_data_annotates_witness :
  exists df',
    save_clustered_data example_people [2; 1; 2; 1; 2] "canonical_name" = Ok df'
    /\ length (rows df') = length (rows example_people)
    /\ forall i r id, rows example_people !! i = Some r -> [2; 1; 2; 1; 2] !! i = Some id ->
         exists k rk,
           rows example_people !! k = Some rk
           /\ [2; 1; 2; 1; 2] !! k = Some id
           /\ rows df' !! i
              = Some (<["cluster_rep"%string := cell rk "canonical_name"]>
                        (<["cluster_id"%string := PInt (Z.of_nat id)]> r))
           /\ forall j rj, rows example_people !! j = Some rj -> [2; 1; 2; 1; 2] !! j = Some id ->
                name_length "canonical_name" rj <= name_length "canonical_name" rk
                /\ (name_length "canonical_name" rj = name_length "canonical_name" rk -> k <= j).
Proof.
  apply (save_clustered_data_annotates example_people [2; 1; 2; 1; 2] "canonical_name").
  - reflexivity.
  - compute_done.
  - discriminate.
  - repeat (apply List.Forall_cons; [eexists; vm_compute; reflexivity|]). apply List.Forall_nil.
Defined.

Section WholePipeline.
Variable linkage : list Q -> result dendrogram.
Variable lower : str -> str.
Variable nfkd : str -> str.
Variable partial_ratio : str -> str -> Q.

(** X16. The pipeline cannot resolve fewer than two records: the matrix is
    built without a scorer call, the condensed list is empty, and the run
    ends with the exception [linkage] raises for it. *)
Theorem group_entities_needs_two_records df col_name clustering_threshold e :
  length (rows df) <= 1 ->
  col_name ∈ columns df ->
  linkage [] = Raise e ->
  group_entities linkage lower nfkd partial_ratio df col_name clustering_threshold = Raise e.
Proof.
  intros Hlen Hcol Hempty. unfold group_entities, getcol.
  rewrite bool_decide_eq_true_2 by exact Hcol. cbn [mbind result_bind].
  set (names := (fun r => cell r col_name) <$> rows df).
  assert (Hn : length names <= 1) by (unfold names; rewrite length_fmap; exact Hlen).
  assert (Hsim : compute_similarity_matrix lower nfkd partial_ratio names []
                 = ([], Ok (zeros (length names) (length names)))).
  { destruct names as [|v [|w rest]]; [reflexivity|reflexivity|simpl in Hn; lia]. }
  rewrite Hsim. cbn [snd mbind result_bind].
  unfold hierarchical_clustering. rewrite squareform_degenerate.
  - cbn [mbind result_bind]. now rewrite Hempty.
  - unfold zeros. now rewrite length_replicate.
  - unfold zeros. rewrite length_replicate. apply Forall_replicate, length_replicate.
Qed.

Lemma builder_stops_at_non_string (strings : list str) (v : pyval) (rest : list pyval) :
  is_string v = false ->
  2 <= length ((PStr <$> strings) ++ v :: rest) ->
  compute_similarity_matrix lower nfkd partial_ratio ((PStr <$> strings) ++ v :: rest) []
  = (calls_before (normalize_dutch_name lower nfkd) strings, Raise AttributeError).
Proof.
  intros Hv Hlen. rewrite compute_similarity_matrix_rows.
  set (names := (PStr <$> strings) ++ v :: rest) in *.
  set (n := length names) in *.
  assert (Hn : n = length strings + S (length rest)).
  { unfold n, names. rewrite length_app, length_fmap. reflexivity. }
  unfold range at 1. rewrite Nat.sub_0_r.
  destruct n as [|n']; [lia|]. cbn [seq for_each].
  unfold mbind at 1. unfold M_bind at 1.
  enough (Hrow : for_each (range (0 + 1) (S n')) (score_pair lower nfkd partial_ratio names 0) (zeros (S n') (S n')) []
                 = (calls_before (normalize_dutch_name lower nfkd) strings, Raise AttributeError))
    by now rewrite Hrow.
  unfold range. simpl (0 + 1). replace (S n' - 1) with n' by lia.
  destruct strings as [|a bs].
  - simpl in *. destruct n' as [|n'']; [lia|]. cbn [seq].
    apply row_stops_at_first. intros w [= <-]. exact Hv.
  - simpl in Hn. assert (Hn' : n' = length bs + S (length rest)) by lia.
    rewrite Hn'. rewrite seq_app. cbn [seq].
    rewrite (row_stops_at_non_string lower nfkd partial_ratio names 0 a (seq 1 (length bs)) bs); [reflexivity|reflexivity| |].
    + apply Forall2_same_length_lookup_2; [apply length_seq|].
      intros k j' b Hk Hb. apply lookup_seq in Hk as [-> _].
      unfold names. simpl. rewrite lookup_app_l by (rewrite length_fmap; eapply lookup_lt_Some; eauto).
      now rewrite list_lookup_fmap, Hb.
    + intros w. unfold names. simpl.
      rewrite lookup_app_r by (rewrite length_fmap; lia).
      rewrite length_fmap, Nat.sub_diag. intros [= <-]. exact Hv.
Qed.

Lemma first_non_string (names : list pyval) v :
  v ∈ names -> is_string v = false ->
  exists strings w rest, names = (PStr <$> strings) ++ w :: rest /\ is_string w = false.
Proof.
  intros Hin Hv. induction names as [|x names IH]; [inversion Hin|].
  destruct (is_string x) eqn:Ex.
  - apply elem_of_cons in Hin as [->|Hin]; [congruence|].
    destruct (IH Hin) as (strings & w & rest & -> & Hw).
    destruct x as [| |s|]; try discriminate.
    exists (s :: strings), w, rest. split; [reflexivity|exact Hw].
  - exists [], x, names. split; [reflexivity|exact Ex].
Qed.

(** X17. With at least two records, a name cell that is not a string
    (a null, a number) stops the pipeline with [AttributeError] in the matrix
    builder: no clustering takes place and no frame is returned. *)
Theorem group_entities_needs_string_names df col_name clustering_threshold r :
  2 <= length (rows df) ->
  col_name ∈ columns df ->
  r ∈ rows df ->
  is_string (cell r col_name) = false ->
  group_entities linkage lower nfkd partial_ratio df col_name clustering_threshold
  = Raise AttributeError.
Proof.
  intros Hlen Hcol Hr Hcell. unfold group_entities, getcol.
  rewrite bool_decide_eq_true_2 by exact Hcol. cbn [mbind result_bind].
  set (names := (fun r => cell r col_name) <$> rows df).
  destruct (first_non_string names (cell r col_name)) as (strings & w & rest & Hnames & Hw).
  { unfold names. apply list_elem_of_fmap. eauto. }
  { exact Hcell. }
  assert (Hn : 2 <= length names) by (unfold names; rewrite length_fmap; exact Hlen).
  rewrite Hnames in *. rewrite (builder_stops_at_non_string strings w rest Hw Hn).
  reflexivity.
Qed.

(** X18. End to end: when the names are strings and the tree that
    [linkage] returns has one leaf per record, the pipeline returns the
    frame in which every record carries its cluster id and, as
    representative, the longest name of the records with that id (the first
    of that length). *)
Theorem group_entities_annotates df col_name clustering_threshold calls sim_matrix ids Z :
  col_name ∈ columns df ->
  col_name <> "cluster_id"%string ->
  Forall (fun r => exists s, cell r col_name = PStr s) (rows df) ->
  compute_similarity_matrix lower nfkd partial_ratio
    ((fun r => cell r col_name) <$> rows df) [] = (calls, Ok sim_matrix) ->
  hierarchical_clustering linkage sim_matrix clustering_threshold = Ok (ids, Z) ->
  length (leaves Z) = length (rows df) ->
  exists df',
    group_entities linkage lower nfkd partial_ratio df col_name clustering_threshold = Ok df'
    /\ length (rows df') = length (rows df)
    /\ forall i r id, rows df !! i = Some r -> ids !! i = Some id ->
         exists k rk,
           rows df !! k = Some rk
           /\ ids !! k = Some id
           /\ rows df' !! i
              = Some (<["cluster_rep"%string := cell rk col_name]>
                        (<["cluster_id"%string := PInt (Z.of_nat id)]> r))
           /\ forall j rj, rows df !! j = Some rj -> ids !! j = Some id ->
                name_length col_name rj <= name_length col_name rk
                /\ (name_length col_name rj = name_length col_name rk -> k <= j).
Proof.
  intros Hcol Hne Hnames Hsim Hclu Hleaves. unfold group_entities, getcol.
  rewrite bool_decide_eq_true_2 by exact Hcol. cbn [mbind result_bind].
  rewrite Hsim. cbn [snd mbind result_bind]. rewrite Hclu. cbn [fst mbind result_bind].
  apply save_clustered_data_rows; [|exact Hcol|exact Hne|exact Hnames].
  pose proof (proj1 (hierarchical_clustering_inv linkage sim_matrix clustering_threshold ids Z Hclu))
    as Hvalid.
  destruct (fcluster_same_cluster Z clustering_threshold Hvalid) as (ids' & E & Hlen & _).
  rewrite (proj2 (hierarchical_clustering_inv linkage sim_matrix clustering_threshold ids Z Hclu))
    in E. injection E as <-. congruence.
Qed.
End WholePipeline.

Lemma group_entities_needs_two_records_witness :
  group_entities linkage_average ascii_lower ascii_nfkd exact_ratio
    {| columns := ["canonical_name"%string];
       rows := [ {[ "canonical_name"%string := PStr (u "Jan van der Berg") ]} ] |}
    "canonical_name" (15 # 100)
  = Raise ValueError.
Proof.
  apply (group_entities_needs_two_records linkage_average ascii_lower ascii_nfkd exact_ratio).
  - simpl. lia.
  - left.
  - reflexivity.
Defined.

Lemma group_entities_needs_string_names_witness :
  group_entities linkage_average ascii_lower ascii_nfkd exact_ratio
    {| columns := ["canonical_name"%string];
       rows := [ {[ "canonical_name"%string := PStr (u "Jan") ]};
                 {[ "canonical_name"%string := PStr (u "Anna") ]};
                 (∅ : record) ] |}
    "canonical_name" (15 # 100)
  = Raise AttributeError.
Proof.
  apply (group_entities_needs_string_names linkage_average ascii_lower ascii_nfkd exact_ratio
           _ "canonical_name" (15 # 100) (∅ : record)).
  - simpl. lia.
  - left.
  - right. right. left.
  - reflexivity.
Defined.

Lemma group_entities_annotates_witness :
  exists df',
    group_entities linkage_average ascii_lower ascii_nfkd exact_ratio
      example_names "canonical_name" (15 # 100) = Ok df'
    /\ length (rows df') = length (rows example_names)
    /\ forall i r id, rows example_names !! i = Some r -> [1; 2; 1] !! i = Some id ->
         exists k rk,
           rows example_names !! k = Some rk
           /\ [1; 2; 1] !! k = Some id
           /\ rows df' !! i
              = Some (<["cluster_rep"%string := cell rk "canonical_name"]>
                        (<["cluster_id"%string := PInt (Z.of_nat id)]> r))
           /\ forall j rj, rows example_names !! j = Some rj -> [1; 2; 1] !! j = Some id ->
                name_length "canonical_name" rj <= name_length "canonical_name" rk
                /\ (name_length "canonical_name" rj = name_length "canonical_name" rk -> k <= j).
Proof.
  eapply (group_entities_annotates linkage_average ascii_lower ascii_nfkd exact_ratio
            example_names "canonical_name" (15 # 100)).
  - left.
  - discriminate.
  - repeat (apply List.Forall_cons; [eexists; vm_compute; reflexivity|]). apply List.Forall_nil.
  - vm_compute. reflexivity.
  - vm_compute. reflexivity.
  - reflexivity.
Defined.

End PipelineFacts.
